(** * The resilient structured-response decoder of the hotel review analyzer

    Shallow embedding of [_safe_json] and [_try_fix_json] from
    [src/services/llm_client.py], together with the parts of the Python
    runtime they call: the [str] methods [strip], [startswith], [split],
    [join], [count], [rstrip] and slicing, and the standard library
    functions [json.loads] and [json.dumps]. *)

From Stdlib Require Import String Ascii NArith ZArith Lia Bool Arith List.
From Stdlib Require DecimalFacts DecimalN.
Import ListNotations.

(** ** Python [str]: a sequence of Unicode code points *)

Definition char := N.
Definition str := list char.

Definition ch (a : ascii) : char := N_of_ascii a.
Definition lit (s : string) : str := map N_of_ascii (list_ascii_of_string s).
Arguments ch a%_char.
Arguments lit s%_string.

(** A code point a [str] can hold. *)
Definition valid_char (c : char) : Prop := (c <= 1114111)%N.
Definition valid_str (s : str) : Prop := Forall valid_char s.

Definition str_eqb (a b : str) : bool :=
  if list_eq_dec N.eq_dec a b then true else false.

(** [c.isspace()]: the code points [str.strip()] removes. *)
Definition isspace (c : char) : bool :=
  ((9 <=? c) && (c <=? 13) || (28 <=? c) && (c <=? 32)
   || (c =? 133) || (c =? 160) || (c =? 5760)
   || (8192 <=? c) && (c <=? 8202)
   || (c =? 8232) || (c =? 8233) || (c =? 8239) || (c =? 8287)
   || (c =? 12288))%N.

Fixpoint lstrip (s : str) : str :=
  match s with
  | [] => []
  | c :: s' => if isspace c then lstrip s' else s
  end.

Fixpoint rstrip (s : str) : str :=
  match s with
  | [] => []
  | c :: s' =>
      match rstrip s' with
      | [] => if isspace c then [] else [c]
      | r => c :: r
      end
  end.

Definition strip (s : str) : str := rstrip (lstrip s).

(** [s.rstrip(c)] for a one-character argument. *)
Fixpoint rstrip_char (c : char) (s : str) : str :=
  match s with
  | [] => []
  | x :: s' =>
      match rstrip_char c s' with
      | [] => if (x =? c)%N then [] else [x]
      | r => x :: r
      end
  end.

Fixpoint startswith (prefix s : str) : bool :=
  match prefix, s with
  | [], _ => true
  | p :: prefix', c :: s' => (c =? p)%N && startswith prefix' s'
  | _ :: _, [] => false
  end.

(** [s.count(c)] for a one-character argument. *)
Fixpoint count (c : char) (s : str) : nat :=
  match s with
  | [] => 0
  | x :: s' => (if (x =? c)%N then 1 else 0) + count c s'
  end.

(** [s.split(c)] for a one-character separator: never an empty list. *)
Fixpoint split (sep : char) (s : str) : list str :=
  match s with
  | [] => [[]]
  | x :: s' =>
      if (x =? sep)%N then [] :: split sep s'
      else match split sep s' with
           | [] => [[x]]
           | l :: ls => (x :: l) :: ls
           end
  end.

(** [sep.join(parts)]. *)
Fixpoint join (sep : str) (parts : list str) : str :=
  match parts with
  | [] => []
  | [p] => p
  | p :: ps => p ++ sep ++ join sep ps
  end.

Definition NL : char := ch "010".
Definition DQUOTE : char := 34%N.
Definition BACKSLASH : char := 92%N.
Definition FENCE : str := lit "```".

(** Text literals of this development are written the way Python writes
    them between single quotes: in [py "..."] the character ['] stands for
    the double quote. *)
Definition py (s : string) : str :=
  map (fun c => if (c =? 39)%N then DQUOTE else c) (lit s).
Arguments py s%_string.

(** ** [_safe_json], first half: the code fence *)

(** The [for line in lines] loop of [_safe_json]; [continue] and [break]
    are the recursive call and the early result. *)
Fixpoint fence_loop (lines : list str) (in_json : bool) (json_lines : list str)
  : list str :=
  match lines with
  | [] => json_lines
  | line :: lines' =>
      let stripped := strip line in
      if startswith FENCE stripped && negb in_json then
        fence_loop lines' true json_lines
      else if str_eqb stripped FENCE then json_lines
      else if in_json then fence_loop lines' in_json (json_lines ++ [line])
      else fence_loop lines' in_json json_lines
  end.

(** The text [_safe_json] hands to [json.loads]. *)
Definition defence (text : str) : str :=
  let text := strip text in
  if startswith FENCE text then
    let lines := split NL text in
    join [NL] (fence_loop lines false [])
  else text.

(** ** [_try_fix_json] *)

Definition is_boundary (c : char) : bool :=
  ((c =? ch ",") || (c =? ch "]") || (c =? ch "}"))%N.

(** The [for i, char in enumerate(text)] loop, started at index [i] with
    the three loop variables; it returns [(in_string, last_good_pos)]. *)
Fixpoint string_scan (text : str) (i : nat)
         (in_string escape_next : bool) (last_good_pos : nat) : bool * nat :=
  match text with
  | [] => (in_string, last_good_pos)
  | c :: text' =>
      if escape_next then string_scan text' (S i) in_string false last_good_pos
      else if (c =? BACKSLASH)%N then
        string_scan text' (S i) in_string true last_good_pos
      else
        let in_string := if (c =? DQUOTE)%N then negb in_string else in_string in
        let last_good_pos :=
          if negb in_string && is_boundary c then i + 1 else last_good_pos in
        string_scan text' (S i) in_string false last_good_pos
  end.

(** [c * n] on a one-character string: empty when [n] is negative. *)
Definition str_mul (c : char) (n : Z) : str := repeat c (Z.to_nat n).

Definition unbalanced (text : str) : bool :=
  (count (ch "}") text <? count (ch "{") text)
  || (count (ch "]") text <? count (ch "[") text).

Definition truncate_text (text : str) : str :=
  let '(in_string, last_good_pos) := string_scan text 0 false false 0 in
  if in_string && (0 <? last_good_pos) then firstn last_good_pos text else text.

Definition _try_fix_json (text : str) : option str :=
  match text with
  | [] => None
  | _ =>
      let text := strip text in
      if unbalanced text then
        let text := truncate_text text in
        let open_braces := count (ch "{") text in
        let close_braces := count (ch "}") text in
        let open_brackets := count (ch "[") text in
        let close_brackets := count (ch "]") text in
        let missing_brackets :=
          str_mul (ch "]") (Z.of_nat open_brackets - Z.of_nat close_brackets) in
        let missing_braces :=
          str_mul (ch "}") (Z.of_nat open_braces - Z.of_nat close_braces) in
        Some (rstrip_char (ch ",") text ++ missing_brackets ++ missing_braces)
      else None
  end.

(** ** The Python runtime the decoder runs on

    Floating point numbers are kept abstract: [parse_float] is [float(s)] on
    a JSON number literal, [floatstr] is what [json.dumps] writes for a
    float ([float.__repr__], or [NaN], [Infinity], [-Infinity]).
    [recursion_limit] is the number of nested calls still available when
    [json.loads] is entered and [int_max_str_digits] is
    [sys.get_int_max_str_digits()] (0 switches the limit off). *)
Class PyRuntime : Type := {
  pyfloat : Type;
  parse_float : str -> pyfloat;
  float_nan : pyfloat;
  float_inf : pyfloat;
  float_neginf : pyfloat;
  floatstr : pyfloat -> str;
  recursion_limit : nat;
  int_max_str_digits : nat
}.

(** Python values that [json.loads] builds.  A [dict] keeps its keys in
    insertion order. *)
#[local] Set Warnings "-register-all".
Inductive pyval {RT : PyRuntime} : Type :=
| PNone
| PBool (b : bool)
| PInt (z : Z)
| PFloat (f : pyfloat)
| PStr (s : str)
| PList (l : list pyval)
| PDict (d : list (str * pyval)).

Inductive exception : Type :=
| JSONDecodeError (msg doc : str) (pos : nat)
| RecursionError
| ValueError.

(** What a call does: it returns, or it raises.  [LoopBound] marks a loop
    of the model that used up its iteration bound; [json_loads] never ends
    there (lemma [json_loads_fail]). *)
Inductive outcome (A : Type) : Type :=
| Returns (a : A)
| Raises (e : exception)
| LoopBound.
Arguments Returns {A} a.
Arguments Raises {A} e.
Arguments LoopBound {A}.

(** [d[key] = value]. *)
Fixpoint dict_set {V : Type} (key : str) (value : V) (d : list (str * V))
  : list (str * V) :=
  match d with
  | [] => [(key, value)]
  | (k, v) :: d' =>
      if str_eqb k key then (k, value) :: d'
      else (k, v) :: dict_set key value d'
  end.

Definition dict_of_pairs {V : Type} (pairs : list (str * V)) : list (str * V) :=
  fold_left (fun d kv => dict_set (fst kv) (snd kv) d) pairs [].

Fixpoint dict_get {V : Type} (key : str) (d : list (str * V)) : option V :=
  match d with
  | [] => None
  | (k, v) :: d' => if str_eqb k key then Some v else dict_get key d'
  end.

(** ** [json.loads]: the scanner of CPython's [_json] accelerator

    The scanner functions work on the suffix of the document that starts at
    the current index.  [SErr msg rem] is [JSONDecodeError(msg, doc, pos)]
    with [pos = len(doc) - rem]: the error is [rem] characters before the
    end of the document. *)
Inductive sres (A : Type) : Type :=
| SOk (a : A)
| SErr (msg : str) (rem : nat)
| SRaise (e : exception)
| SBound.
Arguments SOk {A} a.
Arguments SErr {A} msg rem.
Arguments SRaise {A} e.
Arguments SBound {A}.

Definition sbind {A B : Type} (m : sres A) (f : A -> sres B) : sres B :=
  match m with
  | SOk a => f a
  | SErr msg rem => SErr msg rem
  | SRaise e => SRaise e
  | SBound => SBound
  end.

Notation "' p <- m ;; k" := (sbind m (fun p => k))
  (at level 61, p pattern, m at next level, right associativity).

Definition is_ws (c : char) : bool :=
  ((c =? 32) || (c =? 9) || (c =? 10) || (c =? 13))%N.

Fixpoint skip_ws (s : str) : str :=
  match s with
  | [] => []
  | c :: s' => if is_ws c then skip_ws s' else s
  end.

Definition is_digit (c : char) : bool := ((48 <=? c) && (c <=? 57))%N.

Definition hex_val (c : char) : option N :=
  if is_digit c then Some (c - 48)%N
  else if ((97 <=? c) && (c <=? 102))%N then Some (c - 87)%N
  else if ((65 <=? c) && (c <=? 70))%N then Some (c - 55)%N
  else None.

Definition hex4 (a b c d : char) : option N :=
  match hex_val a, hex_val b, hex_val c, hex_val d with
  | Some x, Some y, Some z, Some w => Some (((x * 16 + y) * 16 + z) * 16 + w)%N
  | _, _, _, _ => None
  end.

Definition is_high_surrogate (c : N) : bool := ((55296 <=? c) && (c <=? 56319))%N.
Definition is_low_surrogate (c : N) : bool := ((56320 <=? c) && (c <=? 57343))%N.
Definition join_surrogates (hi lo : N) : N :=
  (65536 + ((hi - 55296) * 1024 + (lo - 56320)))%N.

(** The one-character escapes after a backslash. *)
Definition unescape (c : char) : option char :=
  if (c =? DQUOTE)%N then Some DQUOTE
  else if (c =? BACKSLASH)%N then Some BACKSLASH
  else if (c =? ch "/")%N then Some (ch "/")
  else if (c =? ch "b")%N then Some 8%N
  else if (c =? ch "f")%N then Some 12%N
  else if (c =? ch "n")%N then Some 10%N
  else if (c =? ch "r")%N then Some 13%N
  else if (c =? ch "t")%N then Some 9%N
  else None.

Definition scons {A : Type} (c : char) (m : sres (str * A)) : sres (str * A) :=
  '(x, r) <- m ;; SOk (c :: x, r).

Definition msg_unterminated : str := lit "Unterminated string starting at".
Definition msg_uXXXX : str := lit "Invalid \uXXXX escape".
Definition msg_escape : str := lit "Invalid \escape".
Definition msg_control : str := lit "Invalid control character at".

(** [scanstring_unicode], strict: [s] starts after the opening quote, which
    is [begin] characters before the end of the document.  It returns the
    decoded string and the text after the closing quote. *)
Fixpoint scanstring (begin : nat) (s : str) : sres (str * str) :=
  match s with
  | [] => SErr msg_unterminated begin
  | c :: s1 =>
      if (c =? DQUOTE)%N then SOk ([], s1)
      else if (c =? BACKSLASH)%N then
        match s1 with
        | [] => SErr msg_unterminated begin
        | e :: s2 =>
            if (e =? ch "u")%N then
              match s2 with
              | h1 :: h2 :: h3 :: h4 :: ((_ :: _) as s3) =>
                  match hex4 h1 h2 h3 h4 with
                  | None => SErr msg_uXXXX (length s1)
                  | Some uni =>
                      if is_high_surrogate uni then
                        match s3 with
                        | b :: ((u :: g1 :: g2 :: g3 :: g4 :: ((_ :: _) as s4)) as s3') =>
                            if ((b =? BACKSLASH) && (u =? ch "u"))%N then
                              match hex4 g1 g2 g3 g4 with
                              | None => SErr msg_uXXXX (length s3')
                              | Some uni2 =>
                                  if is_low_surrogate uni2
                                  then scons (join_surrogates uni uni2) (scanstring begin s4)
                                  else scons uni (scanstring begin s3)
                              end
                            else scons uni (scanstring begin s3)
                        | _ => scons uni (scanstring begin s3)
                        end
                      else scons uni (scanstring begin s3)
                  end
              | _ => SErr msg_uXXXX (length s1)
              end
            else
              match unescape e with
              | Some c' => scons c' (scanstring begin s2)
              | None => SErr msg_escape (length s)
              end
        end
      else if (c <=? 31)%N then SErr msg_control (length s)
      else scons c (scanstring begin s1)
  end.

(** The leading decimal digits of [s] and what follows them. *)
Fixpoint span_digits (s : str) : str * str :=
  match s with
  | [] => ([], [])
  | c :: s' =>
      if is_digit c then let '(ds, r) := span_digits s' in (c :: ds, r)
      else ([], s)
  end.

Definition number_sign (s : str) : str * str :=
  match s with
  | c :: s' => if (c =? ch "-")%N then ([c], s') else ([], s)
  | [] => ([], s)
  end.

(** [0] or a non-zero digit followed by digits. *)
Definition number_int (s : str) : option (str * str) :=
  match s with
  | c :: s' =>
      if ((49 <=? c) && (c <=? 57))%N then
        let '(ds, r) := span_digits s' in Some (c :: ds, r)
      else if (c =? 48)%N then Some ([c], s')
      else None
  | [] => None
  end.

(** A dot followed by at least one digit, or nothing. *)
Definition number_frac (s : str) : str * str :=
  match s with
  | dot :: d :: s' =>
      if ((dot =? ch ".") && is_digit d)%N then
        let '(ds, r) := span_digits s' in (dot :: d :: ds, r)
      else ([], s)
  | _ => ([], s)
  end.

(** [e] or [E], an optional sign and at least one digit, or nothing: without
    a digit the scanner backtracks to the [e]. *)
Definition number_exp (s : str) : str * str :=
  match s with
  | e :: s' =>
      if ((e =? ch "e") || (e =? ch "E"))%N then
        let '(sg, s'') :=
          match s' with
          | c :: t => if ((c =? ch "-") || (c =? ch "+"))%N then ([c], t) else ([], s')
          | [] => ([], s')
          end in
        match span_digits s'' with
        | ([], _) => ([], s)
        | (ds, r) => (e :: sg ++ ds, r)
        end
      else ([], s)
  | [] => ([], s)
  end.

(** [_match_number_unicode]: whether the literal is a float, the literal,
    and the text after it. *)
Definition match_number (s : str) : option (bool * str * str) :=
  let '(sg, s1) := number_sign s in
  match number_int s1 with
  | None => None
  | Some (ip, s2) =>
      let '(frac, s3) := number_frac s2 in
      let '(ex, s4) := number_exp s3 in
      let is_float :=
        match frac, ex with [], [] => false | _, _ => true end in
      Some (is_float, sg ++ ip ++ frac ++ ex, s4)
  end.

Definition nat_of_digits (ds : str) : N :=
  fold_left (fun acc c => acc * 10 + (c - 48))%N ds 0%N.

(** [int(numstr)] on an integer literal of the scanner. *)
Definition int_of_literal (numstr : str) : Z :=
  match numstr with
  | c :: ds =>
      if (c =? ch "-")%N then (- Z.of_N (nat_of_digits ds))%Z
      else Z.of_N (nat_of_digits numstr)
  | [] => 0%Z
  end.

(** The digit-count check of [int(str)] and [str(int)]: a conversion of
    more than [int_max_str_digits] digits raises [ValueError]. *)
Definition too_many_digits {RT : PyRuntime} (digits : nat) : bool :=
  (640 <? digits) && (0 <? int_max_str_digits) && (int_max_str_digits <? digits).

Definition msg_value : str := lit "Expecting value".
Definition msg_comma : str := lit "Expecting ',' delimiter".
Definition msg_colon : str := lit "Expecting ':' delimiter".
Definition msg_name : str :=
  lit "Expecting property name enclosed in double quotes".
Definition msg_extra : str := lit "Extra data".
Definition msg_bom : str := lit "Unexpected UTF-8 BOM (decode using utf-8-sig)".

(** The [while (1)] loop that [_parse_array_unicode] and
    [_parse_object_unicode] share: an item, whitespace, then the closing
    character or a comma and whitespace.  [k] bounds the iterations. *)
Fixpoint parse_items {A : Type} (item : str -> sres (A * str)) (close : char)
         (k : nat) (s : str) : sres (list A * str) :=
  match k with
  | O => SBound
  | S k' =>
      '(x, r) <- item s ;;
      let r := skip_ws r in
      match r with
      | c :: r' =>
          if (c =? close)%N then SOk ([x], r')
          else if (c =? ch ",")%N then
            '(xs, r'') <- parse_items item close k' (skip_ws r') ;;
            SOk (x :: xs, r'')
          else SErr msg_comma (length r)
      | [] => SErr msg_comma 0
      end
  end.

(** After the opening character: whitespace, then either the closing
    character at once or the loop. *)
Definition parse_container {A : Type} (item : str -> sres (A * str))
           (close : char) (s : str) : sres (list A * str) :=
  let s := skip_ws s in
  match s with
  | c :: s' =>
      if (c =? close)%N then SOk ([], s')
      else parse_items item close (S (length s)) s
  | [] => parse_items item close 1 s
  end.

(** One [key: value] member of an object. *)
Definition parse_member {V : Type} (scan : str -> sres (V * str)) (s : str)
  : sres ((str * V) * str) :=
  match s with
  | c :: s1 =>
      if (c =? DQUOTE)%N then
        '(key, r) <- scanstring (length s) s1 ;;
        let r := skip_ws r in
        match r with
        | c2 :: r' =>
            if (c2 =? ch ":")%N then
              '(v, r'') <- scan (skip_ws r') ;; SOk ((key, v), r'')
            else SErr msg_colon (length r)
        | [] => SErr msg_colon 0
        end
      else SErr msg_name (length s)
  | [] => SErr msg_name 0
  end.

(** The end of [scan_once_unicode]: the named constants, then
    [_match_number_unicode] and the conversion of the literal. *)
Definition scan_atom {RT : PyRuntime} (s : str) : sres (pyval * str) :=
  if startswith (lit "null") s then SOk (PNone, skipn 4 s)
  else if startswith (lit "true") s then SOk (PBool true, skipn 4 s)
  else if startswith (lit "false") s then SOk (PBool false, skipn 5 s)
  else if startswith (lit "NaN") s then SOk (PFloat float_nan, skipn 3 s)
  else if startswith (lit "Infinity") s then SOk (PFloat float_inf, skipn 8 s)
  else if startswith (lit "-Infinity") s then SOk (PFloat float_neginf, skipn 9 s)
  else
    match match_number s with
    | Some (true, numstr, r) => SOk (PFloat (parse_float numstr), r)
    | Some (false, numstr, r) =>
        if too_many_digits (length (snd (number_sign numstr)))
        then SRaise ValueError
        else SOk (PInt (int_of_literal numstr), r)
    | None => SErr msg_value (length s)
    end.

(** [scan_once_unicode]; [depth] is the number of nested containers the
    recursion limit still allows. *)
Fixpoint scan_once {RT : PyRuntime} (depth : nat) (s : str)
  : sres (pyval * str) :=
  match s with
  | [] => SErr msg_value 0
  | c :: s' =>
      if (c =? DQUOTE)%N then
        '(x, r) <- scanstring (length s) s' ;; SOk (PStr x, r)
      else if (c =? ch "{")%N then
        match depth with
        | O => SRaise RecursionError
        | S d =>
            '(pairs, r) <- parse_container (parse_member (scan_once d)) (ch "}") s' ;;
            SOk (PDict (dict_of_pairs pairs), r)
        end
      else if (c =? ch "[")%N then
        match depth with
        | O => SRaise RecursionError
        | S d =>
            '(values, r) <- parse_container (scan_once d) (ch "]") s' ;;
            SOk (PList values, r)
        end
      else scan_atom s
  end.

(** [json.loads(s)] for a [str] argument and default options. *)
Definition json_loads {RT : PyRuntime} (s : str) : outcome pyval :=
  if startswith [65279%N] s then Raises (JSONDecodeError msg_bom s 0)
  else
    match scan_once recursion_limit (skip_ws s) with
    | SOk (obj, r) =>
        match skip_ws r with
        | [] => Returns obj
        | r' => Raises (JSONDecodeError msg_extra s (length s - length r'))
        end
    | SErr msg rem => Raises (JSONDecodeError msg s (length s - rem))
    | SRaise e => Raises e
    | SBound => LoopBound
    end.

(** ** [str(n)] for integers *)

Fixpoint chars_of_uint (u : Decimal.uint) : str :=
  match u with
  | Decimal.Nil => []
  | Decimal.D0 u => 48%N :: chars_of_uint u
  | Decimal.D1 u => 49%N :: chars_of_uint u
  | Decimal.D2 u => 50%N :: chars_of_uint u
  | Decimal.D3 u => 51%N :: chars_of_uint u
  | Decimal.D4 u => 52%N :: chars_of_uint u
  | Decimal.D5 u => 53%N :: chars_of_uint u
  | Decimal.D6 u => 54%N :: chars_of_uint u
  | Decimal.D7 u => 55%N :: chars_of_uint u
  | Decimal.D8 u => 56%N :: chars_of_uint u
  | Decimal.D9 u => 57%N :: chars_of_uint u
  end.

(** The decimal digits of [n], most significant first. *)
Definition str_of_N (n : N) : str := chars_of_uint (N.to_uint n).

Definition str_of_nat (n : nat) : str := str_of_N (N.of_nat n).

(** [int.__repr__]. *)
Definition int_repr (z : Z) : str :=
  match z with
  | Zneg p => ch "-" :: str_of_N (Npos p)
  | _ => str_of_N (Z.to_N z)
  end.

(** ** [str(e)] for a [JSONDecodeError] *)

Definition lineno (doc : str) (pos : nat) : nat := count NL (firstn pos doc) + 1.

(** [pos - doc.rfind('\n', 0, pos)]: one more than the number of characters
    between the last newline before [pos] and [pos]. *)
Definition colno (doc : str) (pos : nat) : nat :=
  S (length (last (split NL (firstn pos doc)) [])).

Definition errmsg (msg doc : str) (pos : nat) : str :=
  msg ++ lit ": line " ++ str_of_nat (lineno doc pos)
      ++ lit " column " ++ str_of_nat (colno doc pos)
      ++ lit " (char " ++ str_of_nat pos ++ lit ")".

(** ** [json.dumps] with default options, on values built by [json.loads] *)

Definition hex_digit (n : N) : char := (if n <? 10 then 48 + n else 87 + n)%N.

(** ['\\u{0:04x}'.format(n)]. *)
Definition u_escape (n : N) : str :=
  [BACKSLASH; ch "u"; hex_digit (n / 4096 mod 16); hex_digit (n / 256 mod 16);
   hex_digit (n / 16 mod 16); hex_digit (n mod 16)]%N.

(** The replacement of one character in [encode_basestring_ascii]. *)
Definition escape_char (c : char) : str :=
  if (c =? BACKSLASH)%N then [BACKSLASH; BACKSLASH]
  else if (c =? DQUOTE)%N then [BACKSLASH; DQUOTE]
  else if (c =? 8)%N then [BACKSLASH; ch "b"]
  else if (c =? 12)%N then [BACKSLASH; ch "f"]
  else if (c =? 10)%N then [BACKSLASH; ch "n"]
  else if (c =? 13)%N then [BACKSLASH; ch "r"]
  else if (c =? 9)%N then [BACKSLASH; ch "t"]
  else if ((32 <=? c) && (c <=? 126))%N then [c]
  else if (c <? 65536)%N then u_escape c
  else
    let n := (c - 65536)%N in
    let s1 := N.lor 55296 (N.land (N.shiftr n 10) 1023) in
    let s2 := N.lor 56320 (N.land n 1023) in
    u_escape s1 ++ u_escape s2.

Definition encode_basestring_ascii (s : str) : str :=
  DQUOTE :: flat_map escape_char s ++ [DQUOTE].

Fixpoint json_dumps {RT : PyRuntime} (v : pyval) : str :=
  match v with
  | PNone => lit "null"
  | PBool true => lit "true"
  | PBool false => lit "false"
  | PInt z => int_repr z
  | PFloat f => floatstr f
  | PStr s => encode_basestring_ascii s
  | PList l => ch "[" :: join (lit ", ") (map json_dumps l) ++ [ch "]"]
  | PDict d =>
      ch "{" :: join (lit ", ")
                  (map (fun kv => encode_basestring_ascii (fst kv) ++ lit ": "
                                    ++ json_dumps (snd kv)) d)
        ++ [ch "}"]
  end.

(** ** [_safe_json] *)

Definition key_raw_output : str := lit "raw_output".
Definition key_parse_error : str := lit "parse_error".
Definition key_error_position : str := lit "error_position".

(** The mapping of the last [return] of [_safe_json], for the error
    [JSONDecodeError(msg, text, pos)]. *)
Definition diagnostic {RT : PyRuntime} (text msg : str) (pos : nat) : pyval :=
  PDict [(key_raw_output, PStr text);
         (key_parse_error, PStr (errmsg msg text pos));
         (key_error_position, PInt (Z.of_nat pos))].

(** [_safe_json] after the fence is removed: the two [try] blocks. *)
Definition decode_or_repair {RT : PyRuntime} (text : str) : outcome pyval :=
  match json_loads text with
  | Raises (JSONDecodeError msg _ pos) =>
      match _try_fix_json text with
      | Some ((_ :: _) as fixed_text) =>
          match json_loads fixed_text with
          | Raises (JSONDecodeError _ _ _) => Returns (diagnostic text msg pos)
          | result => result
          end
      | _ => Returns (diagnostic text msg pos)
      end
  | result => result
  end.

Definition _safe_json {RT : PyRuntime} (text : str) : outcome pyval :=
  decode_or_repair (defence text).

(** ** A runtime to evaluate examples on

    CPython's default limits; a float is represented by the literal that
    denotes it. *)
#[export] Instance reference_runtime : PyRuntime := {|
  pyfloat := str;
  parse_float := fun numstr => numstr;
  float_nan := lit "NaN";
  float_inf := lit "Infinity";
  float_neginf := lit "-Infinity";
  floatstr := fun f => f;
  recursion_limit := 1000;
  int_max_str_digits := 4300
|}.

(** ** Notions the properties are stated with *)

Definition has_key {RT : PyRuntime} (key : str) (v : pyval) : bool :=
  match v with
  | PDict d => match dict_get key d with Some _ => true | None => false end
  | _ => false
  end.

(** The state of the scan of [_try_fix_json] after a prefix of the text,
    told without the loop: [lex p in_string escape_next]. *)
Inductive lex : str -> bool -> bool -> Prop :=
| lex_nil : lex [] false false
| lex_escaped p ins c : lex p ins true -> lex (p ++ [c]) ins false
| lex_backslash p ins : lex p ins false -> lex (p ++ [BACKSLASH]) ins true
| lex_quote p ins : lex p ins false -> lex (p ++ [DQUOTE]) (negb ins) false
| lex_plain p ins c :
    lex p ins false -> c <> BACKSLASH -> c <> DQUOTE -> lex (p ++ [c]) ins false.

(** A clean boundary: offset [i + 1] where character [i] is a comma, a
    close-bracket or a close-brace met outside a string. *)
Definition clean_boundary (text : str) (pos : nat) : Prop :=
  exists i c, pos = i + 1 /\ nth_error text i = Some c /\ is_boundary c = true
              /\ lex (firstn i text) false false.

(** The occurrences of [c] that the scan of [_try_fix_json] meets inside a
    string literal, and those it meets outside. *)
Fixpoint count_in_string (c : char) (text : str) (in_string escape_next : bool)
  : nat :=
  match text with
  | [] => 0
  | x :: text' =>
      (if in_string && (x =? c)%N then 1 else 0)
      + (if escape_next then count_in_string c text' in_string false
         else if (x =? BACKSLASH)%N then count_in_string c text' in_string true
         else count_in_string c text'
                (if (x =? DQUOTE)%N then negb in_string else in_string) false)
  end.

Fixpoint count_outside (c : char) (text : str) (in_string escape_next : bool)
  : nat :=
  match text with
  | [] => 0
  | x :: text' =>
      (if negb in_string && (x =? c)%N then 1 else 0)
      + (if escape_next then count_outside c text' in_string false
         else if (x =? BACKSLASH)%N then count_outside c text' in_string true
         else count_outside c text'
                (if (x =? DQUOTE)%N then negb in_string else in_string) false)
  end.

(** After a high surrogate escape: whether the text goes on with a second
    [\u] escape that has a character after it, and the value of its four
    digits when they are hexadecimal. *)
Definition lookahead_pair (s3 : str) : option (option N) :=
  match s3 with
  | b :: u :: rest =>
      if ((b =? BACKSLASH) && (u =? ch "u"))%N then
        match rest with
        | g1 :: g2 :: g3 :: g4 :: _ :: _ => Some (hex4 g1 g2 g3 g4)
        | _ => None
        end
      else None
  | _ => None
  end.

(** What may follow a number literal without changing how it is read. *)
Definition number_end (r : str) : bool :=
  match r with
  | [] => true
  | c :: _ =>
      negb (is_digit c || (c =? ch ".") || (c =? ch "e") || (c =? ch "E"))%N
  end.

(** The number of nested containers of a value. *)
Fixpoint depth_of {RT : PyRuntime} (v : pyval) : nat :=
  match v with
  | PList l => S (fold_right (fun x m => Nat.max (depth_of x) m) 0 l)
  | PDict d => S (fold_right (fun kv m => Nat.max (depth_of (snd kv)) m) 0 d)
  | _ => 0
  end.

(** [P] holds of a value and of every value inside it. *)
Fixpoint val_all {RT : PyRuntime} (P : pyval -> Prop) (v : pyval) : Prop :=
  P v /\
  match v with
  | PList l => fold_right (fun x acc => val_all P x /\ acc) True l
  | PDict d => fold_right (fun kv acc => val_all P (snd kv) /\ acc) True d
  | _ => True
  end.

(** A high surrogate immediately followed by a low surrogate. *)
Fixpoint surrogate_pair_free (s : str) : bool :=
  match s with
  | [] => true
  | c :: s' =>
      match s' with
      | c' :: _ => negb (is_high_surrogate c && is_low_surrogate c')
      | [] => true
      end && surrogate_pair_free s'
  end.

(** The decoder reads what [json.dumps] writes for the float [f] back as
    [f]: CPython's [float(repr(x)) == x], and the three named constants. *)
Definition float_reads_back {RT : PyRuntime} (f : pyfloat) : Prop :=
  (floatstr f = lit "NaN" /\ f = float_nan)
  \/ (floatstr f = lit "Infinity" /\ f = float_inf)
  \/ (floatstr f = lit "-Infinity" /\ f = float_neginf)
  \/ (match_number (floatstr f) = Some (true, floatstr f, [])
      /\ parse_float (floatstr f) = f).

(** The conditions on the strings and floats of a value under which it
    survives [json.dumps] followed by [json.loads]. *)
Definition rereadable {RT : PyRuntime} (v : pyval) : Prop :=
  match v with
  | PStr s => surrogate_pair_free s = true
  | PFloat f => float_reads_back f
  | PDict d => forallb surrogate_pair_free (map fst d) = true
  | _ => True
  end.

(** What [json.loads] guarantees of each value it builds. *)
Definition well_formed {RT : PyRuntime} (v : pyval) : Prop :=
  match v with
  | PInt z => too_many_digits (length (snd (number_sign (int_repr z)))) = false
  | PStr s => valid_str s
  | PDict d => NoDup (map fst d) /\ Forall valid_str (map fst d)
  | _ => True
  end.

(** [_safe_json(text)] returns [v] from one of its two [return json.loads]
    statements. *)
Definition decodes {RT : PyRuntime} (text : str) (v : pyval) : Prop :=
  json_loads (defence text) = Returns v
  \/ (exists msg doc pos fixed,
         json_loads (defence text) = Raises (JSONDecodeError msg doc pos)
         /\ _try_fix_json (defence text) = Some fixed
         /\ json_loads fixed = Returns v).

(** A fenced response: the marker line with an optional tag, the content,
    the closing marker and whatever follows it. *)
Definition fenced (tag content trailer : str) : str :=
  FENCE ++ tag ++ [NL] ++ content ++ [NL] ++ FENCE ++ trailer.

(** The scenarios of the specification. *)
Definition truncated_input : str := py "{'a': [1, 2, 3], 'b': 'incomplete".

Definition truncated_result {RT : PyRuntime} : pyval :=
  PDict [(py "a", PList [PInt 1; PInt 2; PInt 3])].


(** ** Notions the proofs are stated with *)

(** [pos] is the last clean boundary of [text] at or before offset [n],
    and 0 when there is none. *)
Definition last_boundary (text : str) (n pos : nat) : Prop :=
  (pos = 0 \/ (clean_boundary text pos /\ pos <= n))
  /\ forall q, clean_boundary text q -> q <= n -> q <= pos.

(** What the repair candidate of [text] is: [text] stripped, cut at the
    last clean boundary when the scan ends inside a string and there is a
    boundary, trailing commas removed, the missing closers appended. *)
Definition candidate_of (text candidate : str) : Prop :=
  exists cut body commas,
    ((exists esc pos, lex (strip text) true esc
                      /\ clean_boundary (strip text) pos
                      /\ (forall q, clean_boundary (strip text) q -> q <= pos)
                      /\ cut = firstn pos (strip text))
     \/ (((forall esc, ~ lex (strip text) true esc)
          \/ (forall q, ~ clean_boundary (strip text) q))
         /\ cut = strip text))
    /\ cut = body ++ repeat (ch ",") commas
    /\ last body 0%N <> ch ","
    /\ candidate =
         body ++ repeat (ch "]") (count (ch "[") cut - count (ch "]") cut)
              ++ repeat (ch "}") (count (ch "{") cut - count (ch "}") cut).

(** The decimal number that a string of digits writes. *)
Fixpoint uint_of_chars (ds : str) : Decimal.uint :=
  match ds with
  | [] => Decimal.Nil
  | c :: ds' =>
      let u := uint_of_chars ds' in
      if (c =? 48)%N then Decimal.D0 u else if (c =? 49)%N then Decimal.D1 u
      else if (c =? 50)%N then Decimal.D2 u else if (c =? 51)%N then Decimal.D3 u
      else if (c =? 52)%N then Decimal.D4 u else if (c =? 53)%N then Decimal.D5 u
      else if (c =? 54)%N then Decimal.D6 u else if (c =? 55)%N then Decimal.D7 u
      else if (c =? 56)%N then Decimal.D8 u else Decimal.D9 u
  end.

(** [r] does not go on with a digit. *)
Definition not_digit_head (r : str) : Prop :=
  match r with [] => True | c :: _ => is_digit c = false end.

(** A string body up to its closing quote: when it begins with a [\u]
    escape, at least five characters follow the [u]. *)
Definition long_escape (c : str) : Prop :=
  forall t, c = BACKSLASH :: ch "u" :: t -> 5 <= length t.

(** [p] reads [x] from a non-empty prefix of [s] that does not end with
    whitespace, leaves [r], and reads the same prefix the same way before
    any text that cannot continue a number. *)
Definition local_at {A : Type} (p : str -> sres (A * str))
           (s : str) (x : A) (r : str) : Prop :=
  exists c, s = c ++ r /\ c <> [] /\ isspace (last c 0%N) = false
            /\ forall r', number_end r' = true -> p (c ++ r') = SOk (x, r').

(** [p] reads every value that way. *)
Definition local {A : Type} (p : str -> sres (A * str)) : Prop :=
  forall s x r, p s = SOk (x, r) -> local_at p s x r.

(** The first character of a value. *)
Definition value_start (c : char) : Prop :=
  c = DQUOTE \/ c = ch "{" \/ c = ch "[" \/ c = ch "n" \/ c = ch "t" \/ c = ch "f"
  \/ c = ch "N" \/ c = ch "I" \/ c = ch "-" \/ is_digit c = true.

(** A result that is neither an exception other than a decode error nor the
    loop bound. *)
Definition quiet {A : Type} (m : sres A) : Prop :=
  (exists a, m = SOk a) \/ (exists msg rem, m = SErr msg rem).

(** The two exceptions of [json.loads] that are not decode errors. *)
Definition known_exception (e : exception) : Prop :=
  e = RecursionError \/ e = ValueError.

(** [p] never ends at the loop bound; it raises only [RecursionError] and
    [ValueError], and only on a text of more than [n] characters. *)
Definition sound_fail {A : Type} (n : nat) (p : str -> sres A) : Prop :=
  forall s, p s <> SBound
            /\ forall e, p s = SRaise e -> known_exception e /\ n < length s.

(** The characters of some lines and the newlines that end them. *)
Definition lines_size (ls : list str) : nat :=
  fold_right (fun l m => S (length l) + m) 0 ls.

(** The item [x] is read back from its encoding [enc x], which starts with
    a character that is neither whitespace nor the closing character. *)
Definition reads_back {A : Type} (item : str -> sres (A * str)) (close : char)
           (enc : A -> str) (x : A) : Prop :=
  (forall r, number_end r = true -> item (enc x ++ r) = SOk (x, r))
  /\ exists c t, enc x = c :: t /\ is_ws c = false /\ (c =? close)%N = false.

(** [p] builds values that satisfy [Q], from text that can be a [str]. *)
Definition builds {A : Type} (Q : A -> Prop) (p : str -> sres (A * str)) : Prop :=
  forall s x r, valid_str s -> p s = SOk (x, r) -> Q x /\ valid_str r.

(** ** Python objects beyond JSON text: exceptions, truth, [str()]

    The providers' responses are the values [resp.json()] returns, which are
    values [json.loads] builds. *)

(** The exceptions of the response handling: the four that subscripts,
    [dict.get] and [str.strip] raise on a value of the wrong shape or type,
    and what [_safe_json] lets through. *)
Inductive pyerror : Type :=
| KeyError
| IndexError
| TypeError
| AttributeError
| DecoderError (e : exception).

(** What a call does; [Loops] is [LoopBound] of [_safe_json]. *)
Inductive run (A : Type) : Type :=
| Done (a : A)
| Fails (e : pyerror)
| Loops.
Arguments Done {A} a.
Arguments Fails {A} e.
Arguments Loops {A}.

Definition run_bind {A B : Type} (m : run A) (f : A -> run B) : run B :=
  match m with
  | Done a => f a
  | Fails e => Fails e
  | Loops => Loops
  end.

Notation "x <~ m ;; k" := (run_bind m (fun x => k))
  (at level 61, m at next level, right associativity).

(** [try: m  except (KeyError, IndexError): handler]. *)
Definition except_lookup {A : Type} (m handler : run A) : run A :=
  match m with
  | Fails KeyError | Fails IndexError => handler
  | _ => m
  end.

(** Two builtins are kept abstract: [str(x)] on a value that is not a
    [str] (its [repr], which needs the Unicode database for the strings
    inside), and [bool(x)] on a float.  [object_repr] is the string that
    [str(x)] returns: Python raises [ValueError] on an integer of more
    digits than the digit limit and [RecursionError] on nesting beyond the
    recursion limit, values that [json.loads] under the same limits does not
    build. *)
Class PyObject {RT : PyRuntime} : Type := {
  object_repr : pyval -> str;
  float_bool : pyfloat -> bool
}.

(** [str(v)], also what an f-string writes for [{v}]. *)
Definition py_str {RT : PyRuntime} {PO : PyObject} (v : pyval) : str :=
  match v with
  | PStr s => s
  | _ => object_repr v
  end.

(** [bool(v)]. *)
Definition truthy {RT : PyRuntime} {PO : PyObject} (v : pyval) : bool :=
  match v with
  | PNone => false
  | PBool b => b
  | PInt z => negb (z =? 0)%Z
  | PFloat f => float_bool f
  | PStr s => match s with [] => false | _ => true end
  | PList l => match l with [] => false | _ => true end
  | PDict d => match d with [] => false | _ => true end
  end.

(** [v[i]] for an index [i >= 0].  The keys of a decoded mapping are
    strings, so an integer is never one of them. *)
Definition getitem_index {RT : PyRuntime} (v : pyval) (i : nat) : run pyval :=
  match v with
  | PList l => match nth_error l i with Some x => Done x | None => Fails IndexError end
  | PStr s => match nth_error s i with Some c => Done (PStr [c]) | None => Fails IndexError end
  | PDict _ => Fails KeyError
  | _ => Fails TypeError
  end.

(** [v[key]] for a string [key]. *)
Definition getitem_key {RT : PyRuntime} (v : pyval) (key : str) : run pyval :=
  match v with
  | PDict d => match dict_get key d with Some x => Done x | None => Fails KeyError end
  | _ => Fails TypeError
  end.

(** [v.get(key, default)]: only a mapping has the method. *)
Definition get_method {RT : PyRuntime} (v : pyval) (key : str) (default : pyval)
  : run pyval :=
  match v with
  | PDict d => Done (match dict_get key d with Some x => x | None => default end)
  | _ => Fails AttributeError
  end.

(** [v[key] = x] for a string [key]; the result is [v] after the store. *)
Definition setitem_key {RT : PyRuntime} (v : pyval) (key : str) (x : pyval)
  : run pyval :=
  match v with
  | PDict d => Done (PDict (dict_set key x d))
  | _ => Fails TypeError
  end.

(** [v in names] for a list of string literals. *)
Definition among {RT : PyRuntime} (v : pyval) (names : list str) : bool :=
  match v with
  | PStr s => existsb (str_eqb s) names
  | _ => false
  end.

(** [_safe_json(content)] on whatever the response holds as its text: a
    value that is not a [str] has no [strip]. *)
Definition safe_json_call {RT : PyRuntime} (content : pyval) : run pyval :=
  match content with
  | PStr text =>
      match _safe_json text with
      | Returns v => Done v
      | Raises e => Fails (DecoderError e)
      | LoopBound => Loops
      end
  | _ => Fails AttributeError
  end.

(** ** [_analyze_openai], from the decoded response on *)

(** [resp.json()["choices"][0]["message"]["content"]]. *)
Definition openai_content {RT : PyRuntime} (data : pyval) : run pyval :=
  choices <~ getitem_key data (lit "choices") ;;
  choice <~ getitem_index choices 0 ;;
  message <~ getitem_key choice (lit "message") ;;
  getitem_key message (lit "content").

Definition _analyze_openai_result {RT : PyRuntime} (data : pyval) : run pyval :=
  content <~ openai_content data ;;
  safe_json_call content.

(** ** [_analyze_gemini], from the decoded response on *)

(** The first [try]: [finish_reason] stays [None] when the lookup raises
    [KeyError] or [IndexError]. *)
Definition gemini_finish_reason {RT : PyRuntime} (data : pyval) : run pyval :=
  except_lookup
    (candidates <~ get_method data (lit "candidates") (PList [PDict []]) ;;
     candidate <~ getitem_index candidates 0 ;;
     get_method candidate (lit "finishReason") (PStr []))
    (Done PNone).

(** [data["candidates"][0]["content"]["parts"][0]["text"]]. *)
Definition gemini_text {RT : PyRuntime} (data : pyval) : run pyval :=
  candidates <~ getitem_key data (lit "candidates") ;;
  candidate <~ getitem_index candidates 0 ;;
  content <~ getitem_key candidate (lit "content") ;;
  parts <~ getitem_key content (lit "parts") ;;
  part <~ getitem_index parts 0 ;;
  getitem_key part (lit "text").

Definition normal_finish : list str := [lit "STOP"; lit "END_TURN"; lit "FINISH"].

Definition key_warning : str := lit "_warning".
Definition key_error : str := lit "error".
Definition key_finish_reason : str := lit "finish_reason".

Definition warning_text {RT : PyRuntime} {PO : PyObject} (finish_reason : pyval) : str :=
  lit "Response may be incomplete (finishReason: " ++ py_str finish_reason ++ lit ")".

(** The mapping returned when the text cannot be extracted. *)
Definition gemini_fallback {RT : PyRuntime} {PO : PyObject}
           (data finish_reason : pyval) : pyval :=
  PDict [(key_raw_output, PStr (py_str data));
         (key_error, PStr (lit "Could not extract text from Gemini response"));
         (key_finish_reason, finish_reason)].

Definition _analyze_gemini_result {RT : PyRuntime} {PO : PyObject} (data : pyval)
  : run pyval :=
  finish_reason <~ gemini_finish_reason data ;;
  match gemini_text data with
  | Fails KeyError | Fails IndexError => Done (gemini_fallback data finish_reason)
  | Fails e => Fails e
  | Loops => Loops
  | Done text =>
      result <~ safe_json_call text ;;
      if truthy finish_reason && negb (among finish_reason normal_finish)
      then setitem_key result key_warning (PStr (warning_text finish_reason))
      else Done result
  end.

(** The shape of a Gemini response that carries a text: the first
    candidate's [content.parts[0].text], and its [finishReason] if any. *)
Definition gemini_response {RT : PyRuntime} (data text : pyval)
           (finish : option pyval) : Prop :=
  exists d candidate others content part parts,
    data = PDict d
    /\ dict_get (lit "candidates") d = Some (PList (PDict candidate :: others))
    /\ dict_get (lit "content") candidate = Some (PDict content)
    /\ dict_get (lit "parts") content = Some (PList (PDict part :: parts))
    /\ dict_get (lit "text") part = Some text
    /\ dict_get (lit "finishReason") candidate = finish.

(** The shape of an OpenAI response: the first choice's [message.content]. *)
Definition openai_response {RT : PyRuntime} (data content : pyval) : Prop :=
  exists d choice others message,
    data = PDict d
    /\ dict_get (lit "choices") d = Some (PList (PDict choice :: others))
    /\ dict_get (lit "message") choice = Some (PDict message)
    /\ dict_get (lit "content") message = Some content.

(** A value that is not a mapping. *)
Definition not_mapping {RT : PyRuntime} (v : pyval) : Prop :=
  match v with PDict _ => False | _ => True end.

(** A runtime to evaluate examples on: [str()] of a value that is not a
    string is taken to be its JSON text, and a float is true unless its
    literal is [0.0]. *)
#[export] Instance reference_object : @PyObject reference_runtime := {|
  object_repr := @json_dumps reference_runtime;
  float_bool := fun f => negb (str_eqb f (lit "0.0"))
|}.

(** ** [bytes] and the codecs [_decode_text] tries *)

Definition bytes := list Byte.byte.

Definition is_continuation (b : N) : bool := ((128 <=? b) && (b <=? 191))%N.

(** [bytes.decode('utf-8')] on the values of the bytes: [None] is
    [UnicodeDecodeError].  A sequence is accepted when it is the shortest
    encoding of a code point that is not a surrogate and not above
    U+10FFFF. *)
Fixpoint utf8_decode (bs : list N) : option str :=
  match bs with
  | [] => Some []
  | b0 :: r0 =>
      if (b0 <? 128)%N then option_map (cons b0) (utf8_decode r0)
      else if ((194 <=? b0) && (b0 <=? 223))%N then
        match r0 with
        | b1 :: r1 =>
            if is_continuation b1
            then option_map (cons ((b0 - 192) * 64 + (b1 - 128))%N) (utf8_decode r1)
            else None
        | _ => None
        end
      else if ((224 <=? b0) && (b0 <=? 239))%N then
        match r0 with
        | b1 :: b2 :: r2 =>
            let c := ((b0 - 224) * 4096 + (b1 - 128) * 64 + (b2 - 128))%N in
            if is_continuation b1 && is_continuation b2
               && (2048 <=? c)%N && negb ((55296 <=? c) && (c <=? 57343))%N
            then option_map (cons c) (utf8_decode r2)
            else None
        | _ => None
        end
      else if ((240 <=? b0) && (b0 <=? 244))%N then
        match r0 with
        | b1 :: b2 :: b3 :: r3 =>
            let c := ((b0 - 240) * 262144 + (b1 - 128) * 4096
                      + (b2 - 128) * 64 + (b3 - 128))%N in
            if is_continuation b1 && is_continuation b2 && is_continuation b3
               && (65536 <=? c)%N && (c <=? 1114111)%N
            then option_map (cons c) (utf8_decode r3)
            else None
        | _ => None
        end
      else None
  end.

(** The upper halves of the code pages; 0 marks a byte the code page leaves
    undefined. *)
Definition cp1251_high : list N :=
  [1026; 1027; 8218; 1107; 8222; 8230; 8224; 8225; 8364; 8240; 1033; 8249;
   1034; 1036; 1035; 1039; 1106; 8216; 8217; 8220; 8221; 8226; 8211; 8212;
   0; 8482; 1113; 8250; 1114; 1116; 1115; 1119; 160; 1038; 1118; 1032; 164;
   1168; 166; 167; 1025; 169; 1028; 171; 172; 173; 174; 1031; 176; 177;
   1030; 1110; 1169; 181; 182; 183; 1105; 8470; 1108; 187; 1112; 1029; 1109;
   1111; 1040; 1041; 1042; 1043; 1044; 1045; 1046; 1047; 1048; 1049; 1050;
   1051; 1052; 1053; 1054; 1055; 1056; 1057; 1058; 1059; 1060; 1061; 1062;
   1063; 1064; 1065; 1066; 1067; 1068; 1069; 1070; 1071; 1072; 1073; 1074;
   1075; 1076; 1077; 1078; 1079; 1080; 1081; 1082; 1083; 1084; 1085; 1086;
   1087; 1088; 1089; 1090; 1091; 1092; 1093; 1094; 1095; 1096; 1097; 1098;
   1099; 1100; 1101; 1102; 1103]%N.

Definition cp1252_high : list N :=
  [8364; 0; 8218; 402; 8222; 8230; 8224; 8225; 710; 8240; 352; 8249; 338; 0;
   381; 0; 0; 8216; 8217; 8220; 8221; 8226; 8211; 8212; 732; 8482; 353;
   8250; 339; 0; 382; 376; 160; 161; 162; 163; 164; 165; 166; 167; 168; 169;
   170; 171; 172; 173; 174; 175; 176; 177; 178; 179; 180; 181; 182; 183;
   184; 185; 186; 187; 188; 189; 190; 191; 192; 193; 194; 195; 196; 197;
   198; 199; 200; 201; 202; 203; 204; 205; 206; 207; 208; 209; 210; 211;
   212; 213; 214; 215; 216; 217; 218; 219; 220; 221; 222; 223; 224; 225;
   226; 227; 228; 229; 230; 231; 232; 233; 234; 235; 236; 237; 238; 239;
   240; 241; 242; 243; 244; 245; 246; 247; 248; 249; 250; 251; 252; 253;
   254; 255]%N.

(** One byte of a code page that agrees with ASCII below 128. *)
Definition page_char (high : list N) (b : N) : option char :=
  if (b <? 128)%N then Some b
  else match nth (N.to_nat (b - 128)) high 0%N with
       | 0%N => None
       | c => Some c
       end.

Fixpoint page_decode (high : list N) (bs : list N) : option str :=
  match bs with
  | [] => Some []
  | b :: bs' =>
      match page_char high b, page_decode high bs' with
      | Some c, Some s => Some (c :: s)
      | _, _ => None
      end
  end.

Inductive encoding : Type := utf_8 | cp1251 | cp1252 | latin_1 | iso_8859_1.

(** [content.decode(encoding)]; [latin-1] and [iso-8859-1] name the same
    codec, which maps every byte to the code point of its value. *)
Definition decode (e : encoding) (content : bytes) : option str :=
  let bs := map Byte.to_N content in
  match e with
  | utf_8 => utf8_decode bs
  | cp1251 => page_decode cp1251_high bs
  | cp1252 => page_decode cp1252_high bs
  | latin_1 | iso_8859_1 => Some bs
  end.

(** ** [_decode_text] and the text branch of [parse_reviews_file] *)

Definition encodings : list encoding := [utf_8; cp1251; cp1252; latin_1; iso_8859_1].

(** The [for encoding in encodings] loop: the first decoding that does not
    raise. *)
Fixpoint first_decoding (encs : list encoding) (content : bytes) : option str :=
  match encs with
  | [] => None
  | e :: encs' =>
      match decode e content with
      | Some text => Some text
      | None => first_decoding encs' content
      end
  end.

(** [last_resort] is [content.decode('utf-8', errors='ignore')]. *)
Definition _decode_text (last_resort : bytes -> str) (content : bytes) : str :=
  match first_decoding encodings content with
  | Some text => text
  | None => last_resort content
  end.

(** The characters [str.splitlines] breaks lines at. *)
Definition is_linebreak (c : char) : bool :=
  ((10 <=? c) && (c <=? 13) || (28 <=? c) && (c <=? 30)
   || (c =? 133) || (c =? 8232) || (c =? 8233))%N.

(** [s.splitlines()]: a carriage return directly before a line feed ends
    the line together with it, and a break at the end of [s] starts no
    further line. *)
Fixpoint splitlines (s : str) : list str :=
  match s with
  | [] => []
  | c :: s' =>
      if is_linebreak c then
        [] :: match s' with
              | c' :: s'' => if ((c =? 13) && (c' =? 10))%N then splitlines s''
                             else splitlines s'
              | [] => splitlines s'
              end
      else match splitlines s' with
           | [] => [[c]]
           | line :: lines => (c :: line) :: lines
           end
  end.

Definition key_review_text : str := lit "review_text".

Definition nonempty (s : str) : bool := match s with [] => false | _ => true end.

(** [[ln.strip() for ln in text.splitlines() if ln.strip()]]. *)
Definition review_lines (text : str) : list str :=
  map strip (filter (fun ln => nonempty (strip ln)) (splitlines text)).

(** The [.txt] branch of [parse_reviews_file]. *)
Definition parse_txt {RT : PyRuntime} (last_resort : bytes -> str) (content : bytes)
  : list pyval :=
  map (fun ln => PDict [(key_review_text, PStr ln)])
      (review_lines (_decode_text last_resort content)).

(** ** [analyze_reviews_with_llm]: the text of the reviews *)

(** The list comprehension: a review whose [review_text] is missing or
    false gives no line. *)
Fixpoint review_items {RT : PyRuntime} {PO : PyObject} (reviews : list pyval)
  : run (list str) :=
  match reviews with
  | [] => Done []
  | r :: reviews' =>
      cond <~ get_method r key_review_text PNone ;;
      if truthy cond then
        text <~ get_method r key_review_text (PStr []) ;;
        items <~ review_items reviews' ;;
        Done ((lit "- " ++ py_str text) :: items)
      else review_items reviews'
  end.

Definition joined_reviews {RT : PyRuntime} {PO : PyObject} (reviews : list pyval)
  : run str :=
  items <~ review_items reviews ;;
  Done (join [NL] items).

(** A review that is a mapping whose [review_text] is missing, false or a
    string: what the parsers build, and all that the f-string of the list
    comprehension formats without a call of [str()] that could raise. *)
Definition plain_review {RT : PyRuntime} {PO : PyObject} (r : pyval) : Prop :=
  match r with
  | PDict d =>
      match dict_get key_review_text d with
      | None | Some (PStr _) => True
      | Some v => truthy v = false
      end
  | _ => False
  end.

(** [str.encode('utf-8')] on one code point that is not a surrogate, as the
    values of the bytes. *)
Definition utf8_encode_char (c : char) : list N :=
  (if c <? 128 then [c]
   else if c <? 2048 then [192 + c / 64; 128 + c mod 64]
   else if c <? 65536 then [224 + c / 4096; 128 + (c / 64) mod 64; 128 + c mod 64]
   else [240 + c / 262144; 128 + (c / 4096) mod 64; 128 + (c / 64) mod 64;
         128 + c mod 64])%N.

Definition byte_of (n : N) : Byte.byte :=
  match Byte.of_N n with Some b => b | None => Byte.x00 end.

Definition utf8_encode (s : str) : bytes :=
  map byte_of (flat_map utf8_encode_char s).

(** A code point [str.encode('utf-8')] accepts. *)
Definition is_scalar (c : char) : bool :=
  ((c <=? 1114111) && negb ((55296 <=? c) && (c <=? 57343)))%N.

(** Every backtick of [c] comes after a double quote of the same line. *)
Definition backticks_quoted (c : str) : Prop :=
  forall p q, c = p ++ 96%N :: q ->
    exists a b, p = a ++ DQUOTE :: b /\ count NL b = 0.

(** [p] reads its value from a prefix of the text that satisfies [P]. *)
Definition consumes {A : Type} (P : str -> Prop) (p : str -> sres (A * str)) : Prop :=
  forall s x r, p s = SOk (x, r) -> exists c, s = c ++ r /\ P c.

(** The characters of a number literal. *)
Definition number_char (c : char) : bool :=
  (is_digit c || (c =? 45) || (c =? 43) || (c =? 46) || (c =? 101) || (c =? 69))%N.

(** The loop of [splitlines] with the line it is reading: [line] holds the
    characters read since the last break. *)
Fixpoint splitlines_from (line s : str) : list str :=
  match s with
  | [] => match line with [] => [] | _ => [line] end
  | c :: s' =>
      if is_linebreak c then
        line :: match s' with
                | c' :: s'' => if ((c =? 13) && (c' =? 10))%N
                               then splitlines_from [] s''
                               else splitlines_from [] s'
                | [] => splitlines_from [] s'
                end
      else splitlines_from (line ++ [c]) s'
  end.

(** The byte order mark, as UTF-8 writes it. *)
Definition utf8_bom : bytes := [Byte.xef; Byte.xbb; Byte.xbf].

(** * Properties *)

(** ** Facts about the [str] methods *)

Lemma isspace_ws c : is_ws c = true -> isspace c = true.
Proof.
  unfold is_ws, isspace. intros H.
  repeat (apply orb_true_iff in H; destruct H as [H|H]);
    apply N.eqb_eq in H; subst; reflexivity.
Qed.

Lemma count_app c a b : count c (a ++ b) = count c a + count c b.
Proof. induction a as [|x a IH]; simpl; [reflexivity|]. rewrite IH. lia. Qed.

Lemma count_lstrip c s : isspace c = false -> count c (lstrip s) = count c s.
Proof.
  intros Hc. induction s as [|x s IH]; simpl; [reflexivity|].
  destruct (isspace x) eqn:Hx; simpl; [|reflexivity].
  rewrite IH. destruct (N.eqb_spec x c); [congruence|reflexivity].
Qed.

Lemma count_rstrip c s : isspace c = false -> count c (rstrip s) = count c s.
Proof.
  intros Hc. induction s as [|x s IH]; simpl; [reflexivity|].
  destruct (rstrip s) as [|y r] eqn:Hr.
  - simpl in IH. rewrite <- IH.
    destruct (isspace x) eqn:Hx; simpl.
    + destruct (N.eqb_spec x c); [congruence|reflexivity].
    + lia.
  - rewrite <- IH. reflexivity.
Qed.

Lemma count_strip c s : isspace c = false -> count c (strip s) = count c s.
Proof.
  intros Hc. unfold strip. rewrite count_rstrip, count_lstrip; auto.
Qed.

Lemma unbalanced_strip s : unbalanced (strip s) = unbalanced s.
Proof. unfold unbalanced. rewrite !count_strip; reflexivity. Qed.

Lemma rstrip_cons c s : isspace c = false -> rstrip (c :: s) = c :: rstrip s.
Proof. intros H. simpl. rewrite H. destruct (rstrip s); reflexivity. Qed.

Lemma lstrip_nonspace c s : isspace c = false -> lstrip (c :: s) = c :: s.
Proof. intros H. simpl. rewrite H. reflexivity. Qed.

Lemma rstrip_app a b :
  a <> [] -> isspace (last a 0%N) = false -> rstrip (a ++ b) = a ++ rstrip b.
Proof.
  induction a as [|x a IH]; [congruence|]. intros _ Hl.
  destruct a as [|y a].
  - simpl in Hl. apply rstrip_cons; exact Hl.
  - change ((x :: y :: a) ++ b) with (x :: (y :: a) ++ b).
    cbn [rstrip]. rewrite IH; [reflexivity|discriminate|exact Hl].
Qed.

Lemma rstrip_all_space s : forallb isspace s = true -> rstrip s = [].
Proof.
  induction s as [|x s IH]; simpl; [reflexivity|].
  intros H. apply andb_true_iff in H. destruct H as [Hx Hs].
  rewrite (IH Hs), Hx. reflexivity.
Qed.

Lemma rstrip_idem s : rstrip (rstrip s) = rstrip s.
Proof.
  induction s as [|x s IH]; simpl; [reflexivity|].
  destruct (rstrip s) as [|y r] eqn:Hr.
  - destruct (isspace x) eqn:Hx; simpl; [reflexivity|]. rewrite Hx. reflexivity.
  - cbn [rstrip]. cbn [rstrip] in IH. rewrite IH. reflexivity.
Qed.

(** ** The scan of [_try_fix_json] *)

Lemma lex_nil_inv a b : lex [] a b -> a = false /\ b = false.
Proof.
  intros H. remember [] as q eqn:E. destruct H; auto;
    exfalso; symmetry in E; eapply app_cons_not_nil; exact E.
Qed.

Lemma lex_snoc_inv p c a b :
  lex (p ++ [c]) a b ->
  (lex p a true /\ b = false)
  \/ (c = BACKSLASH /\ lex p a false /\ b = true)
  \/ (c = DQUOTE /\ (exists i, lex p i false /\ a = negb i) /\ b = false)
  \/ (c <> BACKSLASH /\ c <> DQUOTE /\ lex p a false /\ b = false).
Proof.
  intros H. remember (p ++ [c]) as q eqn:E. revert p c E. destruct H; intros p' c' E.
  - exfalso. eapply app_cons_not_nil. exact E.
  - apply app_inj_tail in E. destruct E as [<- <-]. auto.
  - apply app_inj_tail in E. destruct E as [<- <-]. auto.
  - apply app_inj_tail in E. destruct E as [<- <-]. right. right. left. eauto.
  - apply app_inj_tail in E. destruct E as [<- <-]. right. right. right. auto.
Qed.

Lemma lex_fun p : forall a b a' b', lex p a b -> lex p a' b' -> a = a' /\ b = b'.
Proof.
  induction p as [|x p IH] using rev_ind; intros a b a' b' H1 H2.
  - apply lex_nil_inv in H1, H2. destruct H1, H2. subst. auto.
  - apply lex_snoc_inv in H1, H2.
    destruct H1 as [[L1 ->]|[(-> & L1 & ->)|[(-> & (i1 & L1 & ->) & ->)|(N1 & N1' & L1 & ->)]]];
    destruct H2 as [[L2 ->]|[(E2 & L2 & ->)|[(E2 & (i2 & L2 & ->) & ->)|(N2 & N2' & L2 & ->)]]];
    try congruence;
    destruct (IH _ _ _ _ L1 L2) as [Ha Hb]; try discriminate; subst; auto.
Qed.

Lemma clean_boundary_at p c suffix :
  clean_boundary (p ++ c :: suffix) (length p + 1)
  <-> is_boundary c = true /\ lex p false false.
Proof.
  split.
  - intros (i & c' & Hi & Hn & Hb & Hl).
    assert (i = length p) by lia. subst i.
    rewrite nth_error_app2 in Hn by lia. rewrite Nat.sub_diag in Hn.
    simpl in Hn. injection Hn as <-.
    rewrite firstn_app, Nat.sub_diag, firstn_all, app_nil_r in Hl. auto.
  - intros [Hb Hl]. exists (length p), c. repeat split; auto.
    + rewrite nth_error_app2 by lia. rewrite Nat.sub_diag. reflexivity.
    + rewrite firstn_app, Nat.sub_diag, firstn_all, app_nil_r. exact Hl.
Qed.

Lemma last_boundary_skip p c suffix pos :
  last_boundary (p ++ c :: suffix) (length p) pos ->
  ~ (is_boundary c = true /\ lex p false false) ->
  last_boundary (p ++ c :: suffix) (S (length p)) pos.
Proof.
  intros [H1 H2] Hno. split.
  - destruct H1 as [H1|[H1 H1']]; [left; exact H1|right; split; [exact H1|lia]].
  - intros q Hq Hle. destruct (Nat.eq_dec q (length p + 1)) as [->|Hne].
    + exfalso. apply Hno. apply (clean_boundary_at p c suffix). exact Hq.
    + apply H2; [exact Hq|lia].
Qed.

Lemma last_boundary_hit p c suffix :
  is_boundary c = true -> lex p false false ->
  last_boundary (p ++ c :: suffix) (S (length p)) (length p + 1).
Proof.
  intros Hb Hl. split.
  - right. split; [|lia]. apply clean_boundary_at. auto.
  - intros q _ Hle. lia.
Qed.

Lemma string_scan_spec suffix : forall p ins esc pos ins' pos',
  lex p ins esc ->
  last_boundary (p ++ suffix) (length p) pos ->
  string_scan suffix (length p) ins esc pos = (ins', pos') ->
  (exists esc', lex (p ++ suffix) ins' esc')
  /\ last_boundary (p ++ suffix) (length (p ++ suffix)) pos'.
Proof.
  induction suffix as [|c suffix IH]; intros p ins esc pos ins' pos' Hl Hb Hs.
  - simpl in Hs. injection Hs as <- <-. rewrite app_nil_r in *.
    split; [exists esc; exact Hl|exact Hb].
  - assert (Hlen : length (p ++ [c]) = S (length p))
      by (rewrite length_app; simpl; lia).
    assert (Happ : p ++ c :: suffix = (p ++ [c]) ++ suffix)
      by (rewrite <- app_assoc; reflexivity).
    simpl in Hs. destruct esc.
    + rewrite Happ. rewrite <- Hlen in Hs. eapply IH; [| |exact Hs].
      * apply lex_escaped. exact Hl.
      * rewrite <- Happ, Hlen. apply last_boundary_skip; [exact Hb|].
        intros [_ Hl']. destruct (lex_fun _ _ _ _ _ Hl Hl'). discriminate.
    + destruct (N.eqb_spec c BACKSLASH) as [->|Hbs].
      * rewrite Happ. rewrite <- Hlen in Hs. eapply IH; [| |exact Hs].
        -- apply lex_backslash. exact Hl.
        -- rewrite <- Happ, Hlen. apply last_boundary_skip; [exact Hb|].
           intros [Hc _]. discriminate.
      * destruct (N.eqb_spec c DQUOTE) as [->|Hdq].
        -- replace (negb (negb ins) && is_boundary DQUOTE) with false in Hs
             by (rewrite andb_false_r; reflexivity).
           rewrite Happ. rewrite <- Hlen in Hs. eapply IH; [| |exact Hs].
           ++ apply lex_quote. exact Hl.
           ++ rewrite <- Happ, Hlen. apply last_boundary_skip; [exact Hb|].
              intros [Hc _]. discriminate.
        -- rewrite Happ. rewrite <- Hlen in Hs. eapply IH; [| |exact Hs].
           ++ apply lex_plain; assumption.
           ++ rewrite <- Happ, Hlen.
              destruct ins; simpl.
              ** apply last_boundary_skip; [exact Hb|].
                 intros [_ Hl']. destruct (lex_fun _ _ _ _ _ Hl Hl'). discriminate.
              ** destruct (is_boundary c) eqn:Hc.
                 --- apply last_boundary_hit; assumption.
                 --- apply last_boundary_skip; [exact Hb|].
                     intros [Hc' _]. congruence.
Qed.

Lemma last_default {A : Type} (x : A) l d d' :
  last (x :: l) d = last (x :: l) d'.
Proof.
  revert x. induction l as [|y l IH]; intros x; [reflexivity|].
  change (last (y :: l) d = last (y :: l) d'). apply IH.
Qed.

Lemma rstrip_char_spec c s :
  exists body n, s = body ++ repeat c n /\ rstrip_char c s = body
                 /\ last body (c + 1)%N <> c.
Proof.
  induction s as [|x s (body & n & Hs & Hr & Hl)].
  - exists [], 0. simpl. repeat split; auto. lia.
  - simpl. rewrite Hr. destruct body as [|y body].
    + destruct (N.eqb_spec x c) as [->|Hx].
      * exists [], (S n). simpl in *. subst s. repeat split; auto.
      * exists [x], n. simpl in *. subst s. repeat split; auto.
    + exists (x :: y :: body), n. subst s. repeat split; auto.
Qed.

Lemma clean_boundary_le text q : clean_boundary text q -> q <= length text.
Proof.
  intros (i & c & -> & Hn & _).
  assert (i < length text) by (apply nth_error_Some; congruence). lia.
Qed.

Lemma clean_boundary_pos text q : clean_boundary text q -> 0 < q.
Proof. intros (i & c & -> & _). lia. Qed.

(** C2.  When repair is attempted (the text is not empty and an opener
    outnumbers its closer), the candidate is the stripped text, cut at the
    last clean boundary if the scan ends inside a string literal and a
    boundary was recorded, with its trailing commas removed and then
    exactly open-bracket-count minus close-bracket-count [']'] followed by
    exactly open-brace-count minus close-brace-count ['}'], both counted on
    the cut text (none where the closers are not outnumbered). *)
Theorem try_fix_json_candidate (text : str) :
  text <> [] -> unbalanced text = true ->
  exists candidate, _try_fix_json text = Some candidate
                    /\ candidate_of text candidate.
Proof.
  intros Hne Hun. unfold _try_fix_json.
  destruct text as [|x text]; [congruence|].
  rewrite unbalanced_strip, Hun. eexists. split; [reflexivity|].
  set (t := strip (x :: text)).
  unfold truncate_text.
  destruct (string_scan t 0 false false 0) as [ins pos] eqn:Hscan.
  destruct (string_scan_spec t [] false false 0 ins pos lex_nil) as [[esc Hlex] [Hb Hmax]].
  { split; [left; reflexivity|]. intros q Hq Hle. simpl in Hle. lia. }
  { exact Hscan. }
  simpl in Hlex, Hb, Hmax.
  match goal with |- context [rstrip_char _ ?c] => set (cut := c) end.
  destruct (rstrip_char_spec (ch ",") cut) as (body & commas & Hcut & Hr & Hl).
  exists cut, body, commas. split; [|split; [exact Hcut|split]].
  - subst cut. destruct ins; simpl.
    + destruct (Nat.ltb_spec 0 pos) as [Hp|Hp].
      * left. exists esc, pos. destruct Hb as [Hb|[Hb _]]; [lia|].
        repeat split; auto.
        intros q Hq. apply Hmax; [exact Hq|apply clean_boundary_le; exact Hq].
      * right. split; [|reflexivity]. right. intros q Hq.
        pose proof (clean_boundary_pos _ _ Hq).
        pose proof (Hmax q Hq (clean_boundary_le _ _ Hq)). lia.
    + right. split; [|reflexivity]. left. intros esc' Hl'.
      destruct (lex_fun _ _ _ _ _ Hlex Hl'). discriminate.
  - destruct body as [|b body]; [discriminate|].
    rewrite (last_default b body 0%N (ch "," + 1)%N). exact Hl.
  - rewrite Hr. unfold str_mul. f_equal. f_equal; f_equal; lia.
Qed.

Lemma try_fix_json_candidate_witness :
  exists candidate, _try_fix_json truncated_input = Some candidate
                    /\ candidate_of truncated_input candidate.
Proof.
  apply (try_fix_json_candidate truncated_input); [discriminate|reflexivity].
Defined.

(** ** Counting delimiters *)

Lemma count_split c text : forall ins esc,
  count c text = count_outside c text ins esc + count_in_string c text ins esc.
Proof.
  induction text as [|x text IH]; intros ins esc; [reflexivity|].
  cbn [count count_outside count_in_string].
  destruct esc; [rewrite (IH ins false)|destruct (x =? BACKSLASH)%N;
    [rewrite (IH ins true)
    |rewrite (IH (if (x =? DQUOTE)%N then negb ins else ins) false)]];
    destruct ins, (x =? c)%N; simpl; lia.
Qed.

Lemma try_fix_json_none text :
  _try_fix_json text = None <-> text = [] \/ unbalanced text = false.
Proof.
  unfold _try_fix_json. destruct text as [|x text].
  - split; auto.
  - rewrite unbalanced_strip. destruct (unbalanced (x :: text)).
    + split; [discriminate|]. intros [H|H]; discriminate.
    + split; auto.
Qed.

(** C10.  The counts of [_try_fix_json] are counts of all occurrences, those
    inside string literals included, in the unbalance test and in the final
    computation alike.  Repair is attempted exactly when an opener
    outnumbers its closer in these counts.  Every candidate is the possibly
    truncated text without its trailing commas, followed by as many [']'] as
    the open-brackets inside and outside strings outnumber the
    close-brackets inside and outside strings, then by as many ['}'] as the
    open-braces inside and outside strings outnumber the close-braces inside
    and outside strings.  So on a text whose delimiters are balanced outside
    strings, with one open-brace inside a string, the repair path is taken
    and appends a close-brace for it; and likewise a close-bracket for one
    open-bracket inside a string. *)
Theorem counts_include_strings :
  (forall c text,
      count c text
      = count_outside c text false false + count_in_string c text false false)
  /\ (forall text,
         _try_fix_json text <> None <->
         text <> []
         /\ (count (ch "}") text < count (ch "{") text
             \/ count (ch "]") text < count (ch "[") text))
  /\ (exists text,
         count_outside (ch "{") text false false
         = count_outside (ch "}") text false false
         /\ count_outside (ch "[") text false false
            = count_outside (ch "]") text false false
         /\ count_in_string (ch "{") text false false = 1
         /\ count_in_string (ch "}") text false false = 0
         /\ _try_fix_json text = Some (text ++ [ch "}"]))
  /\ (forall text fixed,
         _try_fix_json text = Some fixed ->
         exists cut,
           cut = truncate_text (strip text)
           /\ fixed
              = rstrip_char (ch ",") cut
                ++ repeat (ch "]")
                     ((count_outside (ch "[") cut false false
                       + count_in_string (ch "[") cut false false)
                      - (count_outside (ch "]") cut false false
                         + count_in_string (ch "]") cut false false))
                ++ repeat (ch "}")
                     ((count_outside (ch "{") cut false false
                       + count_in_string (ch "{") cut false false)
                      - (count_outside (ch "}") cut false false
                         + count_in_string (ch "}") cut false false)))
  /\ (exists text,
         count_outside (ch "{") text false false
         = count_outside (ch "}") text false false
         /\ count_outside (ch "[") text false false
            = count_outside (ch "]") text false false
         /\ count_in_string (ch "[") text false false = 1
         /\ count_in_string (ch "]") text false false = 0
         /\ _try_fix_json text = Some (text ++ [ch "]"])).
Proof.
  split; [|split; [|split; [|split]]].
  - intros c text. apply count_split.
  - intros text. rewrite try_fix_json_none. unfold unbalanced.
    destruct text as [|x text].
    + split; [intros H; exfalso; apply H; auto|intros [H _]; congruence].
    + split.
      * intros H. split; [discriminate|].
        destruct (Nat.ltb_spec (count (ch "}") (x :: text)) (count (ch "{") (x :: text)));
          [left; assumption|].
        destruct (Nat.ltb_spec (count (ch "]") (x :: text)) (count (ch "[") (x :: text)));
          [right; assumption|].
        exfalso. apply H. right. reflexivity.
      * intros [_ H] [E|E]; [discriminate|].
        apply orb_false_iff in E. destruct E as [E1 E2].
        apply Nat.ltb_ge in E1, E2. lia.
  - exists (py "{'a': '{'}x"). vm_compute. repeat split; reflexivity.
  - intros text fixed H. unfold _try_fix_json in H.
    destruct text as [|x text]; [discriminate|].
    destruct (unbalanced (strip (x :: text))); [|discriminate].
    injection H as <-. eexists. split; [reflexivity|].
    rewrite <- !count_split. unfold str_mul.
    f_equal. f_equal; f_equal;
      change (ch "[") with 91%N; change (ch "]") with 93%N;
      change (ch "{") with 123%N; change (ch "}") with 125%N; lia.
  - exists (py "{'a': '['}"). vm_compute. repeat split; reflexivity.
Qed.

Lemma counts_include_strings_witness :
  exists cut,
    cut = truncate_text (strip (py "{'a': '[', 'b': 'inc"))
    /\ py "{'a': '[']}"
       = rstrip_char (ch ",") cut
         ++ repeat (ch "]")
              ((count_outside (ch "[") cut false false
                + count_in_string (ch "[") cut false false)
               - (count_outside (ch "]") cut false false
                  + count_in_string (ch "]") cut false false))
         ++ repeat (ch "}")
              ((count_outside (ch "{") cut false false
                + count_in_string (ch "{") cut false false)
               - (count_outside (ch "}") cut false false
                  + count_in_string (ch "}") cut false false)).
Proof.
  apply (proj1 (proj2 (proj2 (proj2 counts_include_strings)))
           (py "{'a': '[', 'b': 'inc")).
  reflexivity.
Defined.

(** ** The code fence *)

Lemma startswith_app p s : startswith p (p ++ s) = true.
Proof. induction p as [|x p IH]; simpl; [reflexivity|]. rewrite N.eqb_refl. exact IH. Qed.

Lemma startswith_inv p s : startswith p s = true -> exists r, s = p ++ r.
Proof.
  revert s. induction p as [|x p IH]; intros s H; [exists s; reflexivity|].
  destruct s as [|c s]; [discriminate|]. simpl in H.
  apply andb_true_iff in H. destruct H as [Hc H].
  apply N.eqb_eq in Hc. subst c. destruct (IH _ H) as [r ->]. exists r. reflexivity.
Qed.

Lemma str_eqb_eq a b : str_eqb a b = true <-> a = b.
Proof. unfold str_eqb. destruct (list_eq_dec N.eq_dec a b); split; congruence. Qed.

Lemma str_eqb_refl a : str_eqb a a = true.
Proof. apply str_eqb_eq. reflexivity. Qed.

Lemma split_cons sep s : exists l ls, split sep s = l :: ls.
Proof.
  induction s as [|x s (l & ls & IH)]; simpl; [eauto|].
  destruct (x =? sep)%N; [eauto|]. rewrite IH. eauto.
Qed.

Lemma split_app sep a b :
  split sep (a ++ sep :: b) = split sep a ++ split sep b.
Proof.
  induction a as [|x a IH]; simpl.
  - rewrite N.eqb_refl. reflexivity.
  - destruct (x =? sep)%N; [rewrite IH; reflexivity|].
    rewrite IH. destruct (split_cons sep a) as (l & ls & ->). reflexivity.
Qed.

Lemma split_no_sep sep a : count sep a = 0 -> split sep a = [a].
Proof.
  induction a as [|x a IH]; simpl; [reflexivity|].
  destruct (x =? sep)%N; [discriminate|]. intros H. rewrite IH by exact H. reflexivity.
Qed.

Lemma join_split sep s : join [sep] (split sep s) = s.
Proof.
  induction s as [|x s IH]; simpl; [reflexivity|].
  destruct (N.eqb_spec x sep) as [->|Hx].
  - destruct (split_cons sep s) as (l & ls & E). rewrite E in *.
    change (join [sep] ([] :: l :: ls)) with ([] ++ [sep] ++ join [sep] (l :: ls)).
    rewrite IH. reflexivity.
  - destruct (split_cons sep s) as (l & ls & E). rewrite E in *.
    destruct ls as [|l' ls]; simpl in *; rewrite IH; reflexivity.
Qed.

Lemma split_first_startswith p sep s l ls :
  count sep p = 0 -> startswith p s = true -> split sep s = l :: ls ->
  startswith p l = true.
Proof.
  revert s l ls. induction p as [|x p IH]; intros s l ls Hc Hs Hl; [reflexivity|].
  destruct s as [|c s]; [discriminate|]. simpl in Hs, Hc.
  apply andb_true_iff in Hs. destruct Hs as [Hx Hs].
  apply N.eqb_eq in Hx. subst c.
  destruct (x =? sep)%N eqn:E; [discriminate|].
  simpl in Hl. rewrite E in Hl.
  destruct (split_cons sep s) as (l0 & ls0 & E0). rewrite E0 in Hl.
  injection Hl as <- <-. simpl. rewrite N.eqb_refl. simpl.
  eapply IH; eauto.
Qed.

Lemma strip_startswith_fence l :
  startswith FENCE l = true -> startswith FENCE (strip l) = true.
Proof.
  intros H. apply startswith_inv in H. destruct H as [r ->].
  unfold strip. change (FENCE ++ r) with (96 :: 96 :: 96 :: r)%N.
  rewrite lstrip_nonspace by reflexivity.
  rewrite !rstrip_cons by reflexivity. reflexivity.
Qed.

(** Inside the fence the loop keeps every line up to the first line that is
    a closing marker once stripped. *)
Lemma fence_loop_open lines : forall acc,
  forallb (fun line => negb (str_eqb (strip line) FENCE)) lines = true ->
  fence_loop lines true acc = acc ++ lines.
Proof.
  induction lines as [|line lines IH]; intros acc H; simpl.
  - rewrite app_nil_r. reflexivity.
  - simpl in H. apply andb_true_iff in H. destruct H as [Hl H].
    rewrite andb_false_r. apply negb_true_iff in Hl. rewrite Hl.
    rewrite IH by exact H. rewrite <- app_assoc. reflexivity.
Qed.

Lemma fence_loop_close lines : forall acc rest,
  forallb (fun line => negb (str_eqb (strip line) FENCE)) lines = true ->
  fence_loop (lines ++ FENCE :: rest) true acc = acc ++ lines.
Proof.
  induction lines as [|line lines IH]; intros acc rest H; simpl.
  - rewrite app_nil_r. reflexivity.
  - simpl in H. apply andb_true_iff in H. destruct H as [Hl H].
    rewrite andb_false_r. apply negb_true_iff in Hl. rewrite Hl.
    rewrite IH by exact H. rewrite <- app_assoc. reflexivity.
Qed.

(** C9.  When the trimmed input begins with a fence marker and no later
    line is, once stripped, a closing marker, the de-fenced payload is every
    line after the opening marker line, joined again by newlines. *)
Theorem unclosed_fence (text : str) :
  startswith FENCE (strip text) = true ->
  forallb (fun line => negb (str_eqb (strip line) FENCE))
          (tl (split NL (strip text))) = true ->
  defence text = join [NL] (tl (split NL (strip text))).
Proof.
  intros Hf Hno. unfold defence. rewrite Hf.
  destruct (split_cons NL (strip text)) as (l & ls & E). rewrite E in *.
  simpl in Hno. cbn [fence_loop tl].
  rewrite (strip_startswith_fence l).
  - simpl. rewrite fence_loop_open by exact Hno. reflexivity.
  - eapply split_first_startswith; [|exact Hf|exact E]. reflexivity.
Qed.

Lemma unclosed_fence_witness :
  defence (FENCE ++ lit "json" ++ [NL] ++ truncated_input)
  = truncated_input.
Proof.
  apply (unclosed_fence (FENCE ++ lit "json" ++ [NL] ++ truncated_input));
    reflexivity.
Defined.

(** ** The decoder on the scenarios of the specification *)

Lemma safe_json_unfold {RT : PyRuntime} text :
  _safe_json text = decode_or_repair (defence text).
Proof. reflexivity. Qed.

(** Evaluate a closed call whose only unknown is the recursion limit, known
    to be at least some numeral: [scan_once] unfolds once its depth shows a
    constructor, so the depth left for the innermost values is split into
    zero and successor. *)
Ltac split_all := repeat match goal with |- _ /\ _ => split end.

Ltac run_with_limit H :=
  cbv beta delta [_safe_json decode_or_repair json_loads];
  let n := fresh "limit" in
  remember recursion_limit as n;
  repeat (destruct n as [|n]; [exfalso; clear - H; lia|]);
  destruct n; vm_compute; split_all; reflexivity.

(** C8.  On the one-character input of an open-brace, strict decoding
    fails, the repair appends one close-brace, the candidate decodes, and
    the decoder returns the empty mapping: no diagnostic keys.  (The
    recursion limit must leave room for one container.) *)
Theorem lone_open_brace {RT : PyRuntime} :
  1 <= recursion_limit ->
  json_loads (py "{") = Raises (JSONDecodeError msg_name (py "{") 1)
  /\ _try_fix_json (py "{") = Some (py "{}")
  /\ _safe_json (py "{") = Returns (PDict [])
  /\ has_key key_raw_output (PDict []) = false
  /\ has_key key_parse_error (PDict []) = false.
Proof.
  intros H. split_all; run_with_limit H.
Qed.

Lemma lone_open_brace_witness :
  @_safe_json reference_runtime (py "{") = Returns (PDict []).
Proof.
  apply (@lone_open_brace reference_runtime). simpl. lia.
Defined.

(** C1 as the specification words it does not hold: the input has one
    open-bracket and it is matched, so the counts of the repair leave no
    open-bracket unmatched, and the repair appends a close-brace only. *)
Lemma truncated_input_brackets_matched :
  ~ (count (ch "{") truncated_input = count (ch "}") truncated_input + 1
     /\ count (ch "[") truncated_input = count (ch "]") truncated_input + 1
     /\ @_safe_json reference_runtime truncated_input = Returns truncated_result).
Proof. intros (_ & H & _). vm_compute in H. discriminate. Qed.

(** C1, amended.  The input [truncated_input] has no
    fence, ends inside a string literal, has one unmatched open-brace and
    its one open-bracket matched; strict decoding fails; the repair cuts the
    text after the last comma outside a string, drops that comma and appends
    one close-brace; and the decoder returns the mapping whose key [a] maps
    to [[1, 2, 3]], without the keys [b], [raw_output] and [parse_error].
    (The recursion limit must leave room for two nested containers.) *)
Theorem truncated_input_decoded {RT : PyRuntime} :
  2 <= recursion_limit ->
  defence truncated_input = truncated_input
  /\ string_scan truncated_input 0 false false 0 = (true, 16)
  /\ count (ch "{") truncated_input = count (ch "}") truncated_input + 1
  /\ count (ch "[") truncated_input = count (ch "]") truncated_input
  /\ json_loads truncated_input
     = Raises (JSONDecodeError msg_unterminated truncated_input 22)
  /\ _try_fix_json truncated_input = Some (py "{'a': [1, 2, 3]}")
  /\ _safe_json truncated_input = Returns truncated_result
  /\ has_key (py "b") truncated_result = false
  /\ has_key key_raw_output truncated_result = false
  /\ has_key key_parse_error truncated_result = false.
Proof.
  intros H. split_all; run_with_limit H.
Qed.

Lemma truncated_input_decoded_witness :
  @_safe_json reference_runtime truncated_input = Returns truncated_result.
Proof.
  apply (@truncated_input_decoded reference_runtime). simpl. lia.
Defined.



(** ** A fenced response *)

Lemma rstrip_trailer trailer :
  match trailer with [] => true | c :: _ => (c =? NL)%N end = true ->
  match rstrip trailer with [] => true | c :: _ => (c =? NL)%N end = true.
Proof.
  destruct trailer as [|c trailer]; [reflexivity|]. intros H.
  apply N.eqb_eq in H. subst c. cbn [rstrip].
  destruct (rstrip trailer); reflexivity.
Qed.

Lemma split_fence_trailer t :
  match t with [] => true | c :: _ => (c =? NL)%N end = true ->
  exists rest, split NL (FENCE ++ t) = FENCE :: rest.
Proof.
  destruct t as [|c t]; intros H.
  - exists []. reflexivity.
  - apply N.eqb_eq in H. subst c. exists (split NL t).
    rewrite split_app. reflexivity.
Qed.

Lemma defence_fenced tag content trailer :
  count NL tag = 0 ->
  match trailer with [] => true | c :: _ => (c =? NL)%N end = true ->
  forallb (fun line => negb (str_eqb (strip line) FENCE)) (split NL content) = true ->
  defence (fenced tag content trailer) = content.
Proof.
  intros Htag Htr Hin. unfold defence, fenced.
  assert (Hstrip : strip (FENCE ++ tag ++ [NL] ++ content ++ [NL] ++ FENCE ++ trailer)
                   = FENCE ++ tag ++ [NL] ++ content ++ [NL] ++ FENCE ++ rstrip trailer).
  { unfold strip. change (FENCE ++ tag ++ [NL] ++ content ++ [NL] ++ FENCE ++ trailer)
      with (96%N :: ([96; 96]%N ++ tag ++ [NL] ++ content ++ [NL] ++ FENCE ++ trailer)).
    rewrite lstrip_nonspace by reflexivity.
    change (96%N :: ([96; 96]%N ++ tag ++ [NL] ++ content ++ [NL] ++ FENCE ++ trailer))
      with (FENCE ++ tag ++ [NL] ++ content ++ [NL] ++ FENCE ++ trailer).
    replace (FENCE ++ tag ++ [NL] ++ content ++ [NL] ++ FENCE ++ trailer)
      with ((FENCE ++ tag ++ [NL] ++ content ++ [NL] ++ FENCE) ++ trailer)
      by (rewrite <- !app_assoc; reflexivity).
    rewrite rstrip_app.
    - rewrite <- !app_assoc. reflexivity.
    - intros E. apply (f_equal (@length _)) in E. simpl in E. discriminate.
    - replace (FENCE ++ tag ++ [NL] ++ content ++ [NL] ++ FENCE)
        with ((FENCE ++ tag ++ [NL] ++ content ++ [NL] ++ [96; 96]%N) ++ [96%N])
        by (rewrite <- !app_assoc; reflexivity).
      rewrite last_last. reflexivity. }
  rewrite Hstrip. rewrite startswith_app.
  destruct (split_fence_trailer _ (rstrip_trailer _ Htr)) as [rest Hrest].
  replace (FENCE ++ tag ++ [NL] ++ content ++ [NL] ++ FENCE ++ rstrip trailer)
    with ((FENCE ++ tag) ++ NL :: (content ++ NL :: (FENCE ++ rstrip trailer)))
    by (rewrite <- !app_assoc; reflexivity).
  rewrite !split_app, Hrest.
  rewrite split_no_sep by (rewrite count_app, Htag; reflexivity).
  cbn [app fence_loop].
  rewrite (strip_startswith_fence (FENCE ++ tag)) by apply startswith_app.
  cbn [negb andb].
  rewrite fence_loop_close by exact Hin.
  apply join_split.
Qed.

(** C5 as the specification words it does not hold: the fence keeps the
    blank that starts the content, the bare decoder strips it, and the two
    diagnostic mappings differ. *)
Lemma fenced_blank_content_differs :
  @_safe_json reference_runtime (fenced [] (py " x") [])
  <> @_safe_json reference_runtime (py " x").
Proof. vm_compute. discriminate. Qed.

(** Two more contents the fence changes: one with a line that is a closing
    marker, one that is itself fenced. *)
Example fenced_marker_line_differs :
  @_safe_json reference_runtime (fenced [] (py "1" ++ [NL] ++ FENCE ++ [NL] ++ py "2") [])
  <> @_safe_json reference_runtime (py "1" ++ [NL] ++ FENCE ++ [NL] ++ py "2").
Proof. vm_compute. discriminate. Qed.

Example fenced_fenced_differs :
  @_safe_json reference_runtime (fenced [] (fenced [] (py "1") []) [])
  <> @_safe_json reference_runtime (fenced [] (py "1") []).
Proof. vm_compute. discriminate. Qed.

(** C5, amended.  For a content string without leading or trailing
    whitespace, that does not begin with a fence marker and has no line
    that is a closing marker once stripped: the decoder on the content
    wrapped in a fence (a marker line with any tag, the content, a closing
    marker line, then nothing or further lines of commentary) returns what
    it returns on the content alone; the commentary plays no part. *)
Theorem fenced_decodes_as_content {RT : PyRuntime} (tag content trailer : str) :
  count NL tag = 0 ->
  match trailer with [] => true | c :: _ => (c =? NL)%N end = true ->
  forallb (fun line => negb (str_eqb (strip line) FENCE)) (split NL content) = true ->
  strip content = content ->
  startswith FENCE content = false ->
  _safe_json (fenced tag content trailer) = _safe_json content
  /\ defence (fenced tag content trailer) = content.
Proof.
  intros Htag Htr Hin Hs Hf.
  pose proof (defence_fenced tag content trailer Htag Htr Hin) as Hd.
  split; [|exact Hd].
  unfold _safe_json. rewrite Hd. unfold defence. rewrite Hs, Hf. reflexivity.
Qed.

Lemma fenced_decodes_as_content_witness :
  @_safe_json reference_runtime
     (fenced (lit "json") truncated_input (NL :: lit "Hope this helps!"))
  = @_safe_json reference_runtime truncated_input.
Proof.
  apply (@fenced_decodes_as_content reference_runtime
           (lit "json") truncated_input (NL :: lit "Hope this helps!"));
    reflexivity.
Defined.

(** ** Decimal digits *)

Lemma nat_of_digits_acc u : forall p,
  fold_left (fun acc c => acc * 10 + (c - 48))%N (chars_of_uint u) (Npos p)
  = Npos (Pos.of_uint_acc u p).
Proof.
  induction u; intros p; cbn [chars_of_uint fold_left Pos.of_uint_acc];
    try reflexivity; rewrite <- IHu; f_equal; lia.
Qed.

Lemma nat_of_digits_uint u : nat_of_digits (chars_of_uint u) = N.of_uint u.
Proof.
  unfold nat_of_digits, N.of_uint.
  induction u; cbn [chars_of_uint fold_left Pos.of_uint];
    try reflexivity; try (apply nat_of_digits_acc).
  exact IHu.
Qed.

Lemma nat_of_digits_str n : nat_of_digits (str_of_N n) = n.
Proof.
  unfold str_of_N. rewrite nat_of_digits_uint. apply DecimalN.Unsigned.of_to.
Qed.

Lemma chars_of_uint_digits u : forallb is_digit (chars_of_uint u) = true.
Proof. induction u; simpl; auto. Qed.

Lemma chars_of_uint_length u : length (chars_of_uint u) = Decimal.nb_digits u.
Proof. induction u; simpl; auto. Qed.

Lemma is_digit_cases c :
  is_digit c = true ->
  (c = 48 \/ c = 49 \/ c = 50 \/ c = 51 \/ c = 52 \/ c = 53 \/ c = 54 \/ c = 55
   \/ c = 56 \/ c = 57)%N.
Proof.
  unfold is_digit. intros H. apply andb_true_iff in H. destruct H as [H1 H2].
  apply N.leb_le in H1, H2. lia.
Qed.

Lemma chars_of_uint_of_chars ds :
  forallb is_digit ds = true -> chars_of_uint (uint_of_chars ds) = ds.
Proof.
  induction ds as [|c ds IH]; simpl; [reflexivity|].
  intros H. apply andb_true_iff in H. destruct H as [Hc Hds].
  apply is_digit_cases in Hc.
  repeat (destruct Hc as [->|Hc]); try subst c; simpl; rewrite IH; auto.
Qed.

(** The digits of [n] are [0] alone or start with a digit that is not 0. *)
Lemma str_of_N_canonical n :
  str_of_N n = [48%N]
  \/ exists c ds, str_of_N n = c :: ds /\ ((49 <=? c) && (c <=? 57))%N = true.
Proof.
  unfold str_of_N.
  assert (E : N.to_uint n = Decimal.unorm (N.to_uint n)).
  { rewrite <- (DecimalN.Unsigned.of_to n) at 1.
    apply DecimalN.Unsigned.to_of. }
  rewrite E. set (u := N.to_uint n). unfold Decimal.unorm.
  pose proof (DecimalFacts.nzhead_nonzero u) as Hnz.
  destruct (Decimal.nzhead u) as [|u'|u'|u'|u'|u'|u'|u'|u'|u'|u'];
    try (right; eexists; eexists; split; [reflexivity|reflexivity]).
  - left. reflexivity.
  - exfalso. apply (Hnz u'). reflexivity.
Qed.

Lemma str_of_N_digits n : forallb is_digit (str_of_N n) = true.
Proof. apply chars_of_uint_digits. Qed.

(** Printing the value of a digit string gives no more digits. *)
Lemma str_of_N_length ds :
  ds <> [] -> forallb is_digit ds = true ->
  length (str_of_N (nat_of_digits ds)) <= length ds.
Proof.
  intros Hne Hd. pose proof (chars_of_uint_of_chars ds Hd) as E.
  set (u := uint_of_chars ds) in *. rewrite <- E.
  rewrite nat_of_digits_uint. unfold str_of_N.
  rewrite DecimalN.Unsigned.to_of, !chars_of_uint_length.
  apply DecimalFacts.nb_digits_unorm.
  intros E'. apply Hne. rewrite <- E, E'. reflexivity.
Qed.

(** ** Lexical facts: whitespace and numbers *)

Lemma skip_ws_decomp s : exists w, s = w ++ skip_ws s /\ forallb is_ws w = true.
Proof.
  induction s as [|c s (w & E & Hw)]; [exists []; auto|].
  simpl. destruct (is_ws c) eqn:Hc.
  - exists (c :: w). simpl. rewrite Hc, Hw, <- E. auto.
  - exists []. auto.
Qed.

Lemma skip_ws_head s c r : skip_ws s = c :: r -> is_ws c = false.
Proof.
  induction s as [|x s IH]; simpl; [discriminate|].
  destruct (is_ws x) eqn:Hx; [exact IH|]. intros E. injection E as <- _. exact Hx.
Qed.

Lemma skip_ws_app w r : forallb is_ws w = true -> skip_ws (w ++ r) = skip_ws r.
Proof.
  induction w as [|c w IH]; simpl; [reflexivity|].
  intros H. apply andb_true_iff in H. destruct H as [Hc Hw].
  rewrite Hc. apply IH. exact Hw.
Qed.

Lemma skip_ws_stop c r : is_ws c = false -> skip_ws (c :: r) = c :: r.
Proof. intros H. simpl. rewrite H. reflexivity. Qed.

Lemma skip_ws_length s : length (skip_ws s) <= length s.
Proof.
  destruct (skip_ws_decomp s) as (w & E & _).
  rewrite E at 2. rewrite length_app. lia.
Qed.

Lemma skip_ws_nil_spaces s : skip_ws s = [] -> forallb is_ws s = true.
Proof.
  intros H. destruct (skip_ws_decomp s) as (w & E & Hw).
  rewrite H, app_nil_r in E. subst. exact Hw.
Qed.

Lemma span_digits_decomp s ds r :
  span_digits s = (ds, r) ->
  s = ds ++ r /\ forallb is_digit ds = true /\ not_digit_head r.
Proof.
  revert ds r. induction s as [|c s IH]; intros ds r; simpl.
  - intros E. injection E as <- <-. simpl. auto.
  - destruct (is_digit c) eqn:Hc.
    + destruct (span_digits s) as [ds' r'] eqn:E'. intros E. injection E as <- <-.
      destruct (IH _ _ eq_refl) as (-> & Hd & Hr). simpl. rewrite Hc. auto.
    + intros E. injection E as <- <-. simpl. auto.
Qed.

Lemma span_digits_app ds r :
  forallb is_digit ds = true -> not_digit_head r -> span_digits (ds ++ r) = (ds, r).
Proof.
  intros Hd Hr. induction ds as [|c ds IH]; simpl.
  - destruct r as [|c r]; [reflexivity|]. simpl in Hr. simpl. rewrite Hr. reflexivity.
  - simpl in Hd. apply andb_true_iff in Hd. destruct Hd as [Hc Hd].
    rewrite Hc, (IH Hd). reflexivity.
Qed.

Lemma number_end_cases r :
  number_end r = true ->
  match r with
  | [] => True
  | c :: _ => is_digit c = false /\ c <> ch "." /\ c <> ch "e" /\ c <> ch "E"
  end.
Proof.
  destruct r as [|c r]; [auto|]. unfold number_end. intros H.
  apply negb_true_iff in H. repeat (apply orb_false_iff in H; destruct H as [H ?]).
  repeat split; try assumption; intros ->; discriminate.
Qed.

Lemma number_end_not_digit r : number_end r = true -> not_digit_head r.
Proof.
  intros H. apply number_end_cases in H. destruct r; [exact I|]. apply H.
Qed.

Lemma number_end_ws c r : is_ws c = true -> number_end (c :: r) = true.
Proof.
  unfold is_ws. intros H.
  repeat (apply orb_true_iff in H; destruct H as [H|H]);
    apply N.eqb_eq in H; subst; reflexivity.
Qed.

Lemma last_app_cons {A : Type} (a : list A) x b d :
  last (a ++ x :: b) d = last (x :: b) d.
Proof.
  induction a as [|y a IH]; [reflexivity|].
  change ((y :: a) ++ x :: b) with (y :: (a ++ x :: b)).
  destruct (a ++ x :: b) eqn:E; [destruct a; discriminate|].
  exact IH.
Qed.

Lemma last_digits ds d :
  ds <> [] -> forallb is_digit ds = true -> is_digit (last ds d) = true.
Proof.
  induction ds as [|c ds IH]; [congruence|]. intros _ H.
  simpl in H. apply andb_true_iff in H. destruct H as [Hc Hd].
  destruct ds as [|c' ds]; [exact Hc|]. apply IH; [discriminate|exact Hd].
Qed.

(** The integer part. *)
Lemma number_int_spec s ip s2 :
  number_int s = Some (ip, s2) ->
  s = ip ++ s2 /\ ip <> [] /\ forallb is_digit ip = true
  /\ forall t, not_digit_head t -> number_int (ip ++ t) = Some (ip, t).
Proof.
  destruct s as [|c s]; [discriminate|]. unfold number_int.
  destruct ((49 <=? c) && (c <=? 57))%N eqn:Hc.
  - destruct (span_digits s) as [ds r] eqn:E. intros H. injection H as <- <-.
    destruct (span_digits_decomp _ _ _ E) as (-> & Hd & Hr).
    assert (Hdc : is_digit c = true).
    { unfold is_digit. apply andb_true_iff in Hc. destruct Hc as [H1 H2].
      apply N.leb_le in H1, H2. apply andb_true_iff.
      split; apply N.leb_le; lia. }
    split; [reflexivity|split; [discriminate|split]].
    + simpl. rewrite Hdc. exact Hd.
    + intros t Ht. simpl. rewrite Hc, (span_digits_app ds t Hd Ht). reflexivity.
  - destruct (N.eqb_spec c 48) as [->|Hn]; [|discriminate].
    intros H. injection H as <- <-.
    split; [reflexivity|split; [discriminate|split; [reflexivity|]]].
    intros t _. reflexivity.
Qed.

(** The fraction: empty, or a dot and digits. *)
Lemma number_frac_spec s frac s3 :
  number_frac s = (frac, s3) ->
  s = frac ++ s3
  /\ (frac = [] \/ (exists ds, frac = ch "." :: ds /\ ds <> []
                               /\ forallb is_digit ds = true))
  /\ forall t, not_digit_head t ->
               match t with c :: _ => c <> ch "." | [] => True end ->
               number_frac (frac ++ t) = (frac, t).
Proof.
  unfold number_frac. intros H.
  assert (Hnone : forall u, match u with c :: _ => c <> ch "." | [] => True end ->
                            number_frac ([] ++ u) = ([], u)).
  { intros u Hu. unfold number_frac. destruct u as [|c [|d u]]; try reflexivity.
    simpl. destruct (N.eqb_spec c 46) as [E|E]; [exfalso; exact (Hu E)|reflexivity]. }
  destruct s as [|dot [|d s]];
    try (injection H as <- <-; repeat split; auto; intros; apply Hnone; assumption).
  destruct ((dot =? ch ".")%N && is_digit d) eqn:Hc.
  - destruct (span_digits s) as [ds r] eqn:E. injection H as <- <-.
    destruct (span_digits_decomp _ _ _ E) as (-> & Hd & Hr).
    apply andb_true_iff in Hc. destruct Hc as [Hdot Hdig].
    apply N.eqb_eq in Hdot. subst dot.
    repeat split.
    + right. exists (d :: ds). repeat split; [discriminate|].
      simpl. rewrite Hdig. exact Hd.
    + intros t Ht _. simpl. change (46 =? ch ".")%N with true.
      rewrite Hdig. simpl. rewrite (span_digits_app ds t Hd Ht). reflexivity.
  - injection H as <- <-. repeat split; auto. intros; apply Hnone; assumption.
Qed.

(** The exponent: empty, or the letter, a sign or none, and digits. *)
Lemma number_exp_spec s ex s4 :
  number_exp s = (ex, s4) ->
  s = ex ++ s4
  /\ (ex = [] \/ (exists e t, ex = e :: t /\ ((e =? ch "e") || (e =? ch "E"))%N = true
                              /\ t <> [] /\ is_digit (last t 0%N) = true))
  /\ forall t, not_digit_head t ->
               match t with c :: _ => c <> ch "e" /\ c <> ch "E" | [] => True end ->
               number_exp (ex ++ t) = (ex, t).
Proof.
  unfold number_exp. intros H.
  assert (Hnone : forall u,
             match u with c :: _ => c <> ch "e" /\ c <> ch "E" | [] => True end ->
             number_exp ([] ++ u) = ([], u)).
  { intros u Hu. unfold number_exp. destruct u as [|c u]; [reflexivity|].
    destruct Hu as [H1 H2]. simpl.
    destruct (N.eqb_spec c 101) as [E|E]; [exfalso; exact (H1 E)|].
    destruct (N.eqb_spec c 69) as [E'|E']; [exfalso; exact (H2 E')|]. reflexivity. }
  destruct s as [|e s];
    [injection H as <- <-; repeat split; auto; intros; apply Hnone; assumption|].
  destruct ((e =? ch "e") || (e =? ch "E"))%N eqn:He;
    [|injection H as <- <-; repeat split; auto; intros; apply Hnone; assumption].
  set (sgs := match s with
              | c :: t => if ((c =? ch "-") || (c =? ch "+"))%N then ([c], t) else ([], s)
              | [] => ([], s)
              end) in *.
  assert (Hsg : s = fst sgs ++ snd sgs
                /\ (fst sgs = [] /\ snd sgs = s
                    \/ exists c, fst sgs = [c] /\ ((c =? ch "-") || (c =? ch "+"))%N = true)).
  { subst sgs. destruct s as [|c t]; [simpl; auto|].
    destruct ((c =? ch "-") || (c =? ch "+"))%N eqn:Hc; simpl; eauto. }
  destruct sgs as [sg s'']. simpl in Hsg. destruct Hsg as [Es Hsg].
  destruct (span_digits s'') as [ds r] eqn:E.
  destruct (span_digits_decomp _ _ _ E) as (Es'' & Hd & Hr).
  destruct ds as [|d ds].
  - injection H as <- <-. repeat split; auto. intros; apply Hnone; assumption.
  - injection H as <- <-. subst s s''. split; [|split].
    + simpl. f_equal. rewrite <- app_assoc. reflexivity.
    + right. exists e, (sg ++ d :: ds). repeat split; auto.
      * destruct sg; discriminate.
      * rewrite last_app_cons. apply last_digits; [discriminate|exact Hd].
    + intros t Ht _.
      assert (Hdd : ((d =? 45) || (d =? 43))%N = false).
      { simpl in Hd. apply andb_true_iff in Hd. destruct Hd as [Hdd _].
        apply is_digit_cases in Hdd.
        repeat (destruct Hdd as [->|Hdd]); try subst d; reflexivity. }
      pose proof (span_digits_app (d :: ds) t Hd Ht) as Hsp.
      destruct Hsg as [[-> _]|(c & -> & Hc)].
      * cbn [app]. rewrite He. cbn [app] in Hsp.
        change (ch "-") with 45%N. change (ch "+") with 43%N.
        rewrite Hdd. rewrite Hsp. reflexivity.
      * cbn [app]. rewrite He. cbn [app] in Hsp.
        change (ch "-") with 45%N in *. change (ch "+") with 43%N in *.
        rewrite Hc. rewrite Hsp. reflexivity.
Qed.

Lemma number_sign_spec s sg s1 :
  number_sign s = (sg, s1) ->
  s = sg ++ s1
  /\ ((sg = [] /\ match s1 with c :: _ => c <> ch "-" | [] => True end)
      \/ sg = [ch "-"]).
Proof.
  unfold number_sign. destruct s as [|c s].
  - intros H. injection H as <- <-. auto.
  - destruct (N.eqb_spec c (ch "-")) as [->|Hc]; intros H; injection H as <- <-; auto.
Qed.

Lemma number_sign_digit c t : is_digit c = true -> number_sign (c :: t) = ([], c :: t).
Proof.
  intros H. apply is_digit_cases in H.
  repeat (destruct H as [->|H]); try subst c; reflexivity.
Qed.

Lemma exp_letter_head e :
  ((e =? ch "e") || (e =? ch "E"))%N = true -> is_digit e = false /\ e <> ch ".".
Proof.
  intros H. apply orb_true_iff in H.
  destruct H as [H|H]; apply N.eqb_eq in H; subst e; split; try reflexivity; discriminate.
Qed.

(** What [match_number] accepts is a prefix of the text, ends with a digit,
    and is read the same way before any text that cannot continue a
    number. *)
Lemma match_number_spec s fl numstr r :
  match_number s = Some (fl, numstr, r) ->
  s = numstr ++ r
  /\ is_digit (last numstr 0%N) = true
  /\ (exists sg ip rest,
         numstr = sg ++ ip ++ rest /\ (sg = [] \/ sg = [ch "-"])
         /\ ip <> [] /\ forallb is_digit ip = true
         /\ (fl = false -> rest = []))
  /\ forall r', number_end r' = true ->
                match_number (numstr ++ r') = Some (fl, numstr, r').
Proof.
  unfold match_number.
  destruct (number_sign s) as [sg s1] eqn:Esg.
  destruct (number_int s1) as [[ip s2]|] eqn:Eip; [|discriminate].
  destruct (number_frac s2) as [frac s3] eqn:Efr.
  destruct (number_exp s3) as [ex s4] eqn:Eex.
  intros H. injection H as <- <- <-.
  destruct (number_sign_spec _ _ _ Esg) as (-> & Hsg).
  destruct (number_int_spec _ _ _ Eip) as (-> & Hne & Hdig & Hip).
  destruct (number_frac_spec _ _ _ Efr) as (-> & Hfrac & Hfr).
  destruct (number_exp_spec _ _ _ Eex) as (-> & Hexp & Hex).
  split; [rewrite <- !app_assoc; reflexivity|]. split; [|split].
  - destruct Hexp as [->|(e & t & -> & He & Ht & Hl)].
    + rewrite app_nil_r.
      destruct Hfrac as [->|(ds & -> & Hds & Hdd)].
      * rewrite app_nil_r. destruct ip as [|c ip]; [congruence|].
        rewrite last_app_cons. apply last_digits; [discriminate|exact Hdig].
      * destruct ds as [|d ds]; [congruence|].
        replace (sg ++ ip ++ ch "." :: d :: ds)
          with ((sg ++ ip ++ [ch "."]) ++ d :: ds)
          by (rewrite <- !app_assoc; reflexivity).
        rewrite last_app_cons. apply last_digits; [discriminate|exact Hdd].
    + destruct t as [|c t]; [congruence|].
      replace (sg ++ ip ++ frac ++ e :: c :: t)
        with ((sg ++ ip ++ frac ++ [e]) ++ c :: t)
        by (rewrite <- !app_assoc; reflexivity).
      rewrite last_app_cons. exact Hl.
  - exists sg, ip, (frac ++ ex). split; [reflexivity|]. split.
    + destruct Hsg as [[-> _]| ->]; auto.
    + split; [exact Hne|]. split; [exact Hdig|].
      destruct frac; [|discriminate]. destruct ex; [reflexivity|discriminate].
  - intros r' Hr'. pose proof (number_end_cases _ Hr') as Hc.
    assert (Hex_head : not_digit_head (ex ++ r')
                       /\ match ex ++ r' with c :: _ => c <> ch "." | [] => True end).
    { destruct Hexp as [->|(e & t & -> & He & _)].
      - simpl. destruct r' as [|c r']; [auto|]. simpl. tauto.
      - simpl. apply exp_letter_head. exact He. }
    assert (Hfr_head : not_digit_head (frac ++ ex ++ r')).
    { destruct Hfrac as [->|(ds & -> & _)]; [apply Hex_head|reflexivity]. }
    assert (Hsign : number_sign ((sg ++ ip ++ frac ++ ex) ++ r')
                    = (sg, ip ++ frac ++ ex ++ r')).
    { rewrite <- !app_assoc. destruct Hsg as [[-> _]| ->]; [|reflexivity].
      destruct ip as [|c ip]; [congruence|]. simpl in Hdig.
      apply andb_true_iff in Hdig. destruct Hdig as [Hcd _].
      apply number_sign_digit. exact Hcd. }
    rewrite Hsign, (Hip _ Hfr_head).
    rewrite (Hfr _ (proj1 Hex_head) (proj2 Hex_head)).
    rewrite (Hex r' (number_end_not_digit _ Hr')).
    + reflexivity.
    + destruct r' as [|c r']; [exact I|]. tauto.
Qed.

(** ** Lexical facts: strings *)

Lemma scons_ok {A : Type} c (m : sres (str * A)) x r :
  scons c m = SOk (x, r) -> exists x', x = c :: x' /\ m = SOk (x', r).
Proof.
  unfold scons, sbind. destruct m as [[x' r']| | |]; try discriminate.
  intros H. injection H as <- <-. eauto.
Qed.

Lemma scanstring_quote b (s : str) : scanstring b (DQUOTE :: s) = SOk ([], s).
Proof. reflexivity. Qed.

Lemma scanstring_plain b (c : char) (s : str) :
  (c =? DQUOTE)%N = false -> (c =? BACKSLASH)%N = false ->
  scanstring b (c :: s)
  = if (c <=? 31)%N then SErr msg_control (length (c :: s))
    else scons c (scanstring b s).
Proof. intros H1 H2. cbn [scanstring]. rewrite H1, H2. reflexivity. Qed.

Lemma scanstring_escape b (e : char) (s : str) :
  (e =? ch "u")%N = false ->
  scanstring b (BACKSLASH :: e :: s)
  = match unescape e with
    | Some c' => scons c' (scanstring b s)
    | None => SErr msg_escape (length (BACKSLASH :: e :: s))
    end.
Proof. intros H. cbn [scanstring]. change (BACKSLASH =? DQUOTE)%N with false.
  change (BACKSLASH =? BACKSLASH)%N with true. cbv iota. rewrite H. reflexivity. Qed.

Lemma scanstring_u_short b (s2 : str) x r :
  scanstring b (BACKSLASH :: ch "u" :: s2) = SOk (x, r) -> 5 <= length s2.
Proof.
  destruct s2 as [|h1 [|h2 [|h3 [|h4 [|y t]]]]]; try discriminate.
  intros _. simpl. lia.
Qed.

Lemma scanstring_u b (h1 h2 h3 h4 y : char) (t : str) :
  scanstring b (BACKSLASH :: ch "u" :: h1 :: h2 :: h3 :: h4 :: y :: t)
  = match hex4 h1 h2 h3 h4 with
    | None => SErr msg_uXXXX (length (ch "u" :: h1 :: h2 :: h3 :: h4 :: y :: t))
    | Some uni =>
        if is_high_surrogate uni then
          match lookahead_pair (y :: t) with
          | Some None => SErr msg_uXXXX (length t)
          | Some (Some uni2) =>
              if is_low_surrogate uni2
              then scons (join_surrogates uni uni2) (scanstring b (skipn 6 (y :: t)))
              else scons uni (scanstring b (y :: t))
          | None => scons uni (scanstring b (y :: t))
          end
        else scons uni (scanstring b (y :: t))
    end.
Proof.
  cbn [scanstring]. change (BACKSLASH =? DQUOTE)%N with false.
  change (BACKSLASH =? BACKSLASH)%N with true.
  change (ch "u" =? ch "u")%N with true. cbv iota.
  destruct (hex4 h1 h2 h3 h4) as [uni|]; [|reflexivity].
  destruct (is_high_surrogate uni); [|reflexivity].
  unfold lookahead_pair.
  destruct t as [|u [|g1 [|g2 [|g3 [|g4 [|y' t']]]]]];
    try (destruct ((y =? BACKSLASH) && (u =? ch "u"))%N; reflexivity);
    try reflexivity.
Qed.

Lemma lookahead_pair_some s3 la :
  lookahead_pair s3 = Some la ->
  exists g1 g2 g3 g4 y t,
    s3 = BACKSLASH :: ch "u" :: g1 :: g2 :: g3 :: g4 :: y :: t
    /\ la = hex4 g1 g2 g3 g4.
Proof.
  unfold lookahead_pair.
  destruct s3 as [|b [|u rest]]; try discriminate.
  destruct ((b =? BACKSLASH) && (u =? ch "u"))%N eqn:E; [|discriminate].
  apply andb_true_iff in E. destruct E as [Eb Eu].
  apply N.eqb_eq in Eb, Eu. subst b u.
  destruct rest as [|g1 [|g2 [|g3 [|g4 [|y t]]]]]; try discriminate.
  intros H. injection H as <-. repeat eexists.
Qed.

Lemma lookahead_pair_stable c0 r r' :
  long_escape (c0 ++ [DQUOTE]) ->
  lookahead_pair ((c0 ++ [DQUOTE]) ++ r) = lookahead_pair ((c0 ++ [DQUOTE]) ++ r').
Proof.
  intros Hlong. unfold lookahead_pair.
  destruct c0 as [|b [|u c1]]; cbn [app].
  - destruct r, r'; reflexivity.
  - destruct (N.eqb_spec b BACKSLASH) as [->|Hb]; reflexivity.
  - destruct ((b =? BACKSLASH) && (u =? ch "u"))%N eqn:E; [|reflexivity].
    apply andb_true_iff in E. destruct E as [Eb Eu].
    apply N.eqb_eq in Eb, Eu. subst b u.
    specialize (Hlong _ eq_refl). rewrite length_app in Hlong. simpl in Hlong.
    destruct c1 as [|g1 [|g2 [|g3 [|g4 c2]]]]; simpl in Hlong; try lia.
    destruct c2; reflexivity.
Qed.

Lemma app_cons_quote (c0 : str) r :
  exists y t, (c0 ++ [DQUOTE]) ++ r = y :: t.
Proof. destruct c0; simpl; eauto. Qed.

Lemma scons_app {A : Type} c (m : sres (str * A)) x r :
  m = SOk (x, r) -> scons c m = SOk (c :: x, r).
Proof. intros ->. reflexivity. Qed.

(** [scanstring] reads a body up to its closing quote, and reads it the
    same way whatever follows the quote. *)
Lemma scanstring_local n : forall s, length s <= n -> forall b x r,
  scanstring b s = SOk (x, r) ->
  exists c0,
    s = (c0 ++ [DQUOTE]) ++ r
    /\ long_escape (c0 ++ [DQUOTE])
    /\ forall b' r', scanstring b' ((c0 ++ [DQUOTE]) ++ r') = SOk (x, r').
Proof.
  induction n as [|n IH]; intros s Hn b x r H.
  { destruct s; [discriminate|simpl in Hn; lia]. }
  destruct s as [|c s1]; [discriminate|]. simpl in Hn.
  destruct (N.eqb_spec c DQUOTE) as [->|Hq].
  { rewrite scanstring_quote in H. injection H as <- <-.
    exists []. split; [reflexivity|]. split; [|intros; reflexivity].
    intros t E. discriminate. }
  destruct (N.eqb_spec c BACKSLASH) as [->|Hb].
  2:{ (* an ordinary character *)
    assert (Eq : (c =? DQUOTE)%N = false) by (apply N.eqb_neq; exact Hq).
    assert (Eb : (c =? BACKSLASH)%N = false) by (apply N.eqb_neq; exact Hb).
    rewrite (scanstring_plain b c s1 Eq Eb) in H.
    destruct (c <=? 31)%N eqn:Ec; [discriminate|].
    apply scons_ok in H. destruct H as (x' & -> & H).
    destruct (IH s1 ltac:(lia) _ _ _ H) as (c0 & -> & Hlong & Hloc).
    exists (c :: c0). split; [reflexivity|]. split.
    - intros t E. exfalso. apply Hb. cbn [app] in E. congruence.
    - intros b' r'. cbn [app]. rewrite (scanstring_plain b' c _ Eq Eb), Ec.
      apply scons_app. apply Hloc. }
  destruct s1 as [|e s2]; [discriminate|]. simpl in Hn.
  destruct (N.eqb_spec e (ch "u")) as [->|Hu].
  2:{ (* a one-character escape *)
    assert (Eu : (e =? ch "u")%N = false) by (apply N.eqb_neq; exact Hu).
    rewrite (scanstring_escape b e s2 Eu) in H.
    destruct (unescape e) as [c'|] eqn:Ee; [|discriminate].
    apply scons_ok in H. destruct H as (x' & -> & H).
    destruct (IH s2 ltac:(lia) _ _ _ H) as (c0 & -> & Hlong & Hloc).
    exists (BACKSLASH :: e :: c0). split; [reflexivity|]. split.
    - intros t E. exfalso. apply Hu. cbn [app] in E. congruence.
    - intros b' r'. cbn [app]. rewrite (scanstring_escape b' e _ Eu), Ee.
      apply scons_app. apply Hloc. }
  (* a \u escape *)
  pose proof (scanstring_u_short _ _ _ _ H) as Hlen.
  destruct s2 as [|h1 [|h2 [|h3 [|h4 [|y t]]]]]; simpl in Hlen; try lia.
  simpl in Hn. rewrite scanstring_u in H.
  destruct (hex4 h1 h2 h3 h4) as [uni|] eqn:Eh; [|discriminate].
  assert (Hsingle : forall x',
             scanstring b (y :: t) = SOk (x', r) ->
             (is_high_surrogate uni = true ->
              forall c0 r', y :: t = (c0 ++ [DQUOTE]) ++ r ->
                long_escape (c0 ++ [DQUOTE]) ->
                match lookahead_pair ((c0 ++ [DQUOTE]) ++ r') with
                | Some (Some uni2) => is_low_surrogate uni2 = false
                | Some None => False
                | None => True
                end) ->
             exists c0,
               BACKSLASH :: ch "u" :: h1 :: h2 :: h3 :: h4 :: y :: t
               = (c0 ++ [DQUOTE]) ++ r
               /\ long_escape (c0 ++ [DQUOTE])
               /\ forall b' r',
                   scanstring b' ((c0 ++ [DQUOTE]) ++ r') = SOk (uni :: x', r')).
  { intros x' Hx' Hla.
    destruct (IH (y :: t) ltac:(simpl; lia) _ _ _ Hx') as (c0 & E & Hlong & Hloc).
    exists (BACKSLASH :: ch "u" :: h1 :: h2 :: h3 :: h4 :: c0).
    split; [cbn [app]; rewrite <- E; reflexivity|]. split.
    - intros t' Et. apply (f_equal (@length _)) in Et. simpl in Et.
      rewrite !length_app in Et. simpl in Et. lia.
    - intros b' r'. cbn [app].
      destruct (app_cons_quote c0 r') as (y' & t' & E').
      rewrite E'. rewrite scanstring_u, Eh. rewrite <- E'.
      destruct (is_high_surrogate uni) eqn:Ehi.
      + specialize (Hla eq_refl c0 r' E Hlong).
        destruct (lookahead_pair ((c0 ++ [DQUOTE]) ++ r')) as [[uni2|]|].
        * rewrite Hla. apply scons_app. apply Hloc.
        * contradiction.
        * apply scons_app. apply Hloc.
      + apply scons_app. apply Hloc. }
  destruct (is_high_surrogate uni) eqn:Ehi.
  2:{ apply scons_ok in H. destruct H as (x' & -> & H).
      apply Hsingle; [exact H|discriminate]. }
  destruct (lookahead_pair (y :: t)) as [[uni2|]|] eqn:Ela; [| discriminate |].
  - destruct (is_low_surrogate uni2) eqn:Elo.
    + (* the two escapes are one character *)
      apply scons_ok in H. destruct H as (x' & -> & H).
      destruct (lookahead_pair_some _ _ Ela) as (g1 & g2 & g3 & g4 & y' & t' & E & Eg).
      rewrite E in H. cbn [skipn] in H. injection E as -> ->.
      simpl in Hn.
      destruct (IH (y' :: t') ltac:(simpl; lia) _ _ _ H) as (c0 & E & Hlong & Hloc).
      exists (BACKSLASH :: ch "u" :: h1 :: h2 :: h3 :: h4
                :: BACKSLASH :: ch "u" :: g1 :: g2 :: g3 :: g4 :: c0).
      split; [cbn [app]; rewrite <- E; reflexivity|]. split.
      * intros t'' Et. apply (f_equal (@length _)) in Et. simpl in Et.
        rewrite !length_app in Et. simpl in Et. lia.
      * intros b' r'. cbn [app].
        destruct (app_cons_quote c0 r') as (y'' & t'' & E').
        rewrite scanstring_u, Eh, Ehi. rewrite E'.
        cbn [lookahead_pair]. change ((BACKSLASH =? BACKSLASH) && (ch "u" =? ch "u"))%N with true.
        cbv iota. rewrite <- Eg, Elo. cbn [skipn]. rewrite <- E'.
        apply scons_app. apply Hloc.
    + apply scons_ok in H. destruct H as (x' & -> & H).
      apply Hsingle; [exact H|]. intros _ c0 r' E Hlong.
      rewrite <- (lookahead_pair_stable c0 r r' Hlong), <- E, Ela. exact Elo.
  - apply scons_ok in H. destruct H as (x' & -> & H).
    apply Hsingle; [exact H|]. intros _ c0 r' E Hlong.
    rewrite <- (lookahead_pair_stable c0 r r' Hlong), <- E, Ela. exact I.
Qed.

(** ** A value is read the same way whatever follows it *)

Lemma sbind_ok {A B : Type} (m : sres A) (f : A -> sres B) b :
  sbind m f = SOk b -> exists a, m = SOk a /\ f a = SOk b.
Proof. destruct m; try discriminate. simpl. eauto. Qed.

Lemma number_end_head c r r' : number_end (c :: r) = number_end (c :: r').
Proof. reflexivity. Qed.

Lemma number_end_spaces w c r :
  forallb is_ws w = true -> number_end [c] = true -> number_end (w ++ c :: r) = true.
Proof.
  intros Hw Hc. destruct w as [|x w]; [exact Hc|].
  simpl in Hw. apply andb_true_iff in Hw. apply number_end_ws. apply Hw.
Qed.

Lemma app_head_eq (c : str) r y t :
  c <> [] -> c ++ r = y :: t -> exists c', c = y :: c'.
Proof. destruct c as [|x c]; [congruence|]. intros _ E. injection E as -> _. eauto. Qed.

Lemma skip_ws_prefix w c r :
  forallb is_ws w = true -> c <> [] ->
  (forall y t, c = y :: t -> is_ws y = false) ->
  skip_ws (w ++ c ++ r) = c ++ r.
Proof.
  intros Hw Hc Hy. rewrite skip_ws_app by exact Hw.
  destruct c as [|y t]; [congruence|]. apply skip_ws_stop. eapply Hy. reflexivity.
Qed.

Section Items.
Context {A : Type} (item : str -> sres (A * str)) (close : char).
Hypothesis close_not_ws : is_ws close = false.
Hypothesis close_ends_number : number_end [close] = true.
Hypothesis close_not_comma : (ch "," =? close)%N = false.
Hypothesis item_local : local item.

Lemma parse_items_local k : forall s xs r,
  parse_items item close k s = SOk (xs, r) ->
  exists c,
    s = c ++ r /\ c <> [] /\ last c 0%N = close
    /\ xs <> [] /\ length xs <= length c
    /\ forall k' r', length xs <= k' ->
                     parse_items item close k' (c ++ r') = SOk (xs, r').
Proof.
  induction k as [|k IH]; intros s xs r H; [discriminate|].
  cbn [parse_items] in H. apply sbind_ok in H.
  destruct H as ([x r1] & Hitem & H).
  destruct (item_local _ _ _ Hitem) as (c1 & -> & Hc1 & Hl1 & Hloc1).
  destruct (skip_ws_decomp r1) as (w & Er1 & Hw).
  destruct (skip_ws r1) as [|cc r2] eqn:Esk; [discriminate|].
  pose proof (skip_ws_head _ _ _ Esk) as Hcc.
  destruct (N.eqb_spec cc close) as [->|Hnc].
  - injection H as <- <-.
    exists (c1 ++ w ++ [close]). rewrite Er1.
    split; [rewrite <- !app_assoc; reflexivity|]. split; [|split; [|split; [|split]]].
    + intros E. apply app_eq_nil in E. destruct E. contradiction.
    + rewrite !app_assoc. apply last_last.
    + discriminate.
    + rewrite length_app. destruct c1; [congruence|]. simpl. lia.
    + intros k' r' Hk. destruct k' as [|k']; [simpl in Hk; lia|].
      cbn [parse_items]. rewrite <- !app_assoc.
      rewrite Hloc1 by (apply number_end_spaces; assumption).
      cbn [sbind app]. rewrite skip_ws_app by exact Hw.
      rewrite skip_ws_stop by exact close_not_ws.
      rewrite N.eqb_refl. reflexivity.
  - destruct (N.eqb_spec cc (ch ",")) as [->|Hcomma]; [|discriminate].
    apply sbind_ok in H. destruct H as ([xs' r''] & Hrec & H).
    injection H as <- <-.
    destruct (IH _ _ _ Hrec) as (c2 & E2 & Hc2 & Hl2 & Hxs & Hlen & Hloc2).
    destruct (skip_ws_decomp r2) as (w2 & Er2 & Hw2).
    assert (Hhead : forall y t, c2 = y :: t -> is_ws y = false).
    { intros y t ->. cbn [app] in E2. eapply skip_ws_head. exact E2. }
    exists (c1 ++ w ++ ch "," :: w2 ++ c2).
    split; [|split; [|split; [|split; [|split]]]].
    + rewrite Er1, Er2, E2. rewrite <- !app_assoc. cbn [app].
      rewrite <- !app_assoc. reflexivity.
    + intros E. apply app_eq_nil in E. destruct E. contradiction.
    + destruct c2 as [|y c2]; [congruence|].
      replace (c1 ++ w ++ ch "," :: w2 ++ y :: c2)
        with ((c1 ++ w ++ ch "," :: w2) ++ y :: c2)
        by (rewrite <- !app_assoc; cbn [app]; rewrite <- ?app_assoc; reflexivity).
      rewrite last_app_cons. exact Hl2.
    + discriminate.
    + rewrite !length_app. cbn [length]. rewrite length_app.
      destruct c1; [congruence|]. simpl. lia.
    + intros k' r' Hk. destruct k' as [|k']; [simpl in Hk; lia|].
      cbn [parse_items]. rewrite <- !app_assoc.
      rewrite Hloc1 by (apply number_end_spaces; [exact Hw|reflexivity]).
      cbn [sbind app]. rewrite skip_ws_app by exact Hw.
      rewrite skip_ws_stop by reflexivity.
      rewrite close_not_comma. change (ch "," =? ch ",")%N with true. cbv iota.
      rewrite <- !app_assoc.
      rewrite (skip_ws_prefix w2 c2 r' Hw2 Hc2 Hhead).
      rewrite Hloc2 by (simpl in Hk; lia). reflexivity.
Qed.

Lemma parse_container_local s xs r :
  parse_container item close s = SOk (xs, r) ->
  exists c,
    s = c ++ r /\ c <> [] /\ last c 0%N = close
    /\ forall r', parse_container item close (c ++ r') = SOk (xs, r').
Proof.
  unfold parse_container. intros H.
  destruct (skip_ws_decomp s) as (w & Es & Hw).
  destruct (skip_ws s) as [|cc s1] eqn:Esk.
  - exfalso. cbn [parse_items] in H. apply sbind_ok in H.
    destruct H as ([x r1] & Hitem & _).
    destruct (item_local _ _ _ Hitem) as (c1 & E & Hc1 & _).
    symmetry in E. apply app_eq_nil in E. destruct E. contradiction.
  - pose proof (skip_ws_head _ _ _ Esk) as Hcc.
    destruct (N.eqb_spec cc close) as [->|Hnc].
    + injection H as <- <-. exists (w ++ [close]).
      split; [rewrite Es, <- app_assoc; reflexivity|]. split; [|split].
      * intros E. apply app_eq_nil in E. destruct E. discriminate.
      * apply last_last.
      * intros r'. rewrite <- app_assoc.
        rewrite skip_ws_app by exact Hw. cbn [app].
        rewrite skip_ws_stop by exact close_not_ws.
        rewrite N.eqb_refl. reflexivity.
    + destruct (parse_items_local _ _ _ _ H) as (c & E & Hc & Hl & Hxs & Hlen & Hloc).
      destruct (app_head_eq c r cc s1 Hc (eq_sym E)) as (c' & ->).
      exists (w ++ cc :: c').
      split; [rewrite Es, E, <- app_assoc; reflexivity|]. split; [|split].
      * intros E'. apply app_eq_nil in E'. destruct E'. discriminate.
      * rewrite last_app_cons. exact Hl.
      * intros r'. rewrite <- app_assoc.
        rewrite skip_ws_app by exact Hw. cbn [app].
        rewrite skip_ws_stop by exact Hcc.
        destruct (N.eqb_spec cc close) as [?|_]; [contradiction|].
        apply (Hloc _ r'). cbn [app length] in *. rewrite length_app. lia.
Qed.
End Items.

Lemma parse_member_local {V : Type} (scan : str -> sres (V * str)) :
  local scan -> local (parse_member scan).
Proof.
  intros Hscan s [key v] r H. unfold parse_member in H.
  destruct s as [|c s1]; [discriminate|].
  destruct (N.eqb_spec c DQUOTE) as [->|Hq]; [|discriminate].
  apply sbind_ok in H. destruct H as ([key' r1] & Hkey & H).
  destruct (scanstring_local _ _ (le_n _) _ _ _ Hkey) as (c0 & -> & _ & Hloc0).
  destruct (skip_ws_decomp r1) as (w & Er1 & Hw).
  destruct (skip_ws r1) as [|c2 r2] eqn:Esk; [discriminate|].
  destruct (N.eqb_spec c2 (ch ":")) as [->|Hcolon]; [|discriminate].
  apply sbind_ok in H. destruct H as ([v' r''] & Hv & H). injection H as -> -> ->.
  destruct (Hscan _ _ _ Hv) as (cv & Ev & Hcv & Hlv & Hlocv).
  destruct (skip_ws_decomp r2) as (w2 & Er2 & Hw2).
  assert (Hhead : forall y t, cv = y :: t -> is_ws y = false).
  { intros y t ->. cbn [app] in Ev. eapply skip_ws_head. exact Ev. }
  exists (DQUOTE :: (c0 ++ [DQUOTE]) ++ w ++ ch ":" :: w2 ++ cv).
  split; [|split; [discriminate|split]].
  - rewrite Er1, Er2, Ev. cbn [app]. rewrite <- !app_assoc. cbn [app].
    rewrite <- !app_assoc. reflexivity.
  - destruct cv as [|y cv]; [congruence|].
    replace (DQUOTE :: (c0 ++ [DQUOTE]) ++ w ++ ch ":" :: w2 ++ y :: cv)
      with ((DQUOTE :: (c0 ++ [DQUOTE]) ++ w ++ ch ":" :: w2) ++ y :: cv)
      by (cbn [app]; rewrite <- !app_assoc; cbn [app]; rewrite <- ?app_assoc; reflexivity).
    rewrite last_app_cons. exact Hlv.
  - intros r' Hr'.
    replace ((DQUOTE :: (c0 ++ [DQUOTE]) ++ w ++ ch ":" :: w2 ++ cv) ++ r')
      with (DQUOTE :: (c0 ++ [DQUOTE]) ++ (w ++ ch ":" :: w2 ++ cv ++ r'))
      by (cbn [app]; rewrite <- !app_assoc; cbn [app]; rewrite <- ?app_assoc; reflexivity).
    unfold parse_member.
    change (DQUOTE =? DQUOTE)%N with true. cbv iota.
    rewrite Hloc0. cbn [sbind].
    rewrite skip_ws_app by exact Hw. cbn [app].
    rewrite skip_ws_stop by reflexivity.
    change (ch ":" =? ch ":")%N with true. cbv iota.
    rewrite (skip_ws_prefix w2 cv r' Hw2 Hcv Hhead).
    rewrite (Hlocv _ Hr'). reflexivity.
Qed.

Lemma digit_not_space c : is_digit c = true -> isspace c = false.
Proof.
  intros H. apply is_digit_cases in H.
  repeat (destruct H as [->|H]); try subst c; reflexivity.
Qed.

(** Before a number the tests for the named constants all fail. *)
Lemma scan_atom_number {RT : PyRuntime} (s : str) fl numstr r :
  match_number s = Some (fl, numstr, r) ->
  scan_atom s
  = match fl with
    | true => SOk (PFloat (parse_float numstr), r)
    | false =>
        if too_many_digits (length (snd (number_sign numstr)))
        then SRaise ValueError
        else SOk (PInt (int_of_literal numstr), r)
    end.
Proof.
  intros H. pose proof H as H0. unfold match_number in H0.
  destruct (number_sign s) as [sg s1] eqn:Esg.
  destruct (number_int s1) as [[ip s2]|] eqn:Eip; [|discriminate]. clear H0.
  destruct (number_sign_spec _ _ _ Esg) as (-> & Hsg).
  destruct (number_int_spec _ _ _ Eip) as (-> & Hne & Hdig & _).
  destruct ip as [|d ip]; [congruence|]. simpl in Hdig.
  apply andb_true_iff in Hdig. destruct Hdig as [Hd _].
  apply is_digit_cases in Hd.
  unfold scan_atom. rewrite H.
  destruct Hsg as [[-> _]| ->];
    repeat (destruct Hd as [->|Hd]); try subst d; reflexivity.
Qed.

Lemma scan_atom_local {RT : PyRuntime} : local scan_atom.
Proof.
  intros s v r H.
  assert (Hlit : forall (l : str) v0,
             l <> [] -> isspace (last l 0%N) = false ->
             (forall r', scan_atom (l ++ r') = SOk (v0, r')) ->
             forall rest, s = l ++ rest -> v = v0 -> r = rest ->
             local_at scan_atom s v r).
  { intros l v0 Hl Hsp Hre rest -> -> ->. exists l. repeat split; auto. }
  unfold scan_atom in H.
  destruct (startswith (lit "null") s) eqn:E1.
  { injection H as <- <-. apply startswith_inv in E1. destruct E1 as [rest ->].
    exact (Hlit (lit "null") PNone ltac:(discriminate) eq_refl (fun r' => eq_refl)
                 rest eq_refl eq_refl eq_refl). }
  destruct (startswith (lit "true") s) eqn:E2.
  { injection H as <- <-. apply startswith_inv in E2. destruct E2 as [rest ->].
    exact (Hlit (lit "true") (PBool true) ltac:(discriminate) eq_refl (fun r' => eq_refl)
                 rest eq_refl eq_refl eq_refl). }
  destruct (startswith (lit "false") s) eqn:E3.
  { injection H as <- <-. apply startswith_inv in E3. destruct E3 as [rest ->].
    exact (Hlit (lit "false") (PBool false) ltac:(discriminate) eq_refl (fun r' => eq_refl)
                 rest eq_refl eq_refl eq_refl). }
  destruct (startswith (lit "NaN") s) eqn:E4.
  { injection H as <- <-. apply startswith_inv in E4. destruct E4 as [rest ->].
    exact (Hlit (lit "NaN") (PFloat float_nan) ltac:(discriminate) eq_refl (fun r' => eq_refl)
                 rest eq_refl eq_refl eq_refl). }
  destruct (startswith (lit "Infinity") s) eqn:E5.
  { injection H as <- <-. apply startswith_inv in E5. destruct E5 as [rest ->].
    exact (Hlit (lit "Infinity") (PFloat float_inf) ltac:(discriminate) eq_refl (fun r' => eq_refl)
                 rest eq_refl eq_refl eq_refl). }
  destruct (startswith (lit "-Infinity") s) eqn:E6.
  { injection H as <- <-. apply startswith_inv in E6. destruct E6 as [rest ->].
    exact (Hlit (lit "-Infinity") (PFloat float_neginf) ltac:(discriminate) eq_refl (fun r' => eq_refl)
                 rest eq_refl eq_refl eq_refl). }
  destruct (match_number s) as [[[fl numstr] r0]|] eqn:Em; [|discriminate].
  destruct (match_number_spec _ _ _ _ Em) as (-> & Hlast & (sg & ip & rest & En & _ & Hip & _) & Hloc).
  exists numstr. split; [|split; [|split]].
  - destruct fl; [injection H as <- <-; reflexivity|].
    destruct (too_many_digits _); [discriminate|]. injection H as <- <-. reflexivity.
  - intros ->. destruct sg; [destruct ip; [congruence|discriminate]|discriminate].
  - apply digit_not_space. exact Hlast.
  - intros r' Hr'. rewrite (scan_atom_number _ _ _ _ (Hloc r' Hr')).
    destruct fl; [injection H as <- <-; reflexivity|].
    destruct (too_many_digits _); [discriminate|]. injection H as <- <-. reflexivity.
Qed.

Lemma scan_once_nil {RT : PyRuntime} d : scan_once d [] = SErr msg_value 0.
Proof. destruct d; reflexivity. Qed.

Lemma scan_once_string {RT : PyRuntime} d (s' : str) :
  scan_once d (DQUOTE :: s')
  = '(x, r) <- scanstring (length (DQUOTE :: s')) s' ;; SOk (PStr x, r).
Proof. destruct d; reflexivity. Qed.

Lemma scan_once_object {RT : PyRuntime} d (s' : str) :
  scan_once (S d) (ch "{" :: s')
  = '(pairs, r) <- parse_container (parse_member (scan_once d)) (ch "}") s' ;;
    SOk (PDict (dict_of_pairs pairs), r).
Proof. reflexivity. Qed.

Lemma scan_once_array {RT : PyRuntime} d (s' : str) :
  scan_once (S d) (ch "[" :: s')
  = '(values, r) <- parse_container (scan_once d) (ch "]") s' ;;
    SOk (PList values, r).
Proof. reflexivity. Qed.

Lemma scan_once_atom {RT : PyRuntime} d (c : char) (s' : str) :
  (c =? DQUOTE)%N = false -> (c =? ch "{")%N = false -> (c =? ch "[")%N = false ->
  scan_once d (c :: s') = scan_atom (c :: s').
Proof. intros H1 H2 H3. destruct d; cbn [scan_once]; rewrite H1, H2, H3; reflexivity. Qed.

Lemma scan_atom_start {RT : PyRuntime} (c : char) (s' : str) v r :
  scan_atom (c :: s') = SOk (v, r) -> value_start c.
Proof.
  unfold scan_atom, value_start. intros H.
  destruct (startswith (lit "null") (c :: s')) eqn:E1.
  { apply startswith_inv in E1. destruct E1 as [rest E]. injection E as -> _. tauto. }
  destruct (startswith (lit "true") (c :: s')) eqn:E2.
  { apply startswith_inv in E2. destruct E2 as [rest E]. injection E as -> _. tauto. }
  destruct (startswith (lit "false") (c :: s')) eqn:E3.
  { apply startswith_inv in E3. destruct E3 as [rest E]. injection E as -> _. tauto. }
  destruct (startswith (lit "NaN") (c :: s')) eqn:E4.
  { apply startswith_inv in E4. destruct E4 as [rest E]. injection E as -> _. tauto. }
  destruct (startswith (lit "Infinity") (c :: s')) eqn:E5.
  { apply startswith_inv in E5. destruct E5 as [rest E]. injection E as -> _. tauto. }
  destruct (startswith (lit "-Infinity") (c :: s')) eqn:E6.
  { apply startswith_inv in E6. destruct E6 as [rest E]. injection E as -> _. tauto. }
  destruct (match_number (c :: s')) as [[[fl numstr] r0]|] eqn:Em; [|discriminate].
  destruct (match_number_spec _ _ _ _ Em)
    as (E & _ & (sg & ip & rest & -> & Hsg & Hip & Hdig & _) & _).
  destruct Hsg as [->| ->].
  - destruct ip as [|d ip]; [congruence|]. injection E as -> _.
    simpl in Hdig. apply andb_true_iff in Hdig. tauto.
  - injection E as -> _. tauto.
Qed.

Lemma value_start_facts c :
  value_start c -> isspace c = false /\ c <> 96%N /\ c <> 65279%N /\ is_ws c = false.
Proof.
  unfold value_start. intros H.
  repeat (destruct H as [->|H]);
    try (repeat split; try reflexivity; discriminate).
  apply is_digit_cases in H.
  repeat (destruct H as [->|H]); try subst c;
    repeat split; try reflexivity; discriminate.
Qed.

Lemma scan_once_start {RT : PyRuntime} d (c : char) (s' : str) v r :
  scan_once d (c :: s') = SOk (v, r) -> value_start c.
Proof.
  intros H. unfold value_start.
  destruct (N.eqb_spec c DQUOTE) as [?|H1]; [tauto|].
  destruct (N.eqb_spec c (ch "{")) as [?|H2]; [tauto|].
  destruct (N.eqb_spec c (ch "[")) as [?|H3]; [tauto|].
  rewrite scan_once_atom in H by (apply N.eqb_neq; assumption).
  apply scan_atom_start in H. exact H.
Qed.

Lemma scan_once_local_step {RT : PyRuntime} d :
  (forall d', d = S d' -> local (scan_once d')) -> local (scan_once d).
Proof.
  intros Hd s v r H. destruct s as [|c s']; [rewrite scan_once_nil in H; discriminate|].
  destruct (N.eqb_spec c DQUOTE) as [->|H1].
  { rewrite scan_once_string in H. apply sbind_ok in H.
    destruct H as ([x r1] & Hs & H). injection H as <- <-.
    destruct (scanstring_local _ _ (le_n _) _ _ _ Hs) as (c0 & -> & _ & Hloc).
    exists (DQUOTE :: (c0 ++ [DQUOTE])). split; [reflexivity|]. split; [discriminate|]. split.
    - change (DQUOTE :: (c0 ++ [DQUOTE])) with ((DQUOTE :: c0) ++ [DQUOTE]).
      rewrite last_last. reflexivity.
    - intros r' _. cbn [app]. rewrite scan_once_string, Hloc. reflexivity. }
  destruct (N.eqb_spec c (ch "{")) as [->|H2].
  { destruct d as [|d']; [discriminate|]. rewrite scan_once_object in H.
    apply sbind_ok in H. destruct H as ([pairs r1] & Hc & H). injection H as <- <-.
    assert (Hitem : local (parse_member (scan_once d')))
      by (apply parse_member_local; apply Hd; reflexivity).
    destruct (parse_container_local (parse_member (scan_once d')) (ch "}")
                eq_refl eq_refl eq_refl Hitem _ _ _ Hc) as (c & -> & Hne & Hl & Hloc).
    exists (ch "{" :: c). split; [reflexivity|]. split; [discriminate|]. split.
    - destruct c as [|y c]; [congruence|].
      change (ch "{" :: y :: c) with ([ch "{"] ++ y :: c).
      rewrite last_app_cons, Hl. reflexivity.
    - intros r' _. cbn [app]. rewrite scan_once_object, Hloc. reflexivity. }
  destruct (N.eqb_spec c (ch "[")) as [->|H3].
  { destruct d as [|d']; [discriminate|]. rewrite scan_once_array in H.
    apply sbind_ok in H. destruct H as ([values r1] & Hc & H). injection H as <- <-.
    assert (Hitem : local (scan_once d')) by (apply Hd; reflexivity).
    destruct (parse_container_local (scan_once d') (ch "]")
                eq_refl eq_refl eq_refl Hitem _ _ _ Hc) as (c & -> & Hne & Hl & Hloc).
    exists (ch "[" :: c). split; [reflexivity|]. split; [discriminate|]. split.
    - destruct c as [|y c]; [congruence|].
      change (ch "[" :: y :: c) with ([ch "["] ++ y :: c).
      rewrite last_app_cons, Hl. reflexivity.
    - intros r' _. cbn [app]. rewrite scan_once_array, Hloc. reflexivity. }
  apply N.eqb_neq in H1, H2, H3.
  rewrite scan_once_atom in H by assumption.
  destruct (scan_atom_local _ _ _ H) as (c0 & E & Hne & Hl & Hloc).
  exists c0. split; [exact E|]. split; [exact Hne|]. split; [exact Hl|].
  intros r' Hr'. destruct (app_head_eq c0 r c s' Hne (eq_sym E)) as (c0' & ->).
  cbn [app]. rewrite scan_once_atom by assumption. apply (Hloc r' Hr').
Qed.

Lemma scan_once_local {RT : PyRuntime} d : local (scan_once d).
Proof.
  induction d as [|d IH]; apply scan_once_local_step.
  - intros d' E. discriminate.
  - intros d' E. injection E as <-. exact IH.
Qed.

(** ** Valid JSON text *)

Lemma spaces_ws w : forallb is_ws w = true -> forallb isspace w = true.
Proof.
  induction w as [|c w IH]; simpl; [reflexivity|]. intros H.
  apply andb_true_iff in H. destruct H as [Hc Hw].
  rewrite (isspace_ws _ Hc), (IH Hw). reflexivity.
Qed.

Lemma lstrip_app_spaces w t : forallb isspace w = true -> lstrip (w ++ t) = lstrip t.
Proof.
  induction w as [|c w IH]; simpl; [reflexivity|]. intros H.
  apply andb_true_iff in H. destruct H as [Hc Hw]. rewrite Hc. apply IH. exact Hw.
Qed.

(** What [json.loads] accepts it accepts stripped, with the same value, and
    the stripped text does not begin with a fence. *)
Lemma json_loads_strip {RT : PyRuntime} (s : str) v :
  json_loads s = Returns v ->
  json_loads (strip s) = Returns v /\ startswith FENCE (strip s) = false.
Proof.
  unfold json_loads. destruct (startswith [65279%N] s); [discriminate|].
  destruct (scan_once recursion_limit (skip_ws s)) as [[v' r]| | |] eqn:Hscan;
    try discriminate.
  destruct (skip_ws r) eqn:Hr; [|discriminate]. intros H. injection H as ->.
  destruct (skip_ws_decomp s) as (w & Es & Hw).
  destruct (scan_once_local _ _ _ _ Hscan) as (c & Ec & Hne & Hl & Hloc).
  destruct c as [|c0 c]; [congruence|].
  assert (Hstart : value_start c0).
  { rewrite Ec in Hscan. cbn [app] in Hscan. eapply scan_once_start. exact Hscan. }
  destruct (value_start_facts _ Hstart) as (Hsp & Hfence & Hbom & Hws).
  assert (Hstrip : strip s = c0 :: c).
  { unfold strip. rewrite Es, Ec.
    rewrite lstrip_app_spaces by (apply spaces_ws; exact Hw).
    cbn [app]. rewrite lstrip_nonspace by exact Hsp.
    change (c0 :: c ++ r) with ((c0 :: c) ++ r).
    rewrite rstrip_app by (try discriminate; exact Hl).
    rewrite rstrip_all_space, app_nil_r; [reflexivity|].
    apply spaces_ws. apply skip_ws_nil_spaces. exact Hr. }
  rewrite Hstrip. split.
  - cbn [startswith]. destruct (N.eqb_spec c0 65279) as [?|_]; [contradiction|].
    cbn [andb]. rewrite skip_ws_stop by exact Hws.
    specialize (Hloc [] eq_refl). rewrite app_nil_r in Hloc. rewrite Hloc.
    reflexivity.
  - cbn [startswith FENCE lit]. simpl.
    destruct (N.eqb_spec c0 96) as [?|_]; [contradiction|]. reflexivity.
Qed.

(** C6 as the specification words it does not hold: the valid text
    [{'raw_output': 1}] decodes to a mapping that has the key
    [raw_output]. *)
Lemma valid_json_with_diagnostic_key :
  ~ (forall text v,
        @json_loads reference_runtime text = Returns v ->
        exists result,
          @_safe_json reference_runtime text = Returns result
          /\ has_key key_raw_output result = false
          /\ has_key key_parse_error result = false
          /\ has_key key_error_position result = false).
Proof.
  intros H.
  destruct (H (py "{'raw_output': 1}") (PDict [(key_raw_output, PInt 1)]) eq_refl)
    as (result & Hres & Hkey & _).
  vm_compute in Hres. injection Hres as <-. discriminate.
Qed.

(** C6, amended.  For every input that is valid JSON text (no fence can
    surround it), the decoder returns the decoded value of that text and
    builds no diagnostic mapping: the result has the keys [raw_output],
    [parse_error], [error_position] only where the text itself has them. *)
Theorem valid_json_decoded {RT : PyRuntime} (text : str) (v : pyval) :
  json_loads text = Returns v ->
  _safe_json text = Returns v
  /\ defence text = strip text
  /\ json_loads (defence text) = Returns v.
Proof.
  intros H. destruct (json_loads_strip _ _ H) as [Hl Hf].
  assert (Hd : defence text = strip text) by (unfold defence; rewrite Hf; reflexivity).
  unfold _safe_json, decode_or_repair. rewrite Hd, Hl. auto.
Qed.

Lemma valid_json_decoded_witness :
  @_safe_json reference_runtime (py "  {'a': [1, 2.5, null], 'b': 'x'} ")
  = Returns (PDict [(py "a", PList [PInt 1; PFloat (py "2.5"); PNone]);
                    (py "b", PStr (py "x"))]).
Proof.
  apply (@valid_json_decoded reference_runtime
           (py "  {'a': [1, 2.5, null], 'b': 'x'} ")).
  reflexivity.
Defined.

(** ** What the scanner raises, and when *)

Lemma local_shorter {A : Type} (p : str -> sres (A * str)) s x r :
  local p -> p s = SOk (x, r) -> length r < length s.
Proof.
  intros Hp H. destruct (Hp _ _ _ H) as (c & -> & Hc & _).
  rewrite length_app. destruct c; [congruence|]. simpl. lia.
Qed.

Lemma quiet_scons {A : Type} c (m : sres (str * A)) : quiet m -> quiet (scons c m).
Proof.
  intros [[[x r] ->]|(msg & rem & ->)]; [left|right]; simpl; eauto.
Qed.

Lemma scanstring_quiet n : forall (s : str), length s <= n -> forall b,
  quiet (scanstring b s).
Proof.
  induction n as [|n IH]; intros s Hn b.
  { destruct s; [right; simpl; eauto|simpl in Hn; lia]. }
  destruct s as [|c s1]; [right; simpl; eauto|]. simpl in Hn.
  destruct (N.eqb_spec c DQUOTE) as [->|Hq]; [left; rewrite scanstring_quote; eauto|].
  destruct (N.eqb_spec c BACKSLASH) as [->|Hb].
  2:{ rewrite scanstring_plain by (apply N.eqb_neq; assumption).
      destruct (c <=? 31)%N; [right; eauto|]. apply quiet_scons. apply IH. lia. }
  destruct s1 as [|e s2]; [right; simpl; eauto|]. simpl in Hn.
  destruct (N.eqb_spec e (ch "u")) as [->|Hu].
  2:{ rewrite scanstring_escape by (apply N.eqb_neq; assumption).
      destruct (unescape e); [|right; eauto]. apply quiet_scons. apply IH. lia. }
  destruct s2 as [|h1 [|h2 [|h3 [|h4 [|y t]]]]]; try (right; simpl; eauto; fail).
  simpl in Hn. rewrite scanstring_u.
  destruct (hex4 h1 h2 h3 h4) as [uni|]; [|right; eauto].
  assert (Hrec : quiet (scanstring b (y :: t))) by (apply IH; simpl; lia).
  destruct (is_high_surrogate uni); [|apply quiet_scons; exact Hrec].
  destruct (lookahead_pair (y :: t)) as [[uni2|]|] eqn:Ela;
    [|right; eauto|apply quiet_scons; exact Hrec].
  destruct (is_low_surrogate uni2); [|apply quiet_scons; exact Hrec].
  apply quiet_scons. apply IH.
  destruct (lookahead_pair_some _ _ Ela) as (g1 & g2 & g3 & g4 & y' & t' & E & _).
  rewrite E. injection E as -> ->. simpl in *. lia.
Qed.

Section ItemsFail.
Context {A : Type} (item : str -> sres (A * str)) (close : char) (n : nat).
Hypothesis item_local : local item.
Hypothesis item_fail : sound_fail n item.

Lemma parse_items_fail k : forall s,
  length s < k ->
  parse_items item close k s <> SBound
  /\ forall e, parse_items item close k s = SRaise e ->
               known_exception e /\ n < length s.
Proof.
  induction k as [|k IH]; intros s Hk; [lia|].
  cbn [parse_items]. destruct (item_fail s) as [Hb Hr].
  destruct (item s) as [[x r1]|msg rem|e|] eqn:Hitem; cbn [sbind].
  - pose proof (local_shorter _ _ _ _ item_local Hitem) as Hlen.
    destruct (skip_ws_decomp r1) as (w & Er1 & _).
    destruct (skip_ws r1) as [|cc r2] eqn:Esk; [split; [discriminate|intros; discriminate]|].
    destruct (cc =? close)%N; [split; [discriminate|intros; discriminate]|].
    destruct (cc =? ch ",")%N; [|split; [discriminate|intros; discriminate]].
    assert (Hlen2 : length (skip_ws r2) < length r1).
    { rewrite Er1, length_app. pose proof (skip_ws_length r2). simpl. lia. }
    destruct (IH (skip_ws r2) ltac:(lia)) as [Hb2 Hr2].
    destruct (parse_items item close k (skip_ws r2)) as [[xs r'']|msg rem|e|];
      cbn [sbind]; split; try discriminate; try (intros; discriminate).
    + intros e' E. injection E as <-.
      destruct (Hr2 e eq_refl) as [He Hn]. split; [exact He|lia].
    + congruence.
  - split; [discriminate|intros; discriminate].
  - split; [discriminate|]. intros e' E. injection E as <-. apply Hr. reflexivity.
  - congruence.
Qed.

Lemma parse_container_fail : sound_fail n (parse_container item close).
Proof.
  intros s. unfold parse_container.
  pose proof (skip_ws_length s) as Hlen.
  destruct (skip_ws s) as [|cc s1] eqn:Esk.
  - destruct (parse_items_fail 1 [] ltac:(simpl; lia)) as [Hb Hr].
    split; [exact Hb|]. intros e E. destruct (Hr e E) as [He Hn]. simpl in Hn. lia.
  - destruct (cc =? close)%N; [split; [discriminate|intros; discriminate]|].
    destruct (parse_items_fail (S (length (cc :: s1))) (cc :: s1) ltac:(lia)) as [Hb Hr].
    split; [exact Hb|]. intros e E. destruct (Hr e E) as [He Hn]. split; [exact He|lia].
Qed.
End ItemsFail.

Lemma parse_member_fail {V : Type} (scan : str -> sres (V * str)) n :
  sound_fail n scan -> sound_fail n (parse_member scan).
Proof.
  intros Hscan s. unfold parse_member.
  destruct s as [|c s1]; [split; [discriminate|intros; discriminate]|].
  destruct (c =? DQUOTE)%N; [|split; [discriminate|intros; discriminate]].
  destruct (scanstring_quiet _ s1 (le_n _) (length (c :: s1)))
    as [[[key r1] Hk]|(msg & rem & Hk)]; rewrite Hk; cbn [sbind];
    [|split; [discriminate|intros; discriminate]].
  destruct (scanstring_local _ _ (le_n _) _ _ _ Hk) as (c0 & E & _).
  destruct (skip_ws_decomp r1) as (w & Er1 & _).
  destruct (skip_ws r1) as [|c2 r2] eqn:Esk; [split; [discriminate|intros; discriminate]|].
  destruct (c2 =? ch ":")%N; [|split; [discriminate|intros; discriminate]].
  destruct (Hscan (skip_ws r2)) as [Hb Hr].
  assert (Hlen : length (skip_ws r2) < length (c :: s1)).
  { pose proof (skip_ws_length r2). rewrite E, Er1. simpl.
    rewrite !length_app. simpl. lia. }
  destruct (scan (skip_ws r2)) as [[v r'']|msg rem|e|]; cbn [sbind];
    split; try discriminate; try (intros; discriminate); try congruence.
  intros e' E'. injection E' as <-. destruct (Hr e eq_refl) as [He Hn].
  split; [exact He|lia].
Qed.

Lemma too_many_digits_mono {RT : PyRuntime} a b :
  a <= b -> too_many_digits b = false -> too_many_digits a = false.
Proof.
  unfold too_many_digits. intros Hab H.
  destruct (Nat.ltb_spec 640 a); [|reflexivity].
  destruct (Nat.ltb_spec 0 int_max_str_digits); [|reflexivity].
  destruct (Nat.ltb_spec int_max_str_digits a); [|reflexivity].
  destruct (Nat.ltb_spec 640 b); [|lia].
  destruct (Nat.ltb_spec int_max_str_digits b); [|lia].
  discriminate.
Qed.

Lemma number_sign_length (s : str) : length (snd (number_sign s)) <= length s.
Proof.
  unfold number_sign. destruct s as [|c s]; [simpl; lia|].
  destruct (c =? ch "-")%N; simpl; lia.
Qed.

Lemma scan_atom_fail {RT : PyRuntime} n :
  too_many_digits n = false -> sound_fail n scan_atom.
Proof.
  intros Hn s. unfold scan_atom.
  repeat (match goal with
          | |- context [if startswith ?l s then _ else _] =>
              destruct (startswith l s);
              [split; [discriminate|intros; discriminate]|]
          end).
  destruct (match_number s) as [[[fl numstr] r]|] eqn:Em;
    [|split; [discriminate|intros; discriminate]].
  destruct fl; [split; [discriminate|intros; discriminate]|].
  destruct (too_many_digits (length (snd (number_sign numstr)))) eqn:Et;
    [|split; [discriminate|intros; discriminate]].
  split; [discriminate|]. intros e E. injection E as <-.
  split; [right; reflexivity|].
  destruct (match_number_spec _ _ _ _ Em) as (-> & _).
  destruct (Nat.ltb_spec n (length (numstr ++ r))) as [?|Hle]; [assumption|].
  exfalso. rewrite length_app in Hle.
  pose proof (number_sign_length numstr).
  rewrite (too_many_digits_mono _ n) in Et; [discriminate|lia|exact Hn].
Qed.

Lemma scan_once_fail {RT : PyRuntime} d : forall n,
  n <= d -> too_many_digits n = false -> sound_fail n (scan_once d).
Proof.
  induction d as [|d IH]; intros n Hnd Hn s.
  - destruct s as [|c s']; [rewrite scan_once_nil; split; [discriminate|intros; discriminate]|].
    destruct (N.eqb_spec c DQUOTE) as [->|H1].
    { rewrite scan_once_string.
      destruct (scanstring_quiet _ s' (le_n _) (length (DQUOTE :: s')))
        as [[[x r] ->]|(msg & rem & ->)]; cbn [sbind];
        split; try discriminate; intros; discriminate. }
    destruct (N.eqb_spec c (ch "{")) as [->|H2].
    { cbn [scan_once]. change (ch "{" =? DQUOTE)%N with false.
      change (ch "{" =? ch "{")%N with true. cbv iota.
      split; [discriminate|]. intros e E. injection E as <-.
      split; [left; reflexivity|simpl; lia]. }
    destruct (N.eqb_spec c (ch "[")) as [->|H3].
    { cbn [scan_once]. change (ch "[" =? DQUOTE)%N with false.
      change (ch "[" =? ch "{")%N with false.
      change (ch "[" =? ch "[")%N with true. cbv iota.
      split; [discriminate|]. intros e E. injection E as <-.
      split; [left; reflexivity|simpl; lia]. }
    rewrite scan_once_atom by (apply N.eqb_neq; assumption).
    apply scan_atom_fail. exact Hn.
  - assert (Hitem : sound_fail (n - 1) (scan_once d)).
    { apply IH; [lia|]. apply (too_many_digits_mono _ n); [lia|exact Hn]. }
    destruct s as [|c s']; [rewrite scan_once_nil; split; [discriminate|intros; discriminate]|].
    destruct (N.eqb_spec c DQUOTE) as [->|H1].
    { rewrite scan_once_string.
      destruct (scanstring_quiet _ s' (le_n _) (length (DQUOTE :: s')))
        as [[[x r] ->]|(msg & rem & ->)]; cbn [sbind];
        split; try discriminate; intros; discriminate. }
    destruct (N.eqb_spec c (ch "{")) as [->|H2].
    { rewrite scan_once_object.
      destruct (parse_container_fail (parse_member (scan_once d)) (ch "}") (n - 1)
                  (parse_member_local _ (scan_once_local d))
                  (parse_member_fail _ _ Hitem) s') as [Hb Hr].
      destruct (parse_container (parse_member (scan_once d)) (ch "}") s')
        as [[pairs r]|msg rem|e|]; cbn [sbind];
        split; try discriminate; try (intros; discriminate); try congruence.
      intros e' E. injection E as <-. destruct (Hr e eq_refl) as [He Hlen].
      split; [exact He|simpl; lia]. }
    destruct (N.eqb_spec c (ch "[")) as [->|H3].
    { rewrite scan_once_array.
      destruct (parse_container_fail (scan_once d) (ch "]") (n - 1)
                  (scan_once_local d) Hitem s') as [Hb Hr].
      destruct (parse_container (scan_once d) (ch "]") s')
        as [[values r]|msg rem|e|]; cbn [sbind];
        split; try discriminate; try (intros; discriminate); try congruence.
      intros e' E. injection E as <-. destruct (Hr e eq_refl) as [He Hlen].
      split; [exact He|simpl; lia]. }
    rewrite scan_once_atom by (apply N.eqb_neq; assumption).
    apply scan_atom_fail. exact Hn.
Qed.

(** ** What [json.loads] and the decoder raise *)

Lemma json_loads_doc {RT : PyRuntime} (s : str) msg doc pos :
  json_loads s = Raises (JSONDecodeError msg doc pos) -> doc = s.
Proof.
  unfold json_loads. destruct (startswith [65279%N] s); [congruence|].
  pose proof (scan_once_fail recursion_limit 0 (Nat.le_0_l _) eq_refl (skip_ws s)) as [_ Hr].
  destruct (scan_once recursion_limit (skip_ws s)) as [[v r]|m rem|e|]; try discriminate.
  - destruct (skip_ws r); [discriminate|congruence].
  - congruence.
  - intros E. injection E as ->. destruct (Hr _ eq_refl) as [[He|He] _]; discriminate.
Qed.

(** [json.loads] never ends at the loop bound; besides [JSONDecodeError] it
    raises only [RecursionError] and [ValueError], and these only on a text
    longer than any length within both limits. *)
Lemma json_loads_fail {RT : PyRuntime} n (s : str) :
  n <= recursion_limit -> too_many_digits n = false ->
  json_loads s <> LoopBound
  /\ forall e, json_loads s = Raises e ->
               (exists msg pos, e = JSONDecodeError msg s pos)
               \/ (known_exception e /\ n < length s).
Proof.
  intros Hn Hd. unfold json_loads.
  destruct (startswith [65279%N] s).
  { split; [discriminate|]. intros e E. injection E as <-. left. eauto. }
  destruct (scan_once_fail recursion_limit n Hn Hd (skip_ws s)) as [Hb Hr].
  pose proof (skip_ws_length s) as Hlen.
  destruct (scan_once recursion_limit (skip_ws s)) as [[v r]|m rem|e|].
  - destruct (skip_ws r); split; try discriminate.
    intros e E. injection E as <-. left. eauto.
  - split; [discriminate|]. intros e E. injection E as <-. left. eauto.
  - split; [discriminate|]. intros e' E. injection E as <-. right.
    destruct (Hr e eq_refl) as [He Hl]. split; [exact He|lia].
  - congruence.
Qed.

Lemma lstrip_length s : length (lstrip s) <= length s.
Proof.
  induction s as [|c s IH]; simpl; [lia|]. destruct (isspace c); simpl; lia.
Qed.

Lemma rstrip_length s : length (rstrip s) <= length s.
Proof.
  induction s as [|c s IH]; simpl; [lia|].
  destruct (rstrip s); [destruct (isspace c)|]; simpl in *; lia.
Qed.

Lemma strip_length s : length (strip s) <= length s.
Proof.
  unfold strip. pose proof (rstrip_length (lstrip s)). pose proof (lstrip_length s). lia.
Qed.

Lemma rstrip_char_length c s : length (rstrip_char c s) <= length s.
Proof.
  induction s as [|x s IH]; simpl; [lia|].
  destruct (rstrip_char c s); [destruct (x =? c)%N|]; simpl in *; lia.
Qed.

Lemma lines_size_app a b : lines_size (a ++ b) = lines_size a + lines_size b.
Proof. induction a as [|l a IH]; simpl; [reflexivity|]. rewrite IH. lia. Qed.

Lemma join_length c ls : length (join [c] ls) = lines_size ls - 1.
Proof.
  induction ls as [|l ls IH]; [reflexivity|].
  destruct ls as [|l' ls]; [simpl; lia|].
  change (join [c] (l :: l' :: ls)) with (l ++ [c] ++ join [c] (l' :: ls)).
  rewrite !length_app, IH. simpl. lia.
Qed.

Lemma fence_loop_size lines : forall b acc,
  lines_size (fence_loop lines b acc) <= lines_size acc + lines_size lines.
Proof.
  induction lines as [|line lines IH]; intros b acc; [simpl; lia|].
  cbn [fence_loop].
  change (lines_size (line :: lines)) with (S (length line) + lines_size lines).
  destruct (startswith FENCE (strip line) && negb b).
  - pose proof (IH true acc). lia.
  - destruct (str_eqb (strip line) FENCE); [lia|]. destruct b.
    + pose proof (IH true (acc ++ [line])) as H.
      rewrite lines_size_app in H. simpl in H. lia.
    + pose proof (IH false acc). lia.
Qed.

Lemma defence_length text : length (defence text) <= length text.
Proof.
  unfold defence. pose proof (strip_length text) as Hs.
  destruct (startswith FENCE (strip text)); [|exact Hs].
  rewrite join_length.
  pose proof (fence_loop_size (split NL (strip text)) false []) as H.
  pose proof (join_length NL (split NL (strip text))) as Hj.
  rewrite join_split in Hj. simpl in H. lia.
Qed.

Lemma count_pair_length a b s :
  a <> b -> count a s + count b s <= length s.
Proof.
  intros Hab. induction s as [|x s IH]; simpl; [lia|].
  destruct (N.eqb_spec x a), (N.eqb_spec x b); lia.
Qed.

Lemma truncate_text_length t : length (truncate_text t) <= length t.
Proof.
  unfold truncate_text. destruct (string_scan t 0 false false 0) as [ins pos].
  destruct (ins && (0 <? pos)); [|lia]. rewrite length_firstn. lia.
Qed.

Lemma try_fix_json_length text fixed :
  _try_fix_json text = Some fixed -> length fixed <= 2 * length text.
Proof.
  unfold _try_fix_json. destruct text as [|x text]; [discriminate|].
  destruct (unbalanced (strip (x :: text))); [|discriminate].
  intros H. injection H as <-.
  set (cut := truncate_text (strip (x :: text))).
  pose proof (truncate_text_length (strip (x :: text))) as H1.
  pose proof (strip_length (x :: text)) as H2.
  pose proof (rstrip_char_length (ch ",") cut) as H3.
  pose proof (count_pair_length (ch "[") (ch "{") cut ltac:(discriminate)) as H4.
  rewrite !length_app. unfold str_mul. rewrite !repeat_length.
  change (length cut <= length (strip (x :: text))) in H1.
  change (ch ",") with 44%N in *. change (ch "[") with 91%N in *.
  change (ch "{") with 123%N in *. lia.
Qed.

(** C4 as the specification words it does not hold: on a thousand and one
    open-brackets [json.loads] raises [RecursionError], which
    [_safe_json] does not catch. *)
Lemma deep_nesting_raises :
  ~ (forall text, exists v, @_safe_json reference_runtime text = Returns v).
Proof.
  intros H. destruct (H (repeat (ch "[") 1001)) as [v Hv].
  vm_compute in Hv. discriminate.
Qed.

Lemma json_loads_cases {RT : PyRuntime} (s : str) :
  (exists v, json_loads s = Returns v)
  \/ (exists msg pos, json_loads s = Raises (JSONDecodeError msg s pos))
  \/ (exists e, json_loads s = Raises e /\ known_exception e).
Proof.
  destruct (json_loads_fail 0 s (Nat.le_0_l _) eq_refl) as [Hb Hr].
  destruct (json_loads s) as [v|e|] eqn:E; [left; eauto| |congruence].
  destruct (Hr e eq_refl) as [(msg & pos & ->)|[He _]]; [right; left; eauto|].
  right. right. eauto.
Qed.

(** C4, amended.  The decoder never lets a [JSONDecodeError] out, and its
    loops end.  It raises exactly when one of its two calls of [json.loads]
    raises [RecursionError] or [ValueError]; it returns a value for every
    input of at most half as many characters as the recursion limit and the
    integer digit limit allow.  Whenever strict decoding fails with a decode
    error and the repair gives no candidate, an empty one, or one that fails
    with a decode error, the result is the mapping with [raw_output] the
    de-fenced text, [parse_error] the description of the strict failure and
    [error_position] its offset; so it is for the empty string. *)
Theorem decoder_outcomes {RT : PyRuntime} (text : str) :
  _safe_json text <> LoopBound
  /\ (forall e, _safe_json text = Raises e ->
        known_exception e
        /\ (json_loads (defence text) = Raises e
            \/ exists msg pos fixed,
                 json_loads (defence text)
                 = Raises (JSONDecodeError msg (defence text) pos)
                 /\ _try_fix_json (defence text) = Some fixed
                 /\ json_loads fixed = Raises e))
  /\ (2 * length text <= recursion_limit ->
      too_many_digits (2 * length text) = false ->
      exists v, _safe_json text = Returns v)
  /\ (forall msg doc pos,
        json_loads (defence text) = Raises (JSONDecodeError msg doc pos) ->
        (forall fixed, _try_fix_json (defence text) = Some fixed ->
                       fixed = []
                       \/ exists msg' doc' pos',
                            json_loads fixed = Raises (JSONDecodeError msg' doc' pos')) ->
        doc = defence text
        /\ _safe_json text
           = Returns (PDict [(key_raw_output, PStr (defence text));
                             (key_parse_error, PStr (errmsg msg (defence text) pos));
                             (key_error_position, PInt (Z.of_nat pos))]))
  /\ _safe_json []
     = Returns (PDict [(key_raw_output, PStr []);
                       (key_parse_error,
                        PStr (lit "Expecting value: line 1 column 1 (char 0)"));
                       (key_error_position, PInt 0)]).
Proof.
  unfold _safe_json, decode_or_repair. set (t := defence text).
  assert (Hcases : forall s, match json_loads s with
                             | Returns _ => True
                             | Raises (JSONDecodeError _ doc _) => doc = s
                             | Raises _ => True
                             | LoopBound => False
                             end).
  { intros s. destruct (json_loads_cases s) as [[v ->]|[(m & p & ->)|(e & -> & [->| ->])]]; auto. }
  split; [|split; [|split; [|split]]].
  - pose proof (Hcases t) as H1.
    destruct (json_loads t) as [v|[msg doc pos| |]|]; try discriminate; [|contradiction].
    destruct (_try_fix_json t) as [[|y fixed]|]; try discriminate.
    pose proof (Hcases (y :: fixed)) as H2.
    destruct (json_loads (y :: fixed)) as [v|[msg' doc' pos'| |]|];
      try discriminate. contradiction.
  - intros e. pose proof (Hcases t) as H1.
    destruct (json_loads t) as [v|[msg doc pos| |]|] eqn:E1; try discriminate.
    + subst doc. destruct (_try_fix_json t) as [[|y fixed]|] eqn:E2; try discriminate.
      pose proof (Hcases (y :: fixed)) as H2.
      destruct (json_loads (y :: fixed)) as [v|[msg' doc' pos'| |]|] eqn:E3;
        try discriminate.
      * intros E. injection E as <-. split; [left; reflexivity|].
        right. exists msg, pos, (y :: fixed). auto.
      * intros E. injection E as <-. split; [right; reflexivity|].
        right. exists msg, pos, (y :: fixed). auto.
    + intros E. injection E as <-. split; [left; reflexivity|left; reflexivity].
    + intros E. injection E as <-. split; [right; reflexivity|left; reflexivity].
  - intros Hlim Hdig. pose proof (defence_length text) as Hlen. fold t in Hlen.
    destruct (json_loads_fail (2 * length text) t Hlim Hdig) as [Hb1 Hr1].
    destruct (json_loads t) as [v|e|] eqn:E1; [eauto| |congruence].
    destruct (Hr1 e eq_refl) as [(msg & pos & ->)|[_ Hn]]; [|lia].
    destruct (_try_fix_json t) as [[|y fixed]|] eqn:E2; eauto.
    pose proof (try_fix_json_length _ _ E2) as Hlen2.
    destruct (json_loads_fail (2 * length text) (y :: fixed) Hlim Hdig) as [Hb2 Hr2].
    destruct (json_loads (y :: fixed)) as [v|e|] eqn:E3; [eauto| |congruence].
    destruct (Hr2 e eq_refl) as [(msg' & pos' & ->)|[_ Hn]]; [eauto|lia].
  - intros msg doc pos E1 Hfix. pose proof (json_loads_doc _ _ _ _ E1) as ->.
    split; [reflexivity|]. rewrite E1.
    destruct (_try_fix_json t) as [[|y fixed]|] eqn:E2; try reflexivity.
    destruct (Hfix _ eq_refl) as [E|(msg' & doc' & pos' & ->)]; [discriminate|].
    reflexivity.
  - change (defence []) with (@nil char). unfold json_loads.
    cbn [startswith skip_ws]. rewrite scan_once_nil. reflexivity.
Qed.

Lemma decoder_outcomes_witness :
  exists v, @_safe_json reference_runtime truncated_input = Returns v.
Proof.
  apply (@decoder_outcomes reference_runtime truncated_input); [simpl; lia|reflexivity].
Defined.

(** ** What [json.dumps] writes, [json.loads] reads back *)

(** Linear arithmetic with division and remainder by constants. *)
Ltac div_lia := zify; Z.to_euclidean_division_equations; lia.

Lemma hex_val_digit (k : N) : (k < 16)%N -> hex_val (hex_digit k) = Some k.
Proof.
  intros H. unfold hex_val, hex_digit, is_digit.
  destruct (N.ltb_spec k 10).
  - replace (48 <=? 48 + k)%N with true by (symmetry; apply N.leb_le; lia).
    replace (48 + k <=? 57)%N with true by (symmetry; apply N.leb_le; lia).
    cbn [andb]. f_equal. lia.
  - replace (87 + k <=? 57)%N with false by (symmetry; apply N.leb_gt; lia).
    replace (97 <=? 87 + k)%N with true by (symmetry; apply N.leb_le; lia).
    replace (87 + k <=? 102)%N with true by (symmetry; apply N.leb_le; lia).
    rewrite andb_false_r. cbn [andb]. f_equal. lia.
Qed.

Lemma u_escape_hex (n : N) :
  (n < 65536)%N ->
  exists h1 h2 h3 h4,
    u_escape n = [BACKSLASH; ch "u"; h1; h2; h3; h4]
    /\ hex4 h1 h2 h3 h4 = Some n.
Proof.
  intros H. do 4 eexists. split; [reflexivity|].
  unfold hex4. rewrite !hex_val_digit by div_lia. f_equal. div_lia.
Qed.

Lemma scanstring_u_escape b (n : N) (y : char) (t : str) :
  (n < 65536)%N ->
  scanstring b (u_escape n ++ y :: t)
  = if is_high_surrogate n then
      match lookahead_pair (y :: t) with
      | Some None => SErr msg_uXXXX (length t)
      | Some (Some uni2) =>
          if is_low_surrogate uni2
          then scons (join_surrogates n uni2) (scanstring b (skipn 6 (y :: t)))
          else scons n (scanstring b (y :: t))
      | None => scons n (scanstring b (y :: t))
      end
    else scons n (scanstring b (y :: t)).
Proof.
  intros H. destruct (u_escape_hex n H) as (h1 & h2 & h3 & h4 & -> & E).
  cbn [app]. rewrite scanstring_u, E. reflexivity.
Qed.

Lemma lookahead_u_escape (n : N) (y : char) (t : str) :
  (n < 65536)%N -> lookahead_pair (u_escape n ++ y :: t) = Some (Some n).
Proof.
  intros H. destruct (u_escape_hex n H) as (h1 & h2 & h3 & h4 & -> & E).
  cbn [app]. unfold lookahead_pair. rewrite !N.eqb_refl. simpl. now rewrite E.
Qed.

(** The two halves [encode_basestring_ascii] writes for a code point
    outside the basic plane. *)
Lemma lor_surrogate_base (y : N) :
  (y < 1024)%N ->
  N.lor 55296 y = (55296 + y)%N /\ N.lor 56320 y = (56320 + y)%N.
Proof.
  intros H.
  assert (A : forallb (fun y => (N.lor 55296 y =? 55296 + y)
                                && (N.lor 56320 y =? 56320 + y))%N
                      (map N.of_nat (seq 0 1024)) = true)
    by (vm_compute; reflexivity).
  rewrite forallb_forall in A. specialize (A y).
  rewrite andb_true_iff, !N.eqb_eq in A. apply A.
  apply in_map_iff. exists (N.to_nat y). split; [lia|].
  apply in_seq. lia.
Qed.

Lemma surrogate_halves (c : char) :
  (65536 <= c <= 1114111)%N ->
  N.lor 55296 (N.land (N.shiftr (c - 65536) 10) 1023)
  = (55296 + (c - 65536) / 1024)%N
  /\ N.lor 56320 (N.land (c - 65536) 1023) = (56320 + (c - 65536) mod 1024)%N.
Proof.
  intros H. change 1023%N with (N.ones 10).
  rewrite !N.land_ones, N.shiftr_div_pow2. change (2 ^ 10)%N with 1024%N.
  replace (((c - 65536) / 1024) mod 1024)%N with ((c - 65536) / 1024)%N by div_lia.
  split; apply lor_surrogate_base; div_lia.
Qed.

(** The four shapes of the text written for one character. *)
Lemma escape_char_cases (c : char) :
  valid_char c ->
  (exists e, escape_char c = [BACKSLASH; e] /\ (e =? ch "u")%N = false
             /\ unescape e = Some c)
  \/ (escape_char c = [c] /\ (c =? DQUOTE)%N = false
      /\ (c =? BACKSLASH)%N = false /\ (c <=? 31)%N = false)
  \/ (escape_char c = u_escape c /\ (c < 65536)%N)
  \/ (exists hi lo, escape_char c = u_escape hi ++ u_escape lo
                    /\ is_high_surrogate hi = true /\ is_low_surrogate lo = true
                    /\ join_surrogates hi lo = c).
Proof.
  intros V. unfold valid_char in V. unfold escape_char.
  destruct (N.eqb_spec c BACKSLASH) as [->|N1];
    [left; exists BACKSLASH; repeat split; reflexivity|].
  destruct (N.eqb_spec c DQUOTE) as [->|N2];
    [left; exists DQUOTE; repeat split; reflexivity|].
  destruct (N.eqb_spec c 8) as [->|N3];
    [left; exists (ch "b"); repeat split; reflexivity|].
  destruct (N.eqb_spec c 12) as [->|N4];
    [left; exists (ch "f"); repeat split; reflexivity|].
  destruct (N.eqb_spec c 10) as [->|N5];
    [left; exists (ch "n"); repeat split; reflexivity|].
  destruct (N.eqb_spec c 13) as [->|N6];
    [left; exists (ch "r"); repeat split; reflexivity|].
  destruct (N.eqb_spec c 9) as [->|N7];
    [left; exists (ch "t"); repeat split; reflexivity|].
  destruct ((32 <=? c) && (c <=? 126))%N eqn:P.
  - right; left. apply andb_true_iff in P. destruct P as [P1 P2].
    apply N.leb_le in P1. repeat split. apply N.leb_gt. lia.
  - destruct (N.ltb_spec c 65536) as [L|L]; [right; right; left; now split|].
    right; right; right.
    destruct (surrogate_halves c (conj L V)) as [E1 E2].
    cbv zeta. rewrite E1, E2.
    exists (55296 + (c - 65536) / 1024)%N, (56320 + (c - 65536) mod 1024)%N.
    unfold is_high_surrogate, is_low_surrogate, join_surrogates.
    repeat split.
    + apply andb_true_iff; split; apply N.leb_le; div_lia.
    + apply andb_true_iff; split; apply N.leb_le; div_lia.
    + div_lia.
Qed.

Lemma surrogate_range (n : N) :
  is_high_surrogate n = true \/ is_low_surrogate n = true -> (n < 65536)%N.
Proof.
  unfold is_high_surrogate, is_low_surrogate.
  rewrite !andb_true_iff, !N.leb_le. lia.
Qed.

Lemma surrogate_high_not_low (n : N) :
  is_high_surrogate n = true -> is_low_surrogate n = false.
Proof.
  unfold is_high_surrogate, is_low_surrogate.
  rewrite andb_true_iff, andb_false_iff, !N.leb_le, !N.leb_gt. lia.
Qed.

Lemma encoded_nonempty (s r : str) :
  exists y t, flat_map escape_char s ++ DQUOTE :: r = y :: t.
Proof. destruct (flat_map escape_char s); simpl; eauto. Qed.

(** What the scanner sees when it looks ahead for the second half of a
    pair, in the text written for [s]: a low surrogate only where [s] itself
    goes on with one. *)
Lemma lookahead_encoded (s r : str) :
  valid_str s ->
  match lookahead_pair (flat_map escape_char s ++ DQUOTE :: r) with
  | None => True
  | Some None => False
  | Some (Some u) =>
      is_low_surrogate u = true ->
      exists c s', s = c :: s' /\ is_low_surrogate c = true
  end.
Proof.
  intros V. destruct s as [|c s].
  - cbn [flat_map app]. destruct r; exact I.
  - inversion V as [|? ? Vc Vs]; subst.
    cbn [flat_map]. rewrite <- app_assoc.
    destruct (encoded_nonempty s r) as (y & t & ->).
    destruct (escape_char_cases c Vc)
      as [(e & -> & Eu & _)|[(-> & _ & B & _)|[(-> & Lt)|(hi & lo & -> & Hi & Lo & _)]]].
    + cbn [app]. unfold lookahead_pair. now rewrite Eu, andb_false_r.
    + cbn [app]. unfold lookahead_pair. now rewrite B.
    + rewrite lookahead_u_escape by exact Lt. eauto.
    + rewrite <- app_assoc.
      destruct (u_escape_hex lo (surrogate_range lo (or_intror Lo)))
        as (g1 & g2 & g3 & g4 & -> & _).
      cbn [app]. rewrite lookahead_u_escape by (apply surrogate_range; now left).
      rewrite (surrogate_high_not_low hi Hi). discriminate.
Qed.

(** A string without a high surrogate directly before a low one is read
    back from its encoding. *)
Lemma scanstring_encoded (s : str) :
  valid_str s -> surrogate_pair_free s = true ->
  forall b r, scanstring b (flat_map escape_char s ++ DQUOTE :: r) = SOk (s, r).
Proof.
  induction s as [|c s IH]; intros V F b r.
  - apply scanstring_quote.
  - inversion V as [|? ? Vc Vs]; subst.
    assert (Fs : surrogate_pair_free s = true)
      by (cbn [surrogate_pair_free] in F; apply andb_true_iff in F; tauto).
    specialize (IH Vs Fs b r).
    pose proof (lookahead_encoded s r Vs) as LA.
    cbn [flat_map]. rewrite <- app_assoc.
    destruct (encoded_nonempty s r) as (y & t & E). rewrite E in *.
    destruct (escape_char_cases c Vc)
      as [(e & -> & Eu & Un)|[(-> & Q & B & C)|[(-> & Lt)|(hi & lo & -> & Hi & Lo & J)]]].
    + cbn [app]. rewrite scanstring_escape, Un by exact Eu. now rewrite IH.
    + cbn [app]. rewrite scanstring_plain, C by assumption. now rewrite IH.
    + rewrite scanstring_u_escape by exact Lt.
      destruct (is_high_surrogate c) eqn:H; [|now rewrite IH].
      destruct (lookahead_pair (y :: t)) as [[u|]|]; [|destruct LA|now rewrite IH].
      destruct (is_low_surrogate u) eqn:L; [|now rewrite IH].
      destruct (LA eq_refl) as (c' & s' & -> & L').
      cbn [surrogate_pair_free] in F. rewrite H, L' in F. discriminate.
    + rewrite <- app_assoc.
      destruct (u_escape_hex lo (surrogate_range lo (or_intror Lo)))
        as (g1 & g2 & g3 & g4 & El & Hl).
      pose proof (lookahead_u_escape lo y t (surrogate_range lo (or_intror Lo))) as LP.
      rewrite El in *. cbn [app] in *.
      rewrite scanstring_u_escape by (apply surrogate_range; now left).
      rewrite Hi, LP, Lo. cbn [skipn]. now rewrite IH, J.
Qed.

Lemma scan_once_encoded {RT : PyRuntime} d (s r : str) :
  valid_str s -> surrogate_pair_free s = true ->
  scan_once d (encode_basestring_ascii s ++ r) = SOk (PStr s, r).
Proof.
  intros V F. unfold encode_basestring_ascii. cbn [app].
  rewrite scan_once_string, <- app_assoc. cbn [app].
  now rewrite scanstring_encoded.
Qed.

(** *** Numbers *)

Lemma number_int_canonical (n : N) :
  number_int (str_of_N n) = Some (str_of_N n, []).
Proof.
  pose proof (str_of_N_digits n) as D.
  destruct (str_of_N_canonical n) as [E|(c & ds & E & C)]; rewrite E in *.
  - reflexivity.
  - unfold number_int. rewrite C.
    cbn [forallb] in D. apply andb_true_iff in D. destruct D as [_ D].
    pose proof (span_digits_app ds [] D I) as S. rewrite app_nil_r in S.
    now rewrite S.
Qed.

Lemma str_of_N_head (n : N) :
  exists c ds, str_of_N n = c :: ds /\ is_digit c = true.
Proof.
  pose proof (str_of_N_digits n) as D.
  destruct (str_of_N n) as [|c ds] eqn:E.
  - destruct (str_of_N_canonical n) as [E'|(c & ds & E' & _)]; congruence.
  - exists c, ds. cbn [forallb] in D. apply andb_true_iff in D. tauto.
Qed.

Lemma digit_not_minus (c : char) : is_digit c = true -> (c =? ch "-")%N = false.
Proof.
  unfold is_digit. rewrite andb_true_iff, !N.leb_le. intros H.
  apply N.eqb_neq. change (ch "-") with 45%N. lia.
Qed.

Lemma match_number_int_repr (z : Z) :
  match_number (int_repr z) = Some (false, int_repr z, []).
Proof.
  assert (A : forall n, match_number (str_of_N n) = Some (false, str_of_N n, [])).
  { intros n. unfold match_number.
    destruct (str_of_N_head n) as (c & ds & E & D).
    pose proof (number_int_canonical n) as I. rewrite E in *.
    rewrite (number_sign_digit c ds D), I. cbn. now rewrite app_nil_r. }
  destruct z as [|p|p]; cbn [int_repr]; try apply A.
  unfold match_number. cbn [number_sign]. rewrite N.eqb_refl.
  rewrite number_int_canonical. cbn. now rewrite app_nil_r.
Qed.

Lemma int_of_literal_repr (z : Z) : int_of_literal (int_repr z) = z.
Proof.
  assert (A : forall n, int_of_literal (str_of_N n) = Z.of_N n).
  { intros n. unfold int_of_literal.
    destruct (str_of_N_head n) as (c & ds & E & D).
    pose proof (nat_of_digits_str n) as I. rewrite E in *.
    now rewrite (digit_not_minus c D), I. }
  destruct z as [|p|p]; cbn [int_repr].
  - apply A.
  - rewrite A. reflexivity.
  - unfold int_of_literal. rewrite N.eqb_refl, nat_of_digits_str. reflexivity.
Qed.

Lemma match_number_head (s : str) fl numstr r :
  match_number s = Some (fl, numstr, r) ->
  exists c t, s = c :: t /\ (c = ch "-" \/ is_digit c = true).
Proof.
  unfold match_number. destruct s as [|c t]; [discriminate|].
  intros H. exists c, t. split; [reflexivity|].
  cbn [number_sign] in H.
  destruct (N.eqb_spec c (ch "-")) as [->|Nm]; [now left|right].
  unfold number_int in H. unfold is_digit.
  destruct ((49 <=? c) && (c <=? 57))%N eqn:E.
  - apply andb_true_iff in E. destruct E as [E1 E2].
    apply N.leb_le in E1. rewrite E2, andb_true_r. apply N.leb_le. lia.
  - destruct (N.eqb_spec c 48) as [->|]; [reflexivity|discriminate].
Qed.

Lemma scan_once_number {RT : PyRuntime} d (s : str) fl numstr r :
  match_number s = Some (fl, numstr, r) -> scan_once d s = scan_atom s.
Proof.
  intros H. destruct (match_number_head s fl numstr r H) as (c & t & -> & Hc).
  apply scan_once_atom; apply N.eqb_neq; intros ->;
    (destruct Hc as [Hc|Hc]; [discriminate Hc|discriminate Hc]).
Qed.

Lemma scan_once_int {RT : PyRuntime} d (z : Z) (r : str) :
  too_many_digits (length (snd (number_sign (int_repr z)))) = false ->
  number_end r = true ->
  scan_once d (int_repr z ++ r) = SOk (PInt z, r).
Proof.
  intros T E.
  destruct (match_number_spec _ _ _ _ (match_number_int_repr z)) as (_ & _ & _ & M).
  specialize (M r E).
  rewrite (scan_once_number d _ _ _ _ M), (scan_atom_number _ _ _ _ M), T.
  now rewrite int_of_literal_repr.
Qed.

Lemma scan_once_float {RT : PyRuntime} d (f : pyfloat) (r : str) :
  float_reads_back f -> number_end r = true ->
  scan_once d (floatstr f ++ r) = SOk (PFloat f, r).
Proof.
  intros [[-> ->]|[[-> ->]|[[-> ->]|[M P]]]] E.
  - unfold lit. cbn [list_ascii_of_string map app]. now rewrite scan_once_atom.
  - unfold lit. cbn [list_ascii_of_string map app]. now rewrite scan_once_atom.
  - unfold lit. cbn [list_ascii_of_string map app]. now rewrite scan_once_atom.
  - destruct (match_number_spec _ _ _ _ M) as (_ & _ & _ & M').
    specialize (M' r E).
    rewrite (scan_once_number d _ _ _ _ M'), (scan_atom_number _ _ _ _ M').
    now rewrite P.
Qed.

(** *** The first character of what [json.dumps] writes *)

Lemma json_dumps_head {RT : PyRuntime} (v : pyval) :
  rereadable v -> exists c t, json_dumps v = c :: t /\ value_start c.
Proof.
  unfold value_start. destruct v as [|[|]|z|f|s|l|d]; intros R; cbn [json_dumps].
  - do 2 eexists. split; [reflexivity|]. tauto.
  - do 2 eexists. split; [reflexivity|]. tauto.
  - do 2 eexists. split; [reflexivity|]. tauto.
  - destruct (match_number_head _ _ _ _ (match_number_int_repr z))
      as (c & t & -> & H).
    exists c, t. split; [reflexivity|]. tauto.
  - destruct R as [[-> _]|[[-> _]|[[-> _]|[M _]]]].
    + do 2 eexists. split; [reflexivity|]. tauto.
    + do 2 eexists. split; [reflexivity|]. tauto.
    + do 2 eexists. split; [reflexivity|]. tauto.
    + destruct (match_number_head _ _ _ _ M) as (c & t & -> & H).
      exists c, t. split; [reflexivity|]. tauto.
  - do 2 eexists. split; [reflexivity|]. tauto.
  - do 2 eexists. split; [reflexivity|]. tauto.
  - do 2 eexists. split; [reflexivity|]. tauto.
Qed.

(** *** Containers *)

Lemma join_head (sep p : str) (ps : list str) :
  exists t, join sep (p :: ps) = p ++ t.
Proof.
  destruct ps; cbn [join]; [exists []; now rewrite app_nil_r|eauto].
Qed.

Lemma join_cons2 (sep p q : str) (ps : list str) :
  join sep (p :: q :: ps) = p ++ sep ++ join sep (q :: ps).
Proof. reflexivity. Qed.

Section Joined.
Context {A : Type} (item : str -> sres (A * str)) (close : char) (enc : A -> str).
Hypothesis close_not_ws : is_ws close = false.
Hypothesis close_ends_number : number_end [close] = true.
Hypothesis close_not_comma : (ch "," =? close)%N = false.

Lemma joined_head (x : A) (xs : list A) (r : str) :
  reads_back item close enc x ->
  exists c t, join (lit ", ") (map enc (x :: xs)) ++ close :: r = c :: t
              /\ is_ws c = false /\ (c =? close)%N = false.
Proof.
  intros (_ & c & t & E & W & C). cbn [map].
  destruct (join_head (lit ", ") (enc x) (map enc xs)) as (t' & ->).
  rewrite E. cbn [app]. eauto.
Qed.

Lemma parse_items_join (xs : list A) :
  xs <> [] -> Forall (reads_back item close enc) xs ->
  forall k r, length xs <= k ->
    parse_items item close k (join (lit ", ") (map enc xs) ++ close :: r)
    = SOk (xs, r).
Proof.
  induction xs as [|x xs IH]; [congruence|]. intros _ F k r K.
  inversion F as [|? ? Fx Fxs]; subst.
  destruct k as [|k]; [cbn [length] in K; lia|].
  destruct xs as [|x2 xs].
  - cbn [map join parse_items].
    rewrite (proj1 Fx) by (now rewrite (number_end_head close r [])).
    cbn [sbind]. rewrite skip_ws_stop by exact close_not_ws.
    now rewrite N.eqb_refl.
  - cbn [map]. rewrite join_cons2, <- !app_assoc. cbn [parse_items].
    change (lit ", " ++ ?x) with (ch "," :: 32%N :: x).
    rewrite (proj1 Fx) by reflexivity. cbn [sbind].
    rewrite skip_ws_stop by reflexivity.
    rewrite close_not_comma, N.eqb_refl.
    change (skip_ws (32%N :: ?x)) with (skip_ws x).
    destruct (joined_head x2 xs r) as (c & t & E & W & _);
      [now inversion Fxs|].
    change (map enc (x2 :: xs)) with (enc x2 :: map enc xs) in E.
    rewrite E, skip_ws_stop, <- E by exact W.
    change (enc x2 :: map enc xs) with (map enc (x2 :: xs)).
    rewrite IH; [reflexivity|congruence|exact Fxs|cbn [length] in *; lia].
Qed.

Lemma joined_length (xs : list A) (r : str) :
  Forall (reads_back item close enc) xs ->
  length xs <= length (join (lit ", ") (map enc xs) ++ close :: r).
Proof.
  induction xs as [|x xs IH]; intros F; [cbn; lia|].
  inversion F as [|? ? (_ & c & t & E & _) Fxs]; subst.
  specialize (IH Fxs). destruct xs as [|x2 xs].
  - cbn [map join length]. rewrite E. cbn [app length]. lia.
  - cbn [map]. rewrite join_cons2, E, <- !app_assoc.
    cbn [map] in IH. cbn [app length] in *. rewrite !length_app in *. lia.
Qed.

Lemma parse_container_join (xs : list A) (r : str) :
  Forall (reads_back item close enc) xs ->
  parse_container item close (join (lit ", ") (map enc xs) ++ close :: r)
  = SOk (xs, r).
Proof.
  intros F. unfold parse_container. destruct xs as [|x xs].
  - cbn [map join app]. rewrite skip_ws_stop by exact close_not_ws.
    now rewrite N.eqb_refl.
  - pose proof (joined_length (x :: xs) r F) as L.
    destruct (joined_head x xs r) as (c & t & E & W & C); [now inversion F|].
    rewrite E, skip_ws_stop, C, <- E by exact W.
    apply parse_items_join; [congruence|exact F|lia].
Qed.

End Joined.

(** *** Dictionaries with distinct keys *)

Lemma str_eqb_neq (a b : str) : a <> b -> str_eqb a b = false.
Proof. intros H. unfold str_eqb. now destruct (list_eq_dec N.eq_dec a b). Qed.

Lemma dict_set_fresh {V : Type} (key : str) (value : V) (d : list (str * V)) :
  ~ In key (map fst d) -> dict_set key value d = d ++ [(key, value)].
Proof.
  induction d as [|[k v] d IH]; intros H; [reflexivity|].
  cbn [dict_set map fst In] in *.
  rewrite str_eqb_neq by tauto. rewrite IH by tauto. reflexivity.
Qed.

Lemma dict_of_pairs_nodup {V : Type} (d : list (str * V)) :
  NoDup (map fst d) -> dict_of_pairs d = d.
Proof.
  unfold dict_of_pairs.
  assert (A : forall pairs acc : list (str * V),
             NoDup (map fst (acc ++ pairs)) ->
             fold_left (fun d kv => dict_set (fst kv) (snd kv) d) pairs acc
             = acc ++ pairs).
  { induction pairs as [|[k v] pairs IH]; intros acc H.
    - now rewrite app_nil_r.
    - cbn [fold_left fst snd]. rewrite dict_set_fresh.
      + rewrite IH; rewrite <- app_assoc; [reflexivity|exact H].
      + rewrite map_app in H. cbn [map fst] in H.
        apply NoDup_remove_2 in H. rewrite in_app_iff in H. tauto. }
  intros H. now rewrite (A d []).
Qed.

(** *** Values *)

Lemma depth_list_le {A : Type} (f : A -> nat) (l : list A) (d : nat) :
  fold_right (fun x m => Nat.max (f x) m) 0 l <= d <-> Forall (fun x => f x <= d) l.
Proof.
  induction l as [|x l IH]; cbn [fold_right].
  - split; [constructor|lia].
  - rewrite Forall_cons_iff, <- IH. lia.
Qed.

Lemma all_list_forall {A : Type} (Q : A -> Prop) (l : list A) :
  fold_right (fun x acc => Q x /\ acc) True l <-> Forall Q l.
Proof.
  induction l as [|x l IH]; cbn [fold_right].
  - split; [constructor|tauto].
  - now rewrite Forall_cons_iff, IH.
Qed.

Lemma val_all_here {RT : PyRuntime} (P : pyval -> Prop) (v : pyval) :
  val_all P v -> P v.
Proof. destruct v; cbn [val_all]; tauto. Qed.

Lemma val_all_list {RT : PyRuntime} (P : pyval -> Prop) (l : list pyval) :
  val_all P (PList l) <-> P (PList l) /\ Forall (val_all P) l.
Proof. cbn [val_all]. now rewrite all_list_forall. Qed.

Lemma val_all_dict {RT : PyRuntime} (P : pyval -> Prop) (d : list (str * pyval)) :
  val_all P (PDict d)
  <-> P (PDict d) /\ Forall (fun kv => val_all P (snd kv)) d.
Proof.
  cbn [val_all].
  now rewrite (all_list_forall (fun kv => val_all P (snd kv))).
Qed.

Lemma value_start_not_close (c : char) :
  value_start c -> (c =? ch "]")%N = false /\ (c =? ch "}")%N = false.
Proof.
  unfold value_start, is_digit.
  intros [->|[->|[->|[->|[->|[->|[->|[->|[->|H]]]]]]]]]; try (split; reflexivity).
  apply andb_true_iff in H. rewrite !N.leb_le in H.
  split; apply N.eqb_neq; [change (ch "]") with 93%N|change (ch "}") with 125%N]; lia.
Qed.

Lemma json_dumps_skip_ws {RT : PyRuntime} (v : pyval) (r : str) :
  rereadable v -> skip_ws (json_dumps v ++ r) = json_dumps v ++ r.
Proof.
  intros R. destruct (json_dumps_head v R) as (c & t & -> & S).
  apply skip_ws_stop. now apply value_start_facts.
Qed.

(** A well-formed value within the depth the scanner has left is read back
    from what [json.dumps] writes for it. *)
Lemma scan_once_dumps {RT : PyRuntime} (d : nat) : forall v,
  depth_of v <= d -> val_all well_formed v -> val_all rereadable v ->
  forall r, number_end r = true -> scan_once d (json_dumps v ++ r) = SOk (v, r).
Proof.
  induction d as [|d IH]; intros v D W R r E;
    (destruct v as [|[|]|z|f|s|l|dd];
     [ unfold json_dumps, lit; cbn [list_ascii_of_string map app];
       now rewrite scan_once_atom
     | unfold json_dumps, lit; cbn [list_ascii_of_string map app];
       now rewrite scan_once_atom
     | unfold json_dumps, lit; cbn [list_ascii_of_string map app];
       now rewrite scan_once_atom
     | apply scan_once_int; [exact (val_all_here _ _ W)|exact E]
     | apply scan_once_float; [exact (val_all_here _ _ R)|exact E]
     | apply scan_once_encoded;
       [exact (val_all_here _ _ W)|exact (val_all_here _ _ R)]
     | | ]); try (cbn [depth_of] in D; lia).
  - (* list *)
    cbn [depth_of] in D. apply le_S_n in D.
    rewrite depth_list_le in D.
    apply val_all_list in W. destruct W as [_ W].
    apply val_all_list in R. destruct R as [_ R].
    cbn [json_dumps]. rewrite <- app_comm_cons, <- app_assoc. cbn [app].
    rewrite scan_once_array.
    rewrite (parse_container_join (scan_once d) (ch "]") json_dumps); try reflexivity.
    rewrite Forall_forall in *. intros x Hx. split.
    + intros r' E'. apply IH; auto.
    + destruct (json_dumps_head x (val_all_here _ _ (R x Hx))) as (c & t & Ec & S).
      exists c, t. split; [exact Ec|].
      split; [now apply value_start_facts|now apply value_start_not_close].
  - (* dict *)
    cbn [depth_of] in D. apply le_S_n in D.
    rewrite (depth_list_le (fun kv => depth_of (snd kv))) in D.
    apply val_all_dict in W. destruct W as [[ND VK] W].
    apply val_all_dict in R. destruct R as [RK R].
    cbn [rereadable] in RK.
    cbn [json_dumps]. rewrite <- app_comm_cons, <- app_assoc. cbn [app].
    rewrite scan_once_object.
    rewrite (parse_container_join (parse_member (scan_once d)) (ch "}")
               (fun kv => encode_basestring_ascii (fst kv) ++ lit ": "
                          ++ json_dumps (snd kv))); try reflexivity.
    + cbn [sbind]. now rewrite dict_of_pairs_nodup.
    + rewrite Forall_forall in *. rewrite forallb_forall in RK.
      intros [k v] Hkv. cbn [fst snd].
      assert (Hk : In k (map fst dd)) by (apply in_map_iff; now exists (k, v)).
      split; [|unfold encode_basestring_ascii; do 2 eexists;
               split; [reflexivity|split; reflexivity]].
      intros r' E'. unfold encode_basestring_ascii.
      rewrite <- !app_assoc. cbn [app parse_member]. rewrite N.eqb_refl.
      rewrite <- app_assoc. cbn [app].
      rewrite scanstring_encoded by auto. cbn [sbind].
      change (lit ": " ++ ?x) with (ch ":" :: 32%N :: x).
      rewrite skip_ws_stop by reflexivity. rewrite N.eqb_refl.
      change (skip_ws (32%N :: ?x)) with (skip_ws x).
      rewrite json_dumps_skip_ws
        by exact (val_all_here _ _ (R (k, v) Hkv)).
      rewrite (IH v); auto.
      * exact (D (k, v) Hkv).
      * exact (W (k, v) Hkv).
      * exact (R (k, v) Hkv).
Qed.

(** ** What [json.loads] builds is well formed *)

Lemma valid_tail (c : char) (s : str) : valid_str (c :: s) -> valid_str s.
Proof. apply Forall_inv_tail. Qed.

Lemma valid_app (a b : str) : valid_str (a ++ b) <-> valid_str a /\ valid_str b.
Proof. apply Forall_app. Qed.

Lemma valid_skipn (k : nat) (s : str) : valid_str s -> valid_str (skipn k s).
Proof.
  intros V. rewrite <- (firstn_skipn k s) in V. now apply valid_app in V.
Qed.

Lemma valid_firstn (k : nat) (s : str) : valid_str s -> valid_str (firstn k s).
Proof.
  intros V. rewrite <- (firstn_skipn k s) in V. now apply valid_app in V.
Qed.

Lemma skip_ws_valid (s : str) : valid_str s -> valid_str (skip_ws s).
Proof.
  intros V. destruct (skip_ws_decomp s) as (w & E & _).
  rewrite E in V. now apply valid_app in V.
Qed.

Lemma hex_val_bound (c : char) (x : N) : hex_val c = Some x -> (x < 16)%N.
Proof.
  unfold hex_val, is_digit.
  destruct ((48 <=? c) && (c <=? 57))%N eqn:E1;
    [|destruct ((97 <=? c) && (c <=? 102))%N eqn:E2;
      [|destruct ((65 <=? c) && (c <=? 70))%N eqn:E3; [|discriminate]]];
    intros [= <-];
    match goal with H : (_ && _)%bool = true |- _ =>
      apply andb_true_iff in H; rewrite !N.leb_le in H end; lia.
Qed.

Lemma hex4_bound (a b c d : char) (n : N) :
  hex4 a b c d = Some n -> (n < 65536)%N.
Proof.
  unfold hex4.
  destruct (hex_val a) as [x|] eqn:Ea; [|discriminate].
  destruct (hex_val b) as [y|] eqn:Eb; [|discriminate].
  destruct (hex_val c) as [z|] eqn:Ec; [|discriminate].
  destruct (hex_val d) as [w|] eqn:Ed; [|discriminate].
  apply hex_val_bound in Ea, Eb, Ec, Ed. intros [= <-]. lia.
Qed.

Lemma unescape_valid (e c : char) : unescape e = Some c -> valid_char c.
Proof.
  unfold unescape, valid_char.
  repeat match goal with
         | |- context [if ?b then _ else _] => destruct b
         end; intros [= <-]; discriminate.
Qed.

Lemma join_surrogates_valid (hi lo : N) :
  is_high_surrogate hi = true -> is_low_surrogate lo = true ->
  valid_char (join_surrogates hi lo).
Proof.
  unfold is_high_surrogate, is_low_surrogate, join_surrogates, valid_char.
  rewrite !andb_true_iff, !N.leb_le. lia.
Qed.

Lemma scanstring_valid n : forall s, length s <= n -> valid_str s ->
  forall b x r, scanstring b s = SOk (x, r) -> valid_str x /\ valid_str r.
Proof.
  induction n as [|n IH]; intros s Hn V b x r H.
  { destruct s; [discriminate|simpl in Hn; lia]. }
  destruct s as [|c s1]; [discriminate|]. simpl in Hn.
  pose proof (Forall_inv V) as Vc. apply valid_tail in V.
  destruct (N.eqb_spec c DQUOTE) as [->|Hq].
  { rewrite scanstring_quote in H. injection H as <- <-. split; [constructor|exact V]. }
  destruct (N.eqb_spec c BACKSLASH) as [->|Hb].
  2:{ rewrite scanstring_plain in H by (apply N.eqb_neq; assumption).
      destruct (c <=? 31)%N; [discriminate|].
      apply scons_ok in H. destruct H as (x' & -> & H).
      destruct (IH s1 ltac:(lia) V _ _ _ H). split; [constructor|]; assumption. }
  destruct s1 as [|e s2]; [discriminate|]. simpl in Hn.
  apply valid_tail in V.
  destruct (N.eqb_spec e (ch "u")) as [->|Hu].
  2:{ rewrite scanstring_escape in H by (apply N.eqb_neq; assumption).
      destruct (unescape e) as [c'|] eqn:Ee; [|discriminate].
      apply scons_ok in H. destruct H as (x' & -> & H).
      destruct (IH s2 ltac:(lia) V _ _ _ H).
      split; [constructor; [exact (unescape_valid _ _ Ee)|]|]; assumption. }
  pose proof (scanstring_u_short _ _ _ _ H) as Hlen.
  destruct s2 as [|h1 [|h2 [|h3 [|h4 [|y t]]]]]; simpl in Hlen; try lia.
  simpl in Hn. rewrite scanstring_u in H.
  do 4 apply valid_tail in V.
  destruct (hex4 h1 h2 h3 h4) as [uni|] eqn:Eh; [|discriminate].
  assert (Vu : valid_char uni)
    by (apply hex4_bound in Eh; unfold valid_char; lia).
  assert (Hsingle : forall x',
             scanstring b (y :: t) = SOk (x', r) ->
             valid_str (uni :: x') /\ valid_str r).
  { intros x' Hx'. destruct (IH (y :: t) ltac:(simpl; lia) V _ _ _ Hx').
    split; [constructor|]; assumption. }
  destruct (is_high_surrogate uni) eqn:Ehi.
  2:{ apply scons_ok in H. destruct H as (x' & -> & H). now apply Hsingle. }
  destruct (lookahead_pair (y :: t)) as [[uni2|]|] eqn:Ela; [|discriminate|].
  - destruct (is_low_surrogate uni2) eqn:Elo.
    + apply scons_ok in H. destruct H as (x' & -> & H).
      assert (L : length (skipn 6 (y :: t)) <= n)
        by (rewrite length_skipn; simpl; lia).
      destruct (IH _ L (valid_skipn 6 _ V) _ _ _ H).
      split; [constructor; [now apply join_surrogates_valid|]|]; assumption.
    + apply scons_ok in H. destruct H as (x' & -> & H). now apply Hsingle.
  - apply scons_ok in H. destruct H as (x' & -> & H). now apply Hsingle.
Qed.

Lemma parse_items_builds {A : Type} (Q : A -> Prop) item close k :
  builds Q item -> builds (Forall Q) (parse_items item close k).
Proof.
  intros Hi. induction k as [|k IH]; intros s xs r V H; [discriminate|].
  cbn [parse_items] in H. apply sbind_ok in H.
  destruct H as ([x r1] & Hx & H). destruct (Hi _ _ _ V Hx) as [Qx V1].
  apply skip_ws_valid in V1.
  destruct (skip_ws r1) as [|c r2]; [discriminate|]. apply valid_tail in V1.
  destruct (c =? close)%N.
  - injection H as <- <-. split; [repeat constructor|]; assumption.
  - destruct (c =? ch ",")%N; [|discriminate].
    apply sbind_ok in H. destruct H as ([xs' r3] & Hxs & H). injection H as <- <-.
    destruct (IH _ _ _ (skip_ws_valid _ V1) Hxs).
    split; [constructor|]; assumption.
Qed.

Lemma parse_container_builds {A : Type} (Q : A -> Prop) item close :
  builds Q item -> builds (Forall Q) (parse_container item close).
Proof.
  intros Hi s xs r V H. unfold parse_container in H.
  apply skip_ws_valid in V. destruct (skip_ws s) as [|c s'].
  - exact (parse_items_builds Q item close _ Hi _ _ _ V H).
  - destruct (c =? close)%N.
    + injection H as <- <-. split; [constructor|exact (valid_tail _ _ V)].
    + exact (parse_items_builds Q item close _ Hi _ _ _ V H).
Qed.

Lemma parse_member_builds {V : Type} (Q : V -> Prop) scan :
  builds Q scan ->
  builds (fun kv => valid_str (fst kv) /\ Q (snd kv)) (parse_member scan).
Proof.
  intros Hs s [k v] r Vs H. unfold parse_member in H.
  destruct s as [|c s1]; [discriminate|].
  destruct (c =? DQUOTE)%N; [|discriminate].
  apply sbind_ok in H. destruct H as ([key r1] & Hk & H).
  destruct (scanstring_valid _ _ (le_n _) (valid_tail _ _ Vs) _ _ _ Hk) as [Vk V1].
  apply skip_ws_valid in V1.
  destruct (skip_ws r1) as [|c2 r2]; [discriminate|]. apply valid_tail in V1.
  destruct (c2 =? ch ":")%N; [|discriminate].
  apply sbind_ok in H. destruct H as ([v' r3] & Hv & H). injection H as <- <- <-.
  destruct (Hs _ _ _ (skip_ws_valid _ V1) Hv). cbn [fst snd]. tauto.
Qed.

Lemma int_repr_of_N (n : N) : int_repr (Z.of_N n) = str_of_N n.
Proof. destruct n; reflexivity. Qed.

Lemma number_sign_str_of_N (n : N) : number_sign (str_of_N n) = ([], str_of_N n).
Proof.
  destruct (str_of_N_head n) as (c & ds & -> & D). now apply number_sign_digit.
Qed.

(** [str(int(literal))] has no more digits than the literal. *)
Lemma int_repr_digits (sg ip : str) :
  sg = [] \/ sg = [ch "-"] -> ip <> [] -> forallb is_digit ip = true ->
  length (snd (number_sign (int_repr (int_of_literal (sg ++ ip)))))
  <= length (snd (number_sign (sg ++ ip))).
Proof.
  intros Hsg Hne D. pose proof (str_of_N_length ip Hne D) as L.
  destruct Hsg as [->| ->]; cbn [app].
  - destruct ip as [|c ds]; [congruence|].
    cbn [forallb] in D. apply andb_true_iff in D. destruct D as [Dc _].
    rewrite (number_sign_digit c ds Dc). unfold int_of_literal.
    rewrite (digit_not_minus c Dc), int_repr_of_N, number_sign_str_of_N.
    exact L.
  - cbn [number_sign int_of_literal]. rewrite N.eqb_refl. cbn [snd].
    destruct (nat_of_digits ip) as [|p] eqn:E.
    + destruct ip; [congruence|]. cbn. lia.
    + change (- Z.of_N (N.pos p))%Z with (Z.neg p). cbn [int_repr number_sign].
      rewrite N.eqb_refl. exact L.
Qed.

Lemma scan_atom_builds {RT : PyRuntime} :
  builds (fun v => depth_of v = 0 /\ val_all well_formed v) scan_atom.
Proof.
  intros s v r V H. unfold scan_atom in H.
  repeat match type of H with
         | (if ?b then _ else _) = _ =>
             destruct b;
             [injection H as <- <-; split;
              [cbn; tauto
              |first [exact (valid_skipn 3 s V) | exact (valid_skipn 4 s V)
                     |exact (valid_skipn 5 s V) | exact (valid_skipn 8 s V)
                     |exact (valid_skipn 9 s V)]]|]
         end.
  destruct (match_number s) as [[[fl numstr] r0]|] eqn:Em; [|discriminate].
  destruct (match_number_spec _ _ _ _ Em)
    as (-> & _ & (sg & ip & rest & -> & Hsg & Hip & Hdig & Hrest) & _).
  apply valid_app in V. destruct V as [_ V].
  destruct fl; [injection H as <- <-; cbn; tauto|].
  rewrite (Hrest eq_refl), app_nil_r in H.
  destruct (too_many_digits _) eqn:T; [discriminate|]. injection H as <- <-.
  split; [|exact V]. split; [reflexivity|]. cbn [val_all well_formed].
  split; [|exact I].
  exact (too_many_digits_mono _ _ (int_repr_digits sg ip Hsg Hip Hdig) T).
Qed.

(** *** The dictionary of an object *)

Lemma dict_set_forall {V : Type} (R : str * V -> Prop) key value d :
  Forall R d -> R (key, value) -> Forall R (dict_set key value d).
Proof.
  intros F Rk. induction d as [|[k v] d IH]; cbn [dict_set].
  - now repeat constructor.
  - inversion F; subst. destruct (str_eqb k key) eqn:E.
    + apply str_eqb_eq in E. subst. now constructor.
    + constructor; auto.
Qed.

Lemma dict_set_keys {V : Type} key (value : V) d x :
  In x (map fst (dict_set key value d)) -> x = key \/ In x (map fst d).
Proof.
  induction d as [|[k v] d IH]; cbn [dict_set].
  - cbn. intuition.
  - destruct (str_eqb k key); cbn [map fst In]; [tauto|].
    intros [H|H]; [tauto|]. apply IH in H. tauto.
Qed.

Lemma dict_set_nodup {V : Type} key (value : V) d :
  NoDup (map fst d) -> NoDup (map fst (dict_set key value d)).
Proof.
  induction d as [|[k v] d IH]; cbn [dict_set]; intros H.
  - cbn. repeat constructor. intros [].
  - destruct (str_eqb k key) eqn:E; [exact H|].
    cbn [map fst] in *. inversion H as [|? ? Hk Hd]; subst.
    constructor; [|auto]. intros Hin. apply dict_set_keys in Hin.
    destruct Hin as [->|Hin]; [|contradiction].
    now rewrite str_eqb_refl in E.
Qed.

Lemma dict_of_pairs_spec {V : Type} (R : str * V -> Prop) (pairs : list (str * V)) :
  Forall R pairs ->
  Forall R (dict_of_pairs pairs) /\ NoDup (map fst (dict_of_pairs pairs)).
Proof.
  unfold dict_of_pairs.
  assert (A : forall (ps acc : list (str * V)),
             Forall R ps -> Forall R acc -> NoDup (map fst acc) ->
             let d := fold_left (fun d kv => dict_set (fst kv) (snd kv) d) ps acc in
             Forall R d /\ NoDup (map fst d)).
  { induction ps as [|[k v] ps IH]; intros acc F Fa N; cbn [fold_left fst snd].
    - now split.
    - inversion F; subst.
      apply IH; [assumption|now apply dict_set_forall|now apply dict_set_nodup]. }
  intros F. apply (A pairs [] F); constructor.
Qed.

Lemma forall_map_fst {V : Type} (P : str -> Prop) (Q : V -> Prop) (d : list (str * V)) :
  Forall (fun kv => P (fst kv) /\ Q (snd kv)) d ->
  Forall P (map fst d) /\ Forall (fun kv => Q (snd kv)) d.
Proof.
  induction 1 as [|kv d [Hk Hv] _ [IH1 IH2]]; cbn [map]; split; constructor; auto.
Qed.

Lemma scan_once_builds {RT : PyRuntime} (d : nat) :
  builds (fun v => depth_of v <= d /\ val_all well_formed v) (scan_once d).
Proof.
  induction d as [|d IH]; intros s v r V H;
    (destruct s as [|c s']; [rewrite scan_once_nil in H; discriminate|]);
    (destruct (N.eqb_spec c DQUOTE) as [->|H1];
     [rewrite scan_once_string in H; apply sbind_ok in H;
      destruct H as ([x r1] & Hs & H); injection H as <- <-;
      destruct (scanstring_valid _ _ (le_n _) (valid_tail _ _ V) _ _ _ Hs);
      cbn [depth_of val_all well_formed]; repeat split; try assumption; lia|]);
    (destruct (N.eqb_spec c (ch "{")) as [->|H2];
     [|destruct (N.eqb_spec c (ch "[")) as [->|H3];
       [|apply N.eqb_neq in H1, H2, H3; rewrite scan_once_atom in H by assumption;
         destruct (scan_atom_builds _ _ _ V H) as [[D W] Vr];
         repeat split; try assumption; lia]]);
    try discriminate.
  - (* object *)
    rewrite scan_once_object in H. apply sbind_ok in H.
    destruct H as ([pairs r1] & Hc & H). injection H as <- <-.
    destruct (parse_container_builds _ _ (ch "}")
                (parse_member_builds _ _ IH) _ _ _ (valid_tail _ _ V) Hc) as [F Vr].
    split; [|exact Vr].
    destruct (dict_of_pairs_spec _ _ F) as [Fd N].
    apply (forall_map_fst valid_str
             (fun v => depth_of v <= d /\ val_all well_formed v)) in Fd.
    destruct Fd as [Fk Fv].
    split.
    + cbn [depth_of]. apply le_n_S.
      apply (depth_list_le (fun kv => depth_of (snd kv))).
      revert Fv. apply Forall_impl. tauto.
    + apply val_all_dict. split; [split; assumption|].
      revert Fv. apply Forall_impl. tauto.
  - (* array *)
    rewrite scan_once_array in H. apply sbind_ok in H.
    destruct H as ([values r1] & Hc & H). injection H as <- <-.
    destruct (parse_container_builds _ _ (ch "]") IH _ _ _ (valid_tail _ _ V) Hc)
      as [F Vr].
    split; [|exact Vr]. split.
    + cbn [depth_of]. apply le_n_S. apply depth_list_le.
      revert F. apply Forall_impl. tauto.
    + apply val_all_list. split; [exact I|].
      revert F. apply Forall_impl. tauto.
Qed.

(** ** The text [_safe_json] decodes can be a [str] *)

Lemma lstrip_valid (s : str) : valid_str s -> valid_str (lstrip s).
Proof.
  induction s as [|c s IH]; intros V; cbn [lstrip]; [exact V|].
  destruct (isspace c); [exact (IH (valid_tail _ _ V))|exact V].
Qed.

Lemma rstrip_valid (s : str) : valid_str s -> valid_str (rstrip s).
Proof.
  induction s as [|c s IH]; intros V; cbn [rstrip]; [exact V|].
  pose proof (Forall_inv V) as Vc. specialize (IH (valid_tail _ _ V)).
  destruct (rstrip s).
  - destruct (isspace c); repeat constructor; assumption.
  - now constructor.
Qed.

Lemma strip_valid (s : str) : valid_str s -> valid_str (strip s).
Proof. intros V. now apply rstrip_valid, lstrip_valid. Qed.

Lemma rstrip_char_valid (c : char) (s : str) :
  valid_str s -> valid_str (rstrip_char c s).
Proof.
  induction s as [|x s IH]; intros V; cbn [rstrip_char]; [exact V|].
  pose proof (Forall_inv V) as Vx. specialize (IH (valid_tail _ _ V)).
  destruct (rstrip_char c s).
  - destruct (x =? c)%N; repeat constructor; assumption.
  - now constructor.
Qed.

Lemma split_valid (sep : char) (s : str) :
  valid_str s -> Forall valid_str (split sep s).
Proof.
  induction s as [|x s IH]; intros V; cbn [split]; [repeat constructor|].
  pose proof (Forall_inv V) as Vx. specialize (IH (valid_tail _ _ V)).
  destruct (x =? sep)%N; [constructor; [constructor|exact IH]|].
  destruct (split sep s) as [|l ls]; [repeat constructor; assumption|].
  inversion IH; subst. constructor; [now constructor|assumption].
Qed.

Lemma join_valid (sep : str) (parts : list str) :
  valid_str sep -> Forall valid_str parts -> valid_str (join sep parts).
Proof.
  intros Vs. induction 1 as [|p ps Vp F IH]; [constructor|].
  destruct ps as [|q ps]; [exact Vp|].
  change (join sep (p :: q :: ps)) with (p ++ sep ++ join sep (q :: ps)).
  apply valid_app. split; [exact Vp|]. apply valid_app. now split.
Qed.

Lemma fence_loop_valid (lines : list str) : forall b acc,
  Forall valid_str lines -> Forall valid_str acc ->
  Forall valid_str (fence_loop lines b acc).
Proof.
  induction lines as [|line lines IH]; intros b acc F Fa; cbn [fence_loop];
    [exact Fa|].
  inversion F; subst.
  destruct (startswith FENCE (strip line) && negb b); [now apply IH|].
  destruct (str_eqb (strip line) FENCE); [exact Fa|].
  destruct b; apply IH; try assumption.
  apply Forall_app. split; [exact Fa|now repeat constructor].
Qed.

Lemma defence_valid (text : str) : valid_str text -> valid_str (defence text).
Proof.
  intros V. unfold defence. apply strip_valid in V.
  destruct (startswith FENCE (strip text)); [|exact V].
  apply join_valid; [repeat constructor; discriminate|].
  apply fence_loop_valid; [now apply split_valid|constructor].
Qed.

Lemma try_fix_json_valid (text fixed : str) :
  valid_str text -> _try_fix_json text = Some fixed -> valid_str fixed.
Proof.
  intros V. unfold _try_fix_json. destruct text as [|c t] eqn:E; [discriminate|].
  rewrite <- E in *. clear E c t.
  destruct (unbalanced (strip text)); [|discriminate]. intros [= <-].
  assert (Vt : valid_str (truncate_text (strip text))).
  { unfold truncate_text. destruct (string_scan _ _ _ _ _) as [ins pos].
    destruct (ins && (0 <? pos));
      [apply valid_firstn|]; now apply strip_valid. }
  assert (Vm : forall c n, valid_char c -> valid_str (str_mul c n)).
  { intros c n Vc. apply Forall_forall. intros x Hx.
    apply repeat_spec in Hx. now subst. }
  apply valid_app. split; [now apply rstrip_char_valid|].
  apply valid_app. split; apply Vm; discriminate.
Qed.

(** ** The two [return json.loads] statements *)

Lemma json_loads_nil {RT : PyRuntime} :
  json_loads [] = Raises (JSONDecodeError msg_value [] 0).
Proof.
  unfold json_loads. cbn [startswith skip_ws]. now rewrite scan_once_nil.
Qed.

Lemma json_loads_builds {RT : PyRuntime} (s : str) (v : pyval) :
  valid_str s -> json_loads s = Returns v ->
  depth_of v <= recursion_limit /\ val_all well_formed v.
Proof.
  intros V H. unfold json_loads in H.
  destruct (startswith [65279%N] s); [discriminate|].
  destruct (scan_once recursion_limit (skip_ws s)) as [[obj r]| | |] eqn:E;
    try discriminate.
  destruct (skip_ws r); [|discriminate]. injection H as <-.
  exact (proj1 (scan_once_builds _ _ _ _ (skip_ws_valid _ V) E)).
Qed.

Lemma json_loads_dumps {RT : PyRuntime} (v : pyval) :
  depth_of v <= recursion_limit -> val_all well_formed v ->
  val_all rereadable v -> json_loads (json_dumps v) = Returns v.
Proof.
  intros D W R. unfold json_loads.
  pose proof (scan_once_dumps _ v D W R [] eq_refl) as S.
  rewrite app_nil_r in S.
  destruct (json_dumps_head v (val_all_here _ _ R)) as (c & t & E & St).
  rewrite E in *. destruct (value_start_facts c St) as (_ & _ & Hb & Hw).
  cbn [startswith]. destruct (N.eqb_spec c 65279) as [?|_]; [contradiction|].
  cbn [andb]. rewrite skip_ws_stop by exact Hw. now rewrite S.
Qed.

Lemma decodes_builds {RT : PyRuntime} (text : str) (v : pyval) :
  valid_str text -> decodes text v ->
  _safe_json text = Returns v
  /\ depth_of v <= recursion_limit /\ val_all well_formed v.
Proof.
  intros V [H|(msg & doc & pos & fixed & H1 & H2 & H3)].
  - split; [|exact (json_loads_builds _ _ (defence_valid _ V) H)].
    unfold _safe_json, decode_or_repair. now rewrite H.
  - split; [|exact (json_loads_builds _ _
                      (try_fix_json_valid _ _ (defence_valid _ V) H2) H3)].
    unfold _safe_json, decode_or_repair. rewrite H1, H2.
    destruct fixed; [rewrite json_loads_nil in H3; discriminate|].
    now rewrite H3.
Qed.

(** C7 as the specification words it does not hold.  The text made of a
    quote, the escape [\ud800], the character U+DC00 itself and a quote
    decodes to the two-character string U+D800 U+DC00; [json.dumps] writes
    that string as two escapes, [\ud800] and [\udc00], which the decoder
    reads as the single character U+10000. *)
Lemma surrogate_pair_not_stable :
  ~ (forall text v,
        valid_str text ->
        @_safe_json reference_runtime text = Returns v ->
        @_safe_json reference_runtime (json_dumps v) = Returns v).
Proof.
  intros H.
  specialize (H (py "'\ud800" ++ [56320%N; DQUOTE]) (PStr [55296%N; 56320%N])).
  assert (V : valid_str (py "'\ud800" ++ [56320%N; DQUOTE]))
    by (repeat constructor; discriminate).
  specialize (H V eq_refl). vm_compute in H. discriminate.
Qed.

(** C7, amended.  For every input the decoder decodes with one of its two
    [json.loads] calls, into a value where no string and no key has a high
    surrogate directly before a low surrogate and where every float is
    written by [json.dumps] in a form that reads back as that float: the
    decoder run on [json.dumps] of the value returns the same value as the
    first decode. *)
Theorem round_trip_stable {RT : PyRuntime} (text : str) (v : pyval) :
  valid_str text -> decodes text v -> val_all rereadable v ->
  _safe_json text = Returns v
  /\ json_loads (json_dumps v) = Returns v
  /\ _safe_json (json_dumps v) = _safe_json text.
Proof.
  intros V Dc R. destruct (decodes_builds text v V Dc) as (S & D & W).
  pose proof (json_loads_dumps v D W R) as L.
  split; [exact S|]. split; [exact L|]. rewrite S.
  destruct (json_loads_strip _ _ L) as [Hl Hf].
  unfold _safe_json, decode_or_repair, defence. now rewrite Hf, Hl.
Qed.

Lemma round_trip_stable_witness :
  @_safe_json reference_runtime
     (json_dumps (PDict [(py "a", PList [PInt 1; PFloat (py "2.5"); PStr (py "x")])]))
  = @_safe_json reference_runtime (py "{'a': [1, 2.5, 'x'], 'b': 'incomplete").
Proof.
  apply (@round_trip_stable reference_runtime
           (py "{'a': [1, 2.5, 'x'], 'b': 'incomplete")).
  - repeat constructor; discriminate.
  - right. exists msg_unterminated, (py "{'a': [1, 2.5, 'x'], 'b': 'incomplete"), 26,
      (py "{'a': [1, 2.5, 'x']}").
    repeat split; vm_compute; reflexivity.
  - cbn. repeat split. right. right. right. split; reflexivity.
Defined.

(** * Further properties of the decoder *)

(** ** Whitespace around the response *)

Lemma rstrip_app_spaces (a w : str) :
  forallb isspace w = true -> rstrip (a ++ w) = rstrip a.
Proof.
  intros H. induction a as [|c a IH]; cbn [app rstrip].
  - now apply rstrip_all_space.
  - now rewrite IH.
Qed.

Lemma lstrip_all_space (w : str) : forallb isspace w = true -> lstrip w = [].
Proof.
  induction w as [|c w IH]; [reflexivity|]. cbn [forallb lstrip].
  intros H. apply andb_true_iff in H. destruct H as [-> H]. auto.
Qed.

Lemma strip_app_spaces (pre text post : str) :
  forallb isspace pre = true -> forallb isspace post = true ->
  strip (pre ++ text ++ post) = strip text.
Proof.
  intros Hpre Hpost. unfold strip. rewrite lstrip_app_spaces by exact Hpre.
  induction text as [|c text IH]; cbn [app lstrip].
  - now rewrite lstrip_all_space.
  - destruct (isspace c); [exact IH|].
    change (c :: text ++ post) with ((c :: text) ++ post).
    now apply rstrip_app_spaces.
Qed.

(** X1.  Whitespace before and after the response never changes what the
    decoder returns. *)
Theorem safe_json_outer_whitespace {RT : PyRuntime} (pre text post : str) :
  forallb isspace pre = true -> forallb isspace post = true ->
  _safe_json (pre ++ text ++ post) = _safe_json text.
Proof.
  intros Hpre Hpost. unfold _safe_json, defence.
  now rewrite strip_app_spaces.
Qed.

Lemma safe_json_outer_whitespace_witness :
  @_safe_json reference_runtime (lit "  " ++ truncated_input ++ [NL; 160%N])
  = @_safe_json reference_runtime truncated_input.
Proof.
  apply (@safe_json_outer_whitespace reference_runtime); reflexivity.
Defined.

(** ** The repair candidate *)

Lemma count_repeat (c x : char) (n : nat) :
  count c (repeat x n) = if (x =? c)%N then n else 0.
Proof.
  induction n as [|n IH]; cbn [repeat count]; [now destruct (x =? c)%N|].
  rewrite IH. now destruct (x =? c)%N.
Qed.

Lemma count_rstrip_char (c x : char) (s : str) :
  (x =? c)%N = false -> count c (rstrip_char x s) = count c s.
Proof.
  intros H. destruct (rstrip_char_spec x s) as (body & n & E & -> & _).
  rewrite E at 1. now rewrite count_app, count_repeat, H, Nat.add_0_r.
Qed.

Lemma count_str_mul (c x : char) (a b : nat) :
  count c (str_mul x (Z.of_nat a - Z.of_nat b)) = if (x =? c)%N then a - b else 0.
Proof.
  unfold str_mul. rewrite count_repeat.
  replace (Z.to_nat (Z.of_nat a - Z.of_nat b)) with (a - b) by lia. reflexivity.
Qed.

(** X2.  A repair candidate never has more openers than closers, in either
    family, so a candidate is never repaired again. *)
Theorem repair_candidate_closed (text fixed : str) :
  _try_fix_json text = Some fixed ->
  count (ch "{") fixed <= count (ch "}") fixed
  /\ count (ch "[") fixed <= count (ch "]") fixed
  /\ _try_fix_json fixed = None.
Proof.
  intros H.
  assert (C : count (ch "{") fixed <= count (ch "}") fixed
              /\ count (ch "[") fixed <= count (ch "]") fixed).
  { unfold _try_fix_json in H. destruct text as [|x text]; [discriminate|].
    destruct (unbalanced (strip (x :: text))); [|discriminate].
    injection H as <-. set (t := truncate_text (strip (x :: text))).
    rewrite !count_app, !count_str_mul, !count_rstrip_char by reflexivity.
    cbn [N.eqb ch N_of_ascii]. cbn. lia. }
  split; [tauto|]. split; [tauto|].
  apply try_fix_json_none. right. unfold unbalanced.
  apply orb_false_iff. split; apply Nat.ltb_ge; tauto.
Qed.

Lemma repair_candidate_closed_witness :
  _try_fix_json (py "{'a': [1, 2, 3]}") = None.
Proof.
  apply (repair_candidate_closed truncated_input (py "{'a': [1, 2, 3]}")).
  reflexivity.
Defined.

Lemma scan_state (t : str) ins pos :
  string_scan t 0 false false 0 = (ins, pos) ->
  (exists esc, lex t ins esc) /\ last_boundary t (length t) pos.
Proof.
  intros H.
  apply (string_scan_spec t [] false false 0 ins pos lex_nil); [|exact H].
  split; [now left|]. intros q _ Hq. exact Hq.
Qed.

Lemma lex_app_plain (q : str) : forall p ins esc,
  lex p ins esc ->
  Forall (fun c => c <> BACKSLASH /\ c <> DQUOTE) q ->
  exists esc', lex (p ++ q) ins esc'.
Proof.
  induction q as [|c q IH]; intros p ins esc L F.
  - rewrite app_nil_r. eauto.
  - inversion F as [|? ? [Hb Hq] F']; subst.
    assert (L' : lex (p ++ [c]) ins false)
      by (destruct esc; [now apply lex_escaped|now apply lex_plain]).
    destruct (IH _ _ _ L' F') as [esc' L''].
    rewrite <- app_assoc in L''. eauto.
Qed.

Lemma lex_drop_commas (body : str) (n : nat) : forall ins esc,
  lex (body ++ repeat (ch ",") n) ins esc -> exists esc', lex body ins esc'.
Proof.
  induction n as [|n IH]; intros ins esc L.
  - rewrite app_nil_r in L. eauto.
  - cbn [repeat] in L. rewrite repeat_cons, app_assoc in L.
    apply lex_snoc_inv in L.
    destruct L as [[L _]|[(E & _)|[(E & _)|(_ & _ & L & _)]]];
      try discriminate E; eapply IH; exact L.
Qed.

Lemma lex_boundary_prefix (t : str) (pos : nat) :
  clean_boundary t pos -> lex (firstn pos t) false false.
Proof.
  intros (i & c & -> & Hn & Hb & L).
  apply nth_error_split in Hn. destruct Hn as (l1 & l2 & -> & <-).
  rewrite firstn_app, firstn_all, Nat.sub_diag in L. cbn [firstn] in L.
  rewrite app_nil_r in L.
  rewrite firstn_app_2. cbn [firstn].
  unfold is_boundary in Hb. apply lex_plain; [exact L| |]; intros ->; discriminate.
Qed.

(** X3.  The scan of the candidate ends inside a string literal exactly
    when the scan of the stripped text does and no clean boundary was
    recorded: wherever there is a boundary to cut at, the candidate has no
    dangling string. *)
Theorem repair_candidate_string_state (text fixed : str) :
  _try_fix_json text = Some fixed ->
  fst (string_scan fixed 0 false false 0)
  = fst (string_scan (strip text) 0 false false 0)
    && (snd (string_scan (strip text) 0 false false 0) =? 0).
Proof.
  intros H. unfold _try_fix_json in H. destruct text as [|x text]; [discriminate|].
  set (t := strip (x :: text)) in *.
  destruct (unbalanced t); [|discriminate]. injection H as <-.
  unfold truncate_text.
  destruct (string_scan t 0 false false 0) as [ins pos] eqn:Es. cbn [fst snd].
  destruct (scan_state t ins pos Es) as [[esc L] [B _]].
  match goal with |- context [rstrip_char _ ?c] => set (cut := c) end.
  assert (Lc : exists esc', lex cut (ins && (pos =? 0)) esc').
  { subst cut. destruct ins; cbn [andb].
    - destruct pos as [|pos]; cbn [Nat.ltb Nat.leb Nat.eqb]; [eauto|].
      destruct B as [B|[B _]]; [discriminate|].
      exists false. now apply lex_boundary_prefix.
    - eauto. }
  destruct Lc as [esc1 Lc].
  destruct (rstrip_char_spec 44%N cut) as (body & n & E & -> & _).
  rewrite E in Lc. apply lex_drop_commas in Lc. destruct Lc as [esc2 Lc].
  match goal with |- context [body ++ ?q] => set (closers := q) end.
  assert (F : Forall (fun c => c <> BACKSLASH /\ c <> DQUOTE) closers).
  { subst closers. apply Forall_app. unfold str_mul.
    split; apply Forall_forall; intros c Hc; apply repeat_spec in Hc; subst c;
      split; discriminate. }
  destruct (lex_app_plain closers _ _ _ Lc F) as [esc3 Lf].
  destruct (string_scan (body ++ closers) 0 false false 0) as [insf posf] eqn:Ef.
  destruct (scan_state _ _ _ Ef) as [[esc4 L4] _].
  exact (proj1 (lex_fun _ _ _ _ _ L4 Lf)).
Qed.

Lemma repair_candidate_string_state_witness :
  fst (string_scan (py "{'a': [1, 2, 3]}") 0 false false 0)
  = fst (string_scan (strip truncated_input) 0 false false 0)
    && (snd (string_scan (strip truncated_input) 0 false false 0) =? 0).
Proof.
  apply (repair_candidate_string_state truncated_input). reflexivity.
Defined.

(** ** A fenced response

    Backticks in JSON text. *)

Lemma count_zero_forall (x : char) (s : str) :
  count x s = 0 <-> forallb (fun c => negb (c =? x)%N) s = true.
Proof.
  induction s as [|c s IH]; [easy|]. cbn [count forallb].
  destruct (c =? x)%N; cbn [negb andb]; [split; [lia|discriminate]|exact IH].
Qed.

Lemma plain_quoted (c : str) : count 96%N c = 0 -> backticks_quoted c.
Proof.
  intros H p q ->. rewrite count_app in H. cbn [count] in H.
  rewrite N.eqb_refl in H. lia.
Qed.

Lemma quoted_app (a b : str) :
  backticks_quoted a -> backticks_quoted b -> backticks_quoted (a ++ b).
Proof.
  intros Ha Hb p q E. apply app_eq_app in E.
  destruct E as [l [[Ea El]|[Ep Eb]]].
  - destruct l as [|x l].
    + cbn [app] in El. destruct (Hb [] q (eq_sym El)) as (a' & b' & E' & _).
      destruct a'; discriminate.
    + injection El as <- _. exact (Ha p l Ea).
  - destruct (Hb l q Eb) as (a' & b' & -> & Hn).
    exists (a ++ a'), b'. split; [|exact Hn]. now rewrite Ep, app_assoc.
Qed.

Lemma literal_quoted (body : str) :
  count NL body = 0 -> backticks_quoted (DQUOTE :: body ++ [DQUOTE]).
Proof.
  intros H p q E. destruct p as [|x p]; [discriminate|].
  injection E as <- E. exists [], p. split; [reflexivity|].
  assert (C : count NL (body ++ [DQUOTE]) = 0) by (rewrite count_app, H; reflexivity).
  rewrite E, count_app in C. lia.
Qed.

Lemma spaces_plain (w : str) : forallb is_ws w = true -> count 96%N w = 0.
Proof.
  intros H. apply count_zero_forall. rewrite forallb_forall in *.
  intros c Hc. specialize (H c Hc). unfold is_ws in H.
  destruct (N.eqb_spec c 96) as [->|]; [discriminate|reflexivity].
Qed.

Lemma skip_ws_quoted (s : str) :
  exists w, s = w ++ skip_ws s /\ backticks_quoted w.
Proof.
  destruct (skip_ws_decomp s) as (w & E & H). exists w.
  split; [exact E|]. now apply plain_quoted, spaces_plain.
Qed.

(** The body of a string literal holds no line feed. *)
Lemma scanstring_body n : forall s, length s <= n -> forall b x r,
  scanstring b s = SOk (x, r) ->
  exists body, s = body ++ DQUOTE :: r /\ count NL body = 0.
Proof.
  induction n as [|n IH]; intros s Hn b x r H.
  { destruct s; [discriminate|cbn in Hn; lia]. }
  destruct s as [|c s1]; [discriminate|]. cbn [length] in Hn.
  destruct (N.eqb_spec c DQUOTE) as [->|Hq].
  { rewrite scanstring_quote in H. injection H as <- <-. now exists []. }
  destruct (N.eqb_spec c BACKSLASH) as [->|Hb].
  2:{ rewrite scanstring_plain in H by (apply N.eqb_neq; assumption).
      destruct (c <=? 31)%N eqn:Ec; [discriminate|].
      apply scons_ok in H. destruct H as (x' & -> & H).
      destruct (IH s1 ltac:(lia) _ _ _ H) as (body & -> & Hc).
      exists (c :: body). split; [reflexivity|]. cbn [count]. rewrite Hc.
      apply N.leb_gt in Ec.
      destruct (N.eqb_spec c NL) as [->|]; [vm_compute in Ec; discriminate|reflexivity]. }
  destruct s1 as [|e s2]; [discriminate|]. cbn [length] in Hn.
  destruct (N.eqb_spec e (ch "u")) as [->|Hu].
  2:{ rewrite scanstring_escape in H by (apply N.eqb_neq; assumption).
      destruct (unescape e) as [c'|] eqn:Ee; [|discriminate].
      apply scons_ok in H. destruct H as (x' & -> & H).
      destruct (IH s2 ltac:(lia) _ _ _ H) as (body & -> & Hc).
      exists (BACKSLASH :: e :: body). split; [reflexivity|].
      cbn [count]. rewrite Hc.
      destruct (N.eqb_spec e NL) as [->|]; [discriminate Ee|reflexivity]. }
  pose proof (scanstring_u_short _ _ _ _ H) as Hlen.
  destruct s2 as [|h1 [|h2 [|h3 [|h4 [|y t]]]]]; cbn [length] in Hlen; try lia.
  cbn [length] in Hn. rewrite scanstring_u in H.
  destruct (hex4 h1 h2 h3 h4) as [uni|] eqn:Eh; [|discriminate].
  assert (Hex : forall a b c d v, hex4 a b c d = Some v ->
                  count NL [a; b; c; d] = 0).
  { intros a b0 c d v E. unfold hex4 in E.
    destruct (hex_val a) eqn:E1; [|discriminate].
    destruct (hex_val b0) eqn:E2; [|discriminate].
    destruct (hex_val c) eqn:E3; [|discriminate].
    destruct (hex_val d) eqn:E4; [|discriminate].
    cbn [count].
    destruct (N.eqb_spec a NL) as [->|]; [discriminate E1|].
    destruct (N.eqb_spec b0 NL) as [->|]; [discriminate E2|].
    destruct (N.eqb_spec c NL) as [->|]; [discriminate E3|].
    destruct (N.eqb_spec d NL) as [->|]; [discriminate E4|]. reflexivity. }
  assert (Hsingle : forall x',
             scanstring b (y :: t) = SOk (x', r) ->
             exists body,
               BACKSLASH :: ch "u" :: h1 :: h2 :: h3 :: h4 :: y :: t
               = body ++ DQUOTE :: r /\ count NL body = 0).
  { intros x' Hx'.
    destruct (IH (y :: t) ltac:(cbn [length]; lia) _ _ _ Hx') as (body & E & Hc).
    exists ([BACKSLASH; ch "u"] ++ [h1; h2; h3; h4] ++ body).
    split; [cbn [app]; now rewrite E|].
    rewrite !count_app, (Hex _ _ _ _ _ Eh), Hc. reflexivity. }
  destruct (is_high_surrogate uni).
  2:{ apply scons_ok in H. destruct H as (x' & -> & H). exact (Hsingle _ H). }
  destruct (lookahead_pair (y :: t)) as [[uni2|]|] eqn:Ela; [|discriminate|].
  - destruct (is_low_surrogate uni2).
    + apply scons_ok in H. destruct H as (x' & -> & H).
      destruct (lookahead_pair_some _ _ Ela)
        as (g1 & g2 & g3 & g4 & y' & t' & E & Eg).
      rewrite E in H. cbn [skipn] in H. injection E as -> ->.
      cbn [length] in Hn.
      destruct (IH (y' :: t') ltac:(cbn [length]; lia) _ _ _ H) as (body & E & Hc).
      exists ([BACKSLASH; ch "u"] ++ [h1; h2; h3; h4]
                ++ [BACKSLASH; ch "u"] ++ [g1; g2; g3; g4] ++ body).
      split; [cbn [app]; now rewrite E|].
      rewrite !count_app, (Hex _ _ _ _ _ Eh), (Hex _ _ _ _ _ (eq_sym Eg)), Hc.
      reflexivity.
    + apply scons_ok in H. destruct H as (x' & -> & H). exact (Hsingle _ H).
  - apply scons_ok in H. destruct H as (x' & -> & H). exact (Hsingle _ H).
Qed.

Lemma number_char_plain (s : str) :
  forallb number_char s = true -> count 96%N s = 0.
Proof.
  intros H. apply count_zero_forall. rewrite forallb_forall in *.
  intros c Hc. specialize (H c Hc).
  destruct (N.eqb_spec c 96) as [->|]; [discriminate|reflexivity].
Qed.

Lemma digits_number_chars (ds : str) :
  forallb is_digit ds = true -> forallb number_char ds = true.
Proof.
  intros H. rewrite forallb_forall in *. intros c Hc.
  unfold number_char. now rewrite (H c Hc).
Qed.

Lemma number_exp_chars (s ex r : str) :
  number_exp s = (ex, r) -> forallb number_char ex = true.
Proof.
  unfold number_exp. destruct s as [|e s]; [now intros [= <- <-]|].
  destruct ((e =? ch "e") || (e =? ch "E"))%N eqn:He; [|now intros [= <- <-]].
  assert (Ce : number_char e = true).
  { unfold number_char. apply orb_true_iff in He.
    destruct He as [He|He]; apply N.eqb_eq in He; subst e; reflexivity. }
  destruct (match s with
            | c :: t => if ((c =? ch "-") || (c =? ch "+"))%N then ([c], t) else ([], s)
            | [] => ([], s)
            end) as [sg s''] eqn:Es.
  assert (Cs : forallb number_char sg = true).
  { destruct s as [|c t]; [now injection Es as <- <-|].
    destruct ((c =? ch "-") || (c =? ch "+"))%N eqn:Hc; injection Es as <- <-;
      [|reflexivity].
    cbn [forallb]. rewrite andb_true_r. unfold number_char.
    apply orb_true_iff in Hc. destruct Hc as [Hc|Hc]; apply N.eqb_eq in Hc;
      subst c; reflexivity. }
  destruct (span_digits s'') as [ds r'] eqn:E.
  destruct (span_digits_decomp _ _ _ E) as (_ & Hd & _).
  destruct ds as [|d ds]; intros [= <- <-]; [reflexivity|].
  cbn [forallb]. rewrite Ce, forallb_app, Cs. cbn [andb].
  now apply digits_number_chars.
Qed.

Lemma match_number_chars (s : str) fl numstr r :
  match_number s = Some (fl, numstr, r) -> forallb number_char numstr = true.
Proof.
  unfold match_number. intros H.
  destruct (number_sign s) as [sg s1] eqn:E1.
  destruct (number_int s1) as [[ip s2]|] eqn:E2; [|discriminate].
  destruct (number_frac s2) as [frac s3] eqn:E3.
  destruct (number_exp s3) as [ex s4] eqn:E4.
  injection H as _ <- _.
  destruct (number_sign_spec _ _ _ E1) as (_ & Hsg).
  destruct (number_int_spec _ _ _ E2) as (_ & _ & Hip & _).
  destruct (number_frac_spec _ _ _ E3) as (_ & Hfrac & _).
  rewrite !forallb_app. repeat (apply andb_true_iff; split).
  - destruct Hsg as [[-> _]| ->]; reflexivity.
  - now apply digits_number_chars.
  - destruct Hfrac as [->|(ds & -> & _ & Hd)]; [reflexivity|].
    cbn [forallb]. now rewrite digits_number_chars.
  - exact (number_exp_chars _ _ _ E4).
Qed.

Lemma scan_atom_consumes {RT : PyRuntime} : consumes backticks_quoted scan_atom.
Proof.
  intros s v r H. unfold scan_atom in H.
  repeat match type of H with
         | (if startswith ?l s then _ else _) = _ =>
             let E := fresh "E" in
             destruct (startswith l s) eqn:E;
             [ apply startswith_inv in E; destruct E as [rest ->];
               injection H as _ <-; exists l;
               split; [reflexivity|apply plain_quoted; reflexivity]
             | ]
         end.
  destruct (match_number s) as [[[fl numstr] r0]|] eqn:Em; [|discriminate].
  destruct (match_number_spec _ _ _ _ Em) as (-> & _).
  exists numstr. split.
  - destruct fl; [now injection H as _ <-|].
    destruct (too_many_digits _); [discriminate|]. now injection H as _ <-.
  - apply plain_quoted, number_char_plain. exact (match_number_chars _ _ _ _ Em).
Qed.

Lemma char_quoted (c : char) : c <> 96%N -> backticks_quoted [c].
Proof.
  intros H. apply plain_quoted. cbn [count].
  destruct (N.eqb_spec c 96); [contradiction|reflexivity].
Qed.

Lemma parse_items_consumes {A : Type} (item : str -> sres (A * str)) close k :
  close <> 96%N -> consumes backticks_quoted item ->
  consumes backticks_quoted (parse_items item close k).
Proof.
  intros Hc Hi. induction k as [|k IH]; intros s xs r H; [discriminate|].
  cbn [parse_items] in H. apply sbind_ok in H.
  destruct H as ([x r1] & Hx & H). destruct (Hi _ _ _ Hx) as (c1 & -> & Q1).
  destruct (skip_ws_quoted r1) as (w1 & E1 & Qw1).
  destruct (skip_ws r1) as [|c r2]; [discriminate|].
  destruct (N.eqb_spec c close) as [->|Hn].
  - injection H as _ <-. exists (c1 ++ w1 ++ [close]).
    split; [rewrite E1, <- !app_assoc; reflexivity|].
    apply quoted_app; [exact Q1|]. apply quoted_app; [exact Qw1|].
    now apply char_quoted.
  - destruct (N.eqb_spec c (ch ",")) as [->|]; [|discriminate].
    apply sbind_ok in H. destruct H as ([xs' r3] & Hxs & H). injection H as _ <-.
    destruct (skip_ws_quoted r2) as (w2 & E2 & Qw2).
    destruct (IH _ _ _ Hxs) as (c3 & E3 & Q3).
    exists (c1 ++ w1 ++ [ch ","] ++ w2 ++ c3).
    split; [rewrite E1, E2, E3, <- !app_assoc; reflexivity|].
    repeat (apply quoted_app; try assumption).
    apply char_quoted. discriminate.
Qed.

Lemma parse_container_consumes {A : Type} (item : str -> sres (A * str)) close :
  close <> 96%N -> consumes backticks_quoted item ->
  consumes backticks_quoted (parse_container item close).
Proof.
  intros Hc Hi s xs r H. unfold parse_container in H.
  destruct (skip_ws_quoted s) as (w & E & Qw).
  assert (Items : forall k, parse_items item close k (skip_ws s) = SOk (xs, r) ->
                    exists c, s = c ++ r /\ backticks_quoted c).
  { intros k Hk. destruct (parse_items_consumes item close k Hc Hi _ _ _ Hk)
      as (c & Ec & Qc).
    exists (w ++ c). split; [rewrite E at 1; rewrite Ec, app_assoc; reflexivity|].
    now apply quoted_app. }
  destruct (skip_ws s) as [|c s'] eqn:Es; [exact (Items _ H)|].
  destruct (N.eqb_spec c close) as [->|]; [|exact (Items _ H)].
  injection H as _ <-. exists (w ++ [close]).
  split; [rewrite E at 1; rewrite <- app_assoc; reflexivity|].
  apply quoted_app; [exact Qw|now apply char_quoted].
Qed.

Lemma parse_member_consumes {V : Type} (scan : str -> sres (V * str)) :
  consumes backticks_quoted scan -> consumes backticks_quoted (parse_member scan).
Proof.
  intros Hs s [k v] r H. unfold parse_member in H.
  destruct s as [|c s1]; [discriminate|].
  destruct (N.eqb_spec c DQUOTE) as [->|]; [|discriminate].
  apply sbind_ok in H. destruct H as ([key r1] & Hk & H).
  destruct (scanstring_body _ _ (le_n _) _ _ _ Hk) as (body & -> & Hb).
  destruct (skip_ws_quoted r1) as (w1 & E1 & Qw1).
  destruct (skip_ws r1) as [|c2 r2]; [discriminate|].
  destruct (N.eqb_spec c2 (ch ":")) as [->|]; [|discriminate].
  apply sbind_ok in H. destruct H as ([v' r3] & Hv & H). injection H as _ _ <-.
  destruct (skip_ws_quoted r2) as (w2 & E2 & Qw2).
  destruct (Hs _ _ _ Hv) as (c3 & E3 & Q3).
  exists ((DQUOTE :: body ++ [DQUOTE]) ++ w1 ++ [ch ":"] ++ w2 ++ c3).
  split; [rewrite E1, E2, E3; repeat (cbn [app]; rewrite <- ?app_assoc); reflexivity|].
  apply quoted_app; [now apply literal_quoted|].
  repeat (apply quoted_app; try assumption).
  apply char_quoted. discriminate.
Qed.

Lemma scan_once_consumes {RT : PyRuntime} (d : nat) :
  consumes backticks_quoted (scan_once d).
Proof.
  induction d as [|d IH]; intros s v r H;
    (destruct s as [|c s']; [rewrite scan_once_nil in H; discriminate|]);
    (destruct (N.eqb_spec c DQUOTE) as [->|H1];
     [rewrite scan_once_string in H; apply sbind_ok in H;
      destruct H as ([x r1] & Hs & H); injection H as _ <-;
      destruct (scanstring_body _ _ (le_n _) _ _ _ Hs) as (body & -> & Hb);
      exists (DQUOTE :: body ++ [DQUOTE]);
      split; [cbn [app]; rewrite <- app_assoc; reflexivity|now apply literal_quoted]|]);
    (destruct (N.eqb_spec c (ch "{")) as [->|H2];
     [|destruct (N.eqb_spec c (ch "[")) as [->|H3];
       [|apply N.eqb_neq in H1, H2, H3; rewrite scan_once_atom in H by assumption;
         exact (scan_atom_consumes _ _ _ H)]]);
    try discriminate.
  - rewrite scan_once_object in H. apply sbind_ok in H.
    destruct H as ([pairs r1] & Hc & H). injection H as _ <-.
    destruct (parse_container_consumes _ (ch "}") ltac:(discriminate)
                (parse_member_consumes _ IH) _ _ _ Hc) as (c & -> & Qc).
    exists ([ch "{"] ++ c). split; [reflexivity|].
    apply quoted_app; [apply char_quoted; discriminate|exact Qc].
  - rewrite scan_once_array in H. apply sbind_ok in H.
    destruct H as ([values r1] & Hc & H). injection H as _ <-.
    destruct (parse_container_consumes _ (ch "]") ltac:(discriminate)
                IH _ _ _ Hc) as (c & -> & Qc).
    exists ([ch "["] ++ c). split; [reflexivity|].
    apply quoted_app; [apply char_quoted; discriminate|exact Qc].
Qed.

(** In JSON text that [json.loads] accepts, every backtick is inside a
    string literal, which is on one line. *)
Lemma json_loads_quoted {RT : PyRuntime} (s : str) (v : pyval) :
  json_loads s = Returns v -> backticks_quoted s.
Proof.
  intros H. unfold json_loads in H.
  destruct (startswith [65279%N] s); [discriminate|].
  destruct (scan_once recursion_limit (skip_ws s)) as [[obj r]| | |] eqn:E;
    try discriminate.
  destruct (skip_ws r) eqn:Er; [|discriminate].
  destruct (skip_ws_quoted s) as (w & Es & Qw).
  destruct (scan_once_consumes _ _ _ _ E) as (c & Ec & Qc).
  destruct (skip_ws_quoted r) as (w' & Er' & Qw'). rewrite Er, app_nil_r in Er'.
  rewrite Es, Ec, Er'. repeat (apply quoted_app; try assumption).
Qed.

Lemma join_line_context (sep : char) (ls : list str) (line : str) :
  In line ls ->
  exists pre post, join [sep] ls = pre ++ line ++ post
                   /\ (pre = [] \/ exists pre', pre = pre' ++ [sep]).
Proof.
  induction ls as [|l ls IH]; [intros []|]. intros H.
  destruct ls as [|l2 ls].
  - destruct H as [<-|[]]. exists [], []. cbn [join app]. rewrite app_nil_r. auto.
  - change (join [sep] (l :: l2 :: ls)) with (l ++ [sep] ++ join [sep] (l2 :: ls)).
    destruct H as [<-|H].
    + exists [], ([sep] ++ join [sep] (l2 :: ls)). auto.
    + destruct (IH H) as (pre & post & -> & Hp).
      exists (l ++ [sep] ++ pre), post. split; [now rewrite <- !app_assoc|].
      right. destruct Hp as [->|(pre' & ->)].
      * exists l. now rewrite app_nil_r.
      * exists (l ++ [sep] ++ pre'). now rewrite <- !app_assoc.
Qed.

Lemma lstrip_decomp (s : str) :
  exists w, s = w ++ lstrip s /\ forallb isspace w = true.
Proof.
  induction s as [|c s (w & E & H)]; [now exists []|]. cbn [lstrip].
  destruct (isspace c) eqn:Ec; [|now exists []].
  exists (c :: w). split; [cbn [app]; now rewrite <- E|].
  cbn [forallb]. now rewrite Ec.
Qed.

Lemma rstrip_decomp (s : str) : exists w, s = rstrip s ++ w.
Proof.
  induction s as [|c s (w & E)]; [now exists []|]. cbn [rstrip].
  destruct (rstrip s) as [|y t] eqn:Er.
  - destruct (isspace c); [now exists (c :: s)|exists s; reflexivity].
  - exists w. cbn [app]. now rewrite E at 1.
Qed.

(** A line that is a fence marker, however much whitespace surrounds the
    marker, has a backtick that no quote of the same line comes before. *)
Lemma quoted_no_fence_line (s : str) :
  backticks_quoted s ->
  forallb (fun line => negb (str_eqb (strip line) FENCE)) (split NL s) = true.
Proof.
  intros Q. apply forallb_forall. intros line Hl. apply negb_true_iff.
  destruct (str_eqb (strip line) FENCE) eqn:E; [exfalso|reflexivity].
  apply str_eqb_eq in E.
  destruct (join_line_context NL _ _ Hl) as (pre & post & Es & Hp).
  rewrite join_split in Es.
  destruct (lstrip_decomp line) as (w1 & El & Hw1).
  destruct (rstrip_decomp (lstrip line)) as (w2 & Er).
  fold (strip line) in Er. rewrite E in Er.
  assert (Eq : s = (pre ++ w1) ++ 96%N :: (lit "``" ++ w2 ++ post)).
  { rewrite Es, El, Er. repeat (cbn [app]; rewrite <- ?app_assoc). reflexivity. }
  destruct (Q _ _ Eq) as (a & b & Ea & Hb).
  assert (Nq : forall x y, w1 <> x ++ DQUOTE :: y).
  { intros x y ->. rewrite forallb_app in Hw1. apply andb_true_iff in Hw1.
    destruct Hw1 as [_ Hw1]. discriminate Hw1. }
  apply app_eq_app in Ea. destruct Ea as [l [[Ea El']|[Ea El']]].
  - destruct l as [|x l]; [exact (Nq [] b (eq_sym El'))|].
    injection El' as <- El'.
    destruct Hp as [->|(pre' & ->)]; [destruct a; discriminate|].
    destruct l as [|y l] using rev_ind.
    + change (a ++ [DQUOTE]) with (a ++ [DQUOTE]) in Ea.
      apply app_inj_tail in Ea. destruct Ea as [_ Ea]. discriminate.
    + clear IHl. rewrite app_comm_cons, app_assoc in Ea.
      apply app_inj_tail in Ea. destruct Ea as [_ <-].
      rewrite El', !count_app in Hb. cbn [count] in Hb.
      rewrite N.eqb_refl in Hb. lia.
  - exact (Nq l b El').
Qed.

(** X4.  A response that wraps JSON text that [json.loads] accepts in a
    code fence, with any one-line tag after the opening marker and any
    further lines after the closing marker, decodes to the value of that
    JSON text: in such text no line is a fence marker. *)
Theorem fenced_json_decoded {RT : PyRuntime} (tag content trailer : str) (v : pyval) :
  json_loads content = Returns v ->
  count NL tag = 0 ->
  match trailer with [] => true | c :: _ => (c =? NL)%N end = true ->
  _safe_json (fenced tag content trailer) = Returns v.
Proof.
  intros Hv Ht Hr. unfold _safe_json.
  rewrite defence_fenced; [|exact Ht|exact Hr|].
  - unfold decode_or_repair. now rewrite Hv.
  - apply quoted_no_fence_line. exact (json_loads_quoted _ _ Hv).
Qed.

Lemma fenced_json_decoded_witness :
  @_safe_json reference_runtime
     (fenced (lit "json") (py "{'a': ['```', 2.5, null]}") (NL :: lit "Hope this helps!"))
  = Returns (PDict [(py "a", PList [PStr (lit "```"); PFloat (py "2.5"); PNone])]).
Proof.
  apply (@fenced_json_decoded reference_runtime); reflexivity.
Defined.

(** * The responses of the providers *)

Lemma safe_json_cases {RT : PyRuntime} (text : str) :
  (exists v, _safe_json text = Returns v)
  \/ (exists e, _safe_json text = Raises e /\ known_exception e).
Proof.
  unfold _safe_json, decode_or_repair. set (t := defence text).
  destruct (json_loads_cases t) as [[v ->]|[(m & p & ->)|(e & -> & He)]]; eauto.
  - destruct (_try_fix_json t) as [[|y fixed]|]; eauto.
    destruct (json_loads_cases (y :: fixed)) as [[v ->]|[(m' & p' & ->)|(e & -> & He)]];
      eauto.
    destruct He as [->| ->]; right; eexists; split; try reflexivity; [now left|now right].
  - destruct He as [->| ->]; right; eexists; split; try reflexivity; [now left|now right].
Qed.

Lemma safe_json_call_cases {RT : PyRuntime} (content : pyval) :
  (exists v, safe_json_call content = Done v)
  \/ safe_json_call content = Fails AttributeError
  \/ (exists e, safe_json_call content = Fails (DecoderError e) /\ known_exception e).
Proof.
  destruct content as [| | | |text| |]; cbn [safe_json_call]; auto.
  destruct (safe_json_cases text) as [[v ->]|(e & -> & He)]; eauto.
Qed.

Lemma gemini_finish_reason_cases {RT : PyRuntime} (data : pyval) :
  (exists fr, gemini_finish_reason data = Done fr)
  \/ gemini_finish_reason data = Fails TypeError
  \/ gemini_finish_reason data = Fails AttributeError.
Proof.
  unfold gemini_finish_reason, get_method.
  destruct data as [| | | | | |d]; cbn [run_bind except_lookup]; auto.
  destruct (match dict_get (lit "candidates") d with Some x => x | None => _ end)
    as [| | | |s|l|c]; cbn [getitem_index run_bind except_lookup]; eauto.
  - destruct (nth_error s 0); cbn [run_bind except_lookup]; eauto.
  - destruct (nth_error l 0) as [[| | | | | |e]|]; cbn [run_bind except_lookup]; eauto.
Qed.

Lemma setitem_key_cases {RT : PyRuntime} (v : pyval) key x :
  (exists r, setitem_key v key x = Done r) \/ setitem_key v key x = Fails TypeError.
Proof. destruct v; cbn [setitem_key]; eauto. Qed.

(** X5.  Whatever the decoded response is, the Gemini path lets no
    [KeyError] and no [IndexError] out: it fails only with [TypeError] or
    [AttributeError], on a response of the wrong shape or a decoded text
    that is not a mapping, or with the [RecursionError] or [ValueError] of
    the decoder. *)
Theorem gemini_result_failures {RT : PyRuntime} {PO : PyObject} (data : pyval) :
  _analyze_gemini_result data <> Loops
  /\ forall e, _analyze_gemini_result data = Fails e ->
       e = TypeError \/ e = AttributeError
       \/ exists x, e = DecoderError x /\ known_exception x.
Proof.
  unfold _analyze_gemini_result.
  destruct (gemini_finish_reason_cases data) as [[fr ->]|[-> | ->]];
    cbn [run_bind]; [|split; [discriminate|intros e [= <-]; auto]..].
  assert (T : match gemini_text data with
              | Fails (DecoderError _) | Loops => False
              | _ => True
              end).
  { unfold gemini_text, getitem_key, getitem_index.
    repeat (match goal with
            | |- context [run_bind (match ?x with _ => _ end) _] => destruct x
            | |- context [match (match ?x with _ => _ end) with _ => _ end] => destruct x
            end; cbn [run_bind]; try exact I). }
  destruct (gemini_text data) as [text|[| | | |x]|]; try contradiction;
    try (split; [discriminate|intros e [= <-]; auto]).
  destruct (safe_json_call_cases text) as [[v ->]|[-> |(x & -> & Hx)]];
    cbn [run_bind];
    [|split; [discriminate|intros e [= <-]; eauto]..].
  destruct (truthy fr && negb (among fr normal_finish));
    [|split; [discriminate|discriminate]].
  destruct (setitem_key_cases v key_warning (PStr (warning_text fr))) as [[r ->]| ->];
    split; try discriminate. intros e [= <-]. auto.
Qed.

Lemma gemini_result_failures_witness :
  AttributeError = TypeError \/ AttributeError = AttributeError
  \/ exists x, AttributeError = DecoderError x /\ known_exception x.
Proof.
  apply (proj2 (@gemini_result_failures reference_runtime reference_object (PList []))).
  reflexivity.
Defined.

Lemma dict_get_set_same {V : Type} (key : str) (value : V) (d : list (str * V)) :
  dict_get key (dict_set key value d) = Some value.
Proof.
  induction d as [|[k v] d IH]; cbn [dict_set dict_get].
  - now rewrite str_eqb_refl.
  - destruct (str_eqb k key) eqn:E; cbn [dict_get]; now rewrite E.
Qed.

Lemma dict_get_set_other {V : Type} (key key' : str) (value : V) (d : list (str * V)) :
  key' <> key -> dict_get key' (dict_set key value d) = dict_get key' d.
Proof.
  intros N. induction d as [|[k v] d IH]; cbn [dict_set dict_get].
  - rewrite str_eqb_neq by congruence. reflexivity.
  - destruct (str_eqb k key) eqn:E; cbn [dict_get].
    + apply str_eqb_eq in E. subst k. now rewrite str_eqb_neq by congruence.
    + now rewrite IH.
Qed.

Lemma gemini_response_text {RT : PyRuntime} (data text : pyval) finish :
  gemini_response data text finish ->
  gemini_text data = Done text
  /\ gemini_finish_reason data
     = Done (match finish with Some fr => fr | None => PStr [] end).
Proof.
  intros (d & c & others & ct & p & ps & -> & Hc & Hct & Hp & Ht & Hf).
  unfold gemini_text, gemini_finish_reason, getitem_key, get_method.
  rewrite Hc. cbn [run_bind getitem_index nth_error].
  rewrite Hct. cbn [run_bind]. rewrite Hp. cbn [run_bind getitem_index nth_error].
  rewrite Ht, Hf. split; reflexivity.
Qed.

(** X6.  On a Gemini response that carries a text and whose finish reason
    is absent, empty or one of [STOP], [END_TURN], [FINISH], the result is
    what the decoder returns for that text, unchanged. *)
Theorem gemini_normal_finish {RT : PyRuntime} {PO : PyObject}
        (data : pyval) (text : str) (finish : option pyval) :
  gemini_response data (PStr text) finish ->
  match finish with
  | None => True
  | Some fr => fr = PStr [] \/ fr = PNone \/ among fr normal_finish = true
  end ->
  _analyze_gemini_result data = safe_json_call (PStr text).
Proof.
  intros R F. destruct (gemini_response_text _ _ _ R) as [Ht Hf].
  unfold _analyze_gemini_result. rewrite Hf, Ht. cbn [run_bind].
  assert (C : truthy (match finish with Some fr => fr | None => PStr [] end)
              && negb (among (match finish with Some fr => fr | None => PStr [] end)
                             normal_finish) = false).
  { destruct finish as [fr|]; [|reflexivity].
    destruct F as [->|[->|F]]; try reflexivity.
    rewrite F. apply andb_false_r. }
  rewrite C. now destruct (safe_json_call (PStr text)).
Qed.

Lemma gemini_normal_finish_witness :
  @_analyze_gemini_result reference_runtime reference_object
    (PDict [(lit "candidates",
             PList [PDict [(lit "content",
                            PDict [(lit "parts",
                                    PList [PDict [(lit "text", PStr (py "{'a': 1}"))]])]);
                           (lit "finishReason", PStr (lit "STOP"))]])])
  = safe_json_call (PStr (py "{'a': 1}")).
Proof.
  apply (@gemini_normal_finish reference_runtime reference_object _ _
           (Some (PStr (lit "STOP")))).
  - do 6 eexists. repeat split; reflexivity.
  - right. right. reflexivity.
Defined.

Lemma abnormal_finish {RT : PyRuntime} {PO : PyObject} (reason : str) :
  reason <> [] -> ~ In reason normal_finish ->
  truthy (PStr reason) && negb (among (PStr reason) normal_finish) = true.
Proof.
  intros Hne Hn. apply andb_true_iff. split.
  - destruct reason; [congruence|reflexivity].
  - apply negb_true_iff. cbn [among].
    destruct (existsb (str_eqb reason) normal_finish) eqn:E; [|reflexivity].
    apply existsb_exists in E. destruct E as (x & Hx & E).
    apply str_eqb_eq in E. subst x. contradiction.
Qed.

(** X7.  On a Gemini response whose text decodes to a mapping and whose
    finish reason is a non-empty string other than [STOP], [END_TURN] and
    [FINISH], the result is that mapping with the key [_warning] set to the
    message that names the finish reason; every other key keeps its
    value. *)
Theorem gemini_warning_added {RT : PyRuntime} {PO : PyObject}
        (data : pyval) (text reason : str) (decoded : list (str * pyval)) :
  gemini_response data (PStr text) (Some (PStr reason)) ->
  reason <> [] -> ~ In reason normal_finish ->
  _safe_json text = Returns (PDict decoded) ->
  exists result,
    _analyze_gemini_result data = Done (PDict result)
    /\ dict_get key_warning result
       = Some (PStr (lit "Response may be incomplete (finishReason: "
                       ++ reason ++ lit ")"))
    /\ forall key, key <> key_warning -> dict_get key result = dict_get key decoded.
Proof.
  intros R Hne Hn Hd. destruct (gemini_response_text _ _ _ R) as [Ht Hf].
  unfold _analyze_gemini_result. rewrite Hf, Ht. cbn [run_bind safe_json_call].
  rewrite Hd. cbn [run_bind]. rewrite (abnormal_finish reason Hne Hn).
  cbn [setitem_key]. eexists. split; [reflexivity|]. split.
  - apply dict_get_set_same.
  - intros key Hk. now apply dict_get_set_other.
Qed.

Lemma gemini_warning_added_witness :
  exists result,
    @_analyze_gemini_result reference_runtime reference_object
      (PDict [(lit "candidates",
               PList [PDict [(lit "content",
                              PDict [(lit "parts",
                                      PList [PDict [(lit "text", PStr truncated_input)]])]);
                             (lit "finishReason", PStr (lit "MAX_TOKENS"))]])])
    = Done (PDict result)
    /\ dict_get key_warning result
       = Some (PStr (lit "Response may be incomplete (finishReason: "
                       ++ lit "MAX_TOKENS" ++ lit ")"))
    /\ forall key, key <> key_warning ->
                   dict_get key result
                   = dict_get key [(py "a", PList [PInt 1; PInt 2; PInt 3])].
Proof.
  apply (@gemini_warning_added reference_runtime reference_object _ truncated_input).
  - do 6 eexists. repeat split; reflexivity.
  - discriminate.
  - intros [H|[H|[H|[]]]]; discriminate.
  - vm_compute. reflexivity.
Defined.

(** X8.  On a Gemini response whose text decodes to a value that is not a
    mapping (a list, a string, a number, [true], [false], [null]) and whose
    finish reason is a non-empty string other than [STOP], [END_TURN] and
    [FINISH], storing the warning raises [TypeError]: no result is
    returned. *)
Theorem gemini_warning_type_error {RT : PyRuntime} {PO : PyObject}
        (data : pyval) (text reason : str) (decoded : pyval) :
  gemini_response data (PStr text) (Some (PStr reason)) ->
  reason <> [] -> ~ In reason normal_finish ->
  _safe_json text = Returns decoded -> not_mapping decoded ->
  _analyze_gemini_result data = Fails TypeError.
Proof.
  intros R Hne Hn Hd Hm. destruct (gemini_response_text _ _ _ R) as [Ht Hf].
  unfold _analyze_gemini_result. rewrite Hf, Ht. cbn [run_bind safe_json_call].
  rewrite Hd. cbn [run_bind]. rewrite (abnormal_finish reason Hne Hn).
  destruct decoded; try reflexivity. contradiction.
Qed.

Lemma gemini_warning_type_error_witness :
  @_analyze_gemini_result reference_runtime reference_object
    (PDict [(lit "candidates",
             PList [PDict [(lit "content",
                            PDict [(lit "parts",
                                    PList [PDict [(lit "text", PStr (py "['a', 'b"))]])]);
                           (lit "finishReason", PStr (lit "MAX_TOKENS"))]])])
  = Fails TypeError.
Proof.
  apply (@gemini_warning_type_error reference_runtime reference_object _
           (py "['a', 'b") (lit "MAX_TOKENS") (PList [PStr (py "a")])).
  - do 6 eexists. repeat split; reflexivity.
  - discriminate.
  - intros [H|[H|[H|[]]]]; discriminate.
  - vm_compute. reflexivity.
  - exact I.
Defined.

(** X9.  A Gemini response without candidates gives the fallback mapping,
    with [finish_reason] the empty string when the key [candidates] is
    missing and [None] when the list is empty; a first candidate without
    [content] (a blocked response) gives the fallback mapping with that
    candidate's [finishReason].  The decoder is not called. *)
Theorem gemini_fallback_result {RT : PyRuntime} {PO : PyObject}
        (d : list (str * pyval)) :
  (dict_get (lit "candidates") d = None ->
   _analyze_gemini_result (PDict d) = Done (gemini_fallback (PDict d) (PStr [])))
  /\ (dict_get (lit "candidates") d = Some (PList []) ->
      _analyze_gemini_result (PDict d) = Done (gemini_fallback (PDict d) PNone))
  /\ (forall candidate others,
        dict_get (lit "candidates") d = Some (PList (PDict candidate :: others)) ->
        dict_get (lit "content") candidate = None ->
        _analyze_gemini_result (PDict d)
        = Done (gemini_fallback (PDict d)
                  (match dict_get (lit "finishReason") candidate with
                   | Some fr => fr
                   | None => PStr []
                   end))).
Proof.
  unfold _analyze_gemini_result, gemini_finish_reason, gemini_text,
    get_method, getitem_key.
  split; [|split].
  - intros ->. reflexivity.
  - intros ->. reflexivity.
  - intros candidate others -> Hc. cbn [run_bind getitem_index nth_error except_lookup].
    now rewrite Hc.
Qed.

Lemma gemini_fallback_result_witness :
  @_analyze_gemini_result reference_runtime reference_object
    (PDict [(lit "candidates",
             PList [PDict [(lit "finishReason", PStr (lit "SAFETY"))]])])
  = Done (gemini_fallback
            (PDict [(lit "candidates",
                     PList [PDict [(lit "finishReason", PStr (lit "SAFETY"))]])])
            (PStr (lit "SAFETY"))).
Proof.
  apply (proj2 (proj2 (@gemini_fallback_result reference_runtime reference_object
                         [(lit "candidates",
                           PList [PDict [(lit "finishReason", PStr (lit "SAFETY"))]])]))
           [(lit "finishReason", PStr (lit "SAFETY"))] []); reflexivity.
Defined.

Lemma openai_response_content {RT : PyRuntime} (data content : pyval) :
  openai_response data content -> openai_content data = Done content.
Proof.
  intros (d & c & others & m & -> & Hc & Hm & Ht).
  unfold openai_content, getitem_key.
  rewrite Hc. cbn [run_bind getitem_index nth_error].
  rewrite Hm. cbn [run_bind]. now rewrite Ht.
Qed.

(** X10.  The OpenAI path has no fallback.  On a response whose first
    choice has a string as [message.content] the result is what the decoder
    returns for it; a [null] content raises [AttributeError], a response
    mapping without the key [choices] raises [KeyError] and one with an
    empty list of choices raises [IndexError]. *)
Theorem openai_result_cases {RT : PyRuntime} (data : pyval) :
  (forall text, openai_response data (PStr text) ->
                _analyze_openai_result data = safe_json_call (PStr text))
  /\ (openai_response data PNone ->
      _analyze_openai_result data = Fails AttributeError)
  /\ (forall d, data = PDict d -> dict_get (lit "choices") d = None ->
                _analyze_openai_result data = Fails KeyError)
  /\ (forall d, data = PDict d -> dict_get (lit "choices") d = Some (PList []) ->
                _analyze_openai_result data = Fails IndexError).
Proof.
  unfold _analyze_openai_result. split; [|split; [|split]].
  - intros text R. now rewrite (openai_response_content _ _ R).
  - intros R. now rewrite (openai_response_content _ _ R).
  - intros d -> H. unfold openai_content, getitem_key. now rewrite H.
  - intros d -> H. unfold openai_content, getitem_key. now rewrite H.
Qed.

Lemma openai_result_cases_witness :
  @_analyze_openai_result reference_runtime
    (PDict [(lit "choices",
             PList [PDict [(lit "message",
                            PDict [(lit "role", PStr (lit "assistant"));
                                   (lit "content", PNone)])]])])
  = Fails AttributeError.
Proof.
  apply (proj1 (proj2 (@openai_result_cases reference_runtime _))).
  do 4 eexists. repeat split; reflexivity.
Defined.

(** * Reading a text file of reviews *)

(** ** The codecs *)

Lemma option_map_some {A B : Type} (f : A -> B) (o : option A) (b : B) :
  option_map f o = Some b -> exists a, o = Some a /\ b = f a.
Proof. destruct o; [intros [= <-]; eauto|discriminate]. Qed.

Lemma utf8_decode_length n : forall bs s,
  length bs <= n -> utf8_decode bs = Some s -> length s <= length bs.
Proof.
  induction n as [|n IH]; intros bs s Hn H.
  { destruct bs; [injection H as <-; reflexivity|cbn in Hn; lia]. }
  destruct bs as [|b0 r0]; [injection H as <-; reflexivity|].
  cbn [utf8_decode] in H. cbn [length] in *.
  destruct (b0 <? 128)%N.
  { apply option_map_some in H. destruct H as (s' & H & ->).
    apply IH in H; cbn [length]; lia. }
  destruct ((194 <=? b0) && (b0 <=? 223))%N.
  { destruct r0 as [|b1 r1]; [discriminate|].
    destruct (is_continuation b1); [|discriminate].
    apply option_map_some in H. destruct H as (s' & H & ->).
    cbn [length] in *. apply IH in H; lia. }
  destruct ((224 <=? b0) && (b0 <=? 239))%N.
  { destruct r0 as [|b1 [|b2 r2]]; try discriminate. cbv zeta in H.
    match type of H with (if ?b then _ else _) = _ => destruct b end; [|discriminate].
    apply option_map_some in H. destruct H as (s' & H & ->).
    cbn [length] in *. apply IH in H; lia. }
  destruct ((240 <=? b0) && (b0 <=? 244))%N; [|discriminate].
  destruct r0 as [|b1 [|b2 [|b3 r3]]]; try discriminate. cbv zeta in H.
  match type of H with (if ?b then _ else _) = _ => destruct b end; [|discriminate].
  apply option_map_some in H. destruct H as (s' & H & ->).
  cbn [length] in *. apply IH in H; lia.
Qed.

Lemma page_decode_length (high : list N) (bs : list N) (s : str) :
  page_decode high bs = Some s -> length s = length bs.
Proof.
  revert s. induction bs as [|b bs IH]; intros s H; cbn [page_decode] in H.
  - now injection H as <-.
  - destruct (page_char high b); [|discriminate].
    destruct (page_decode high bs); [|discriminate].
    injection H as <-. cbn [length]. now rewrite (IH _ eq_refl).
Qed.

Lemma page_decode_defined (high : list N) (bs : list N) :
  (forall b, In b bs -> page_char high b <> None) <->
  exists s, page_decode high bs = Some s.
Proof.
  induction bs as [|b bs IH]; cbn [page_decode].
  - split; [eauto|intros _ b []].
  - split.
    + intros H. destruct (page_char high b) eqn:E;
        [|exfalso; now apply (H b (or_introl eq_refl))].
      destruct (proj1 IH (fun x Hx => H x (or_intror Hx))) as [s ->]. eauto.
    + intros [s H] x [<-|Hx].
      * destruct (page_char high b); [discriminate|].
        discriminate.
      * destruct (page_char high b); [|discriminate].
        destruct (page_decode high bs) eqn:E; [|discriminate].
        apply (proj2 IH); eauto.
Qed.

Lemma cp1251_undefined (b : Byte.byte) :
  page_char cp1251_high (Byte.to_N b) = None <-> b = Byte.x98.
Proof. destruct b; vm_compute; split; (discriminate || reflexivity). Qed.

Lemma cp1252_undefined (b : Byte.byte) :
  page_char cp1252_high (Byte.to_N b) = None
  <-> In b [Byte.x81; Byte.x8d; Byte.x8f; Byte.x90; Byte.x9d].
Proof.
  destruct b; vm_compute; split; try discriminate; try tauto;
    intros H; repeat (destruct H as [H|H]; [discriminate H|]); destruct H.
Qed.

Lemma decode_page_defined (high : list N) (content : bytes) :
  (forall b, In b content -> page_char high (Byte.to_N b) <> None) <->
  exists s, page_decode high (map Byte.to_N content) = Some s.
Proof.
  rewrite <- page_decode_defined. split.
  - intros H n Hn. apply in_map_iff in Hn. destruct Hn as (b & <- & Hb). auto.
  - intros H b Hb. apply H. now apply in_map.
Qed.

(** X11.  [_decode_text] never reaches its last resort, because [latin-1]
    decodes every byte string; its result never has more characters than
    the content has bytes, and has exactly as many unless the content is
    valid UTF-8. *)
Theorem decode_text_total (last_resort : bytes -> str) (content : bytes) :
  first_decoding encodings content = Some (_decode_text last_resort content)
  /\ length (_decode_text last_resort content) <= length content
  /\ (decode utf_8 content = None ->
      length (_decode_text last_resort content) = length content).
Proof.
  unfold _decode_text, encodings, first_decoding, decode.
  destruct (utf8_decode (map Byte.to_N content)) as [s|] eqn:E1.
  { split; [reflexivity|]. split; [|discriminate].
    apply utf8_decode_length with (n := length (map Byte.to_N content)) in E1; [|lia].
    now rewrite length_map in E1. }
  destruct (page_decode cp1251_high (map Byte.to_N content)) as [s|] eqn:E2.
  { apply page_decode_length in E2. rewrite length_map in E2.
    split; [reflexivity|]. split; [lia|auto]. }
  destruct (page_decode cp1252_high (map Byte.to_N content)) as [s|] eqn:E3.
  { apply page_decode_length in E3. rewrite length_map in E3.
    split; [reflexivity|]. split; [lia|auto]. }
  rewrite length_map. split; [reflexivity|]. split; [lia|auto].
Qed.

Lemma decode_text_total_witness :
  length (_decode_text (fun _ => []) [Byte.xcf; Byte.xf0; Byte.xe8; Byte.xe2; Byte.xe5; Byte.xf2])
  = length [Byte.xcf; Byte.xf0; Byte.xe8; Byte.xe2; Byte.xe5; Byte.xf2].
Proof.
  apply (proj2 (proj2 (decode_text_total (fun _ => []) _))). reflexivity.
Defined.

(** X12.  When the content is not valid UTF-8 the code page is chosen by
    bytes that are undefined, not by the language of the text: without a
    byte [0x98] the content is read as [cp1251]; with one, as [cp1252]
    unless one of [0x81], [0x8d], [0x8f], [0x90], [0x9d] occurs too, and
    then as [latin-1]. *)
Theorem decode_text_code_page (last_resort : bytes -> str) (content : bytes) :
  decode utf_8 content = None ->
  (~ In Byte.x98 content ->
   decode cp1251 content = Some (_decode_text last_resort content))
  /\ (In Byte.x98 content ->
      (forall b, In b [Byte.x81; Byte.x8d; Byte.x8f; Byte.x90; Byte.x9d] ->
                 ~ In b content) ->
      decode cp1252 content = Some (_decode_text last_resort content))
  /\ (In Byte.x98 content ->
      (exists b, In b [Byte.x81; Byte.x8d; Byte.x8f; Byte.x90; Byte.x9d]
                 /\ In b content) ->
      decode latin_1 content = Some (_decode_text last_resort content)).
Proof.
  intros U. unfold _decode_text, encodings, first_decoding. rewrite U.
  assert (A : In Byte.x98 content <-> decode cp1251 content = None).
  { unfold decode. split.
    - intros H. destruct (page_decode cp1251_high (map Byte.to_N content)) eqn:E;
        [|reflexivity].
      exfalso. apply (proj2 (decode_page_defined cp1251_high content) (ex_intro _ _ E) _ H).
      now apply cp1251_undefined.
    - intros H. destruct (in_dec Byte.byte_eq_dec Byte.x98 content) as [|N]; [assumption|].
      exfalso. destruct (proj1 (decode_page_defined cp1251_high content)) as [s E];
        [|congruence].
      intros b Hb Hu. apply cp1251_undefined in Hu. congruence. }
  assert (B : (exists b, In b [Byte.x81; Byte.x8d; Byte.x8f; Byte.x90; Byte.x9d]
                         /\ In b content) <-> decode cp1252 content = None).
  { unfold decode. split.
    - intros (b & Hb & Hc).
      destruct (page_decode cp1252_high (map Byte.to_N content)) eqn:E; [|reflexivity].
      exfalso. apply (proj2 (decode_page_defined cp1252_high content) (ex_intro _ _ E) _ Hc).
      now apply cp1252_undefined.
    - intros H.
      destruct (Exists_dec (fun b => In b [Byte.x81; Byte.x8d; Byte.x8f; Byte.x90; Byte.x9d])
                  content) as [Ex|Nx].
      { intros b. apply in_dec. apply Byte.byte_eq_dec. }
      + apply Exists_exists in Ex. destruct Ex as (b & Hc & Hb). eauto.
      + exfalso. destruct (proj1 (decode_page_defined cp1252_high content)) as [s E];
          [|congruence].
        intros b Hb Hu. apply cp1252_undefined in Hu. apply Nx.
        apply Exists_exists. eauto. }
  split; [|split].
  - intros N. destruct (decode cp1251 content) eqn:E; [reflexivity|].
    exfalso. apply N. now apply (proj2 A).
  - intros H N. rewrite (proj1 A H).
    destruct (decode cp1252 content) eqn:E; [reflexivity|].
    exfalso. destruct (proj2 B eq_refl) as (b & Hb & Hc). exact (N b Hb Hc).
  - intros H Ex. now rewrite (proj1 A H), (proj1 B Ex).
Qed.

Lemma decode_text_code_page_witness :
  decode cp1251 [Byte.xe9; Byte.x74; Byte.xe9]
  = Some (_decode_text (fun _ => []) [Byte.xe9; Byte.x74; Byte.xe9]).
Proof.
  apply (proj1 (decode_text_code_page (fun _ => []) [Byte.xe9; Byte.x74; Byte.xe9] eq_refl)).
  intros [H|[H|[H|[]]]]; discriminate.
Defined.

Lemma to_N_byte_of (n : N) : (n <= 255)%N -> Byte.to_N (byte_of n) = n.
Proof.
  intros H. unfold byte_of. destruct (Byte.of_N n) as [b|] eqn:E.
  - now apply Byte.to_of_N.
  - apply Byte.of_N_None_iff in E. lia.
Qed.

Ltac decide_comparisons :=
  repeat match goal with
         | |- context [(?a <? ?b)%N] =>
             first [ replace (a <? b)%N with true
                       by (symmetry; apply N.ltb_lt; div_lia)
                   | replace (a <? b)%N with false
                       by (symmetry; apply N.ltb_ge; div_lia) ]
         | |- context [(?a <=? ?b)%N] =>
             first [ replace (a <=? b)%N with true
                       by (symmetry; apply N.leb_le; div_lia)
                   | replace (a <=? b)%N with false
                       by (symmetry; apply N.leb_gt; div_lia) ]
         end.

Lemma is_scalar_range (c : char) :
  is_scalar c = true -> (c <= 1114111 /\ (c < 55296 \/ 57343 < c))%N.
Proof.
  unfold is_scalar. rewrite andb_true_iff, negb_true_iff, andb_false_iff.
  rewrite !N.leb_le, !N.leb_gt. lia.
Qed.

Lemma utf8_encode_char_bytes (c : char) :
  is_scalar c = true -> Forall (fun n => (n <= 255)%N) (utf8_encode_char c).
Proof.
  intros H. apply is_scalar_range in H. unfold utf8_encode_char.
  destruct (N.ltb_spec c 128); [|destruct (N.ltb_spec c 2048);
                                 [|destruct (N.ltb_spec c 65536)]];
    repeat constructor; div_lia.
Qed.

Lemma utf8_decode_encode_char (c : char) (rest : list N) :
  is_scalar c = true ->
  utf8_decode (utf8_encode_char c ++ rest) = option_map (cons c) (utf8_decode rest).
Proof.
  intros H. apply is_scalar_range in H. unfold utf8_encode_char.
  destruct (N.ltb_spec c 128) as [L1|L1].
  { cbn [app utf8_decode]. now decide_comparisons. }
  destruct (N.ltb_spec c 2048) as [L2|L2].
  { cbn [app utf8_decode]. unfold is_continuation. decide_comparisons.
    cbn [andb]. f_equal. f_equal. div_lia. }
  destruct (N.ltb_spec c 65536) as [L3|L3].
  { cbn [app utf8_decode]. unfold is_continuation. cbv zeta. decide_comparisons.
    cbn [andb negb].
    destruct H as [_ [H|H]].
    - replace (55296 <=? _)%N with false by (symmetry; apply N.leb_gt; div_lia).
      cbn [andb negb]. f_equal. f_equal. div_lia.
    - replace (55296 <=? _)%N with true by (symmetry; apply N.leb_le; div_lia).
      replace (_ <=? 57343)%N with false by (symmetry; apply N.leb_gt; div_lia).
      cbn [andb negb]. f_equal. f_equal. div_lia. }
  cbn [app utf8_decode]. unfold is_continuation. cbv zeta. decide_comparisons.
  cbn [andb]. f_equal. f_equal. div_lia.
Qed.

Lemma utf8_decode_encode (s : str) :
  forallb is_scalar s = true -> utf8_decode (flat_map utf8_encode_char s) = Some s.
Proof.
  induction s as [|c s IH]; [reflexivity|]. cbn [forallb flat_map].
  intros H. apply andb_true_iff in H. destruct H as [Hc Hs].
  now rewrite utf8_decode_encode_char, IH.
Qed.

Lemma utf8_encode_values (s : str) :
  forallb is_scalar s = true ->
  map Byte.to_N (utf8_encode s) = flat_map utf8_encode_char s.
Proof.
  intros H. unfold utf8_encode. rewrite map_map.
  rewrite <- (map_id (flat_map utf8_encode_char s)) at 2.
  apply map_ext_in. intros n Hn. apply to_N_byte_of.
  apply in_flat_map in Hn. destruct Hn as (c & Hc & Hn).
  rewrite forallb_forall in H.
  pose proof (utf8_encode_char_bytes c (H c Hc)) as F.
  rewrite Forall_forall in F. now apply F.
Qed.

(** X13.  A text without surrogate code points that was written as UTF-8
    is read back unchanged. *)
Theorem decode_text_utf8 (last_resort : bytes -> str) (text : str) :
  forallb is_scalar text = true ->
  _decode_text last_resort (utf8_encode text) = text.
Proof.
  intros H. unfold _decode_text, encodings, first_decoding, decode.
  now rewrite utf8_encode_values, utf8_decode_encode.
Qed.

Lemma decode_text_utf8_witness :
  _decode_text (fun _ => []) (utf8_encode [1054; 1090; 1083; 1080; 1095; 1085; 1086; 33; 128512]%N)
  = [1054; 1090; 1083; 1080; 1095; 1085; 1086; 33; 128512]%N.
Proof.
  apply (decode_text_utf8 (fun _ => [])). reflexivity.
Defined.

(** ** The lines of a text file *)

Lemma linebreak_isspace (c : char) : is_linebreak c = true -> isspace c = true.
Proof.
  unfold is_linebreak, isspace.
  rewrite !orb_true_iff, !andb_true_iff, !N.leb_le, !N.eqb_eq. lia.
Qed.

(** The lines of [splitlines] hold no line break, and no character that
    the text does not hold. *)
Lemma splitlines_lines n : forall s, length s <= n ->
  Forall (fun line => forallb (fun c => negb (is_linebreak c)) line = true
                      /\ incl line s) (splitlines s).
Proof.
  induction n as [|n IH]; intros s Hn.
  { destruct s; [constructor|cbn in Hn; lia]. }
  destruct s as [|c s]; [constructor|]. cbn [length] in Hn. cbn [splitlines].
  destruct (is_linebreak c) eqn:Eb.
  - constructor; [split; [reflexivity|intros x []]|].
    assert (Tail : forall t, length t <= n -> incl t s ->
               Forall (fun line => forallb (fun c => negb (is_linebreak c)) line = true
                                   /\ incl line (c :: s)) (splitlines t)).
    { intros t Ht It. generalize (IH t Ht). apply Forall_impl.
      intros line [H1 H2]. split; [exact H1|].
      intros x Hx. right. apply It. now apply H2. }
    destruct s as [|c' s'']; [constructor|].
    destruct ((c =? 13) && (c' =? 10))%N.
    + apply Tail; [cbn [length] in Hn; lia|]. intros x Hx. now right.
    + apply Tail; [lia|]. intros x Hx. exact Hx.
  - pose proof (IH s ltac:(lia)) as F.
    destruct (splitlines s) as [|line lines].
    + constructor; [|constructor]. split; [cbn [forallb]; now rewrite Eb|].
      intros x [<-|[]]. now left.
    + inversion F as [|? ? [H1 H2] F']; subst. constructor.
      * split; [cbn [forallb]; now rewrite Eb, H1|].
        intros x [<-|Hx]; [now left|right; now apply H2].
      * revert F'. apply Forall_impl. intros l [H3 H4]. split; [exact H3|].
        intros x Hx. right. now apply H4.
Qed.

Lemma lstrip_head (s : str) :
  lstrip s = [] \/ exists c t, lstrip s = c :: t /\ isspace c = false.
Proof.
  induction s as [|c s IH]; [now left|]. cbn [lstrip].
  destruct (isspace c) eqn:E; [exact IH|right; eauto].
Qed.

Lemma strip_idem (s : str) : strip (strip s) = strip s.
Proof.
  unfold strip. destruct (lstrip_head s) as [->|(c & t & -> & Hc)]; [reflexivity|].
  rewrite rstrip_cons by exact Hc. rewrite lstrip_nonspace by exact Hc.
  rewrite rstrip_cons by exact Hc. now rewrite rstrip_idem.
Qed.

Lemma lstrip_incl (s : str) : incl (lstrip s) s.
Proof.
  induction s as [|c s IH]; [easy|]. cbn [lstrip].
  destruct (isspace c); [now apply incl_tl|apply incl_refl].
Qed.

Lemma rstrip_incl (s : str) : incl (rstrip s) s.
Proof.
  induction s as [|c s IH]; [easy|]. cbn [rstrip].
  destruct (rstrip s).
  - destruct (isspace c); [easy|]. intros x [<-|[]]. now left.
  - intros x [<-|Hx]; [now left|right; now apply IH].
Qed.

Lemma strip_incl (s : str) : incl (strip s) s.
Proof.
  unfold strip. eapply incl_tran; [apply rstrip_incl|apply lstrip_incl].
Qed.

Lemma strip_all_space (s : str) : forallb isspace s = true -> strip s = [].
Proof. intros H. unfold strip. now rewrite lstrip_all_space. Qed.

Lemma forallb_incl {A : Type} (p : A -> bool) (a b : list A) :
  incl a b -> forallb p b = true -> forallb p a = true.
Proof.
  intros I H. rewrite forallb_forall in *. auto.
Qed.

Lemma count_no_linebreak (line : str) :
  forallb (fun c => negb (is_linebreak c)) line = true -> count NL line = 0.
Proof.
  induction line as [|c line IH]; [reflexivity|]. cbn [forallb count].
  intros H. apply andb_true_iff in H. destruct H as [Hc H].
  rewrite (IH H). destruct (N.eqb_spec c NL) as [->|]; [discriminate Hc|reflexivity].
Qed.

Lemma review_lines_spec (text : str) :
  Forall (fun t => t <> [] /\ strip t = t
                   /\ forallb (fun c => negb (is_linebreak c)) t = true
                   /\ incl t text) (review_lines text).
Proof.
  unfold review_lines. apply Forall_forall. intros t Ht.
  apply in_map_iff in Ht. destruct Ht as (line & <- & Hl).
  apply filter_In in Hl. destruct Hl as [Hl Hn].
  pose proof (splitlines_lines _ text (le_n _)) as F.
  rewrite Forall_forall in F. destruct (F line Hl) as [Hb Hi].
  split; [intros E; now rewrite E in Hn|]. split; [apply strip_idem|].
  split; [exact (forallb_incl _ _ _ (strip_incl line) Hb)|].
  eapply incl_tran; [apply strip_incl|exact Hi].
Qed.

(** X14.  Every review read from a text file is a mapping with the single
    key [review_text], whose text is not empty, has no whitespace at either
    end and no line break inside, and is made of characters of the decoded
    content. *)
Theorem parse_txt_reviews {RT : PyRuntime} (last_resort : bytes -> str)
        (content : bytes) :
  Forall (fun review =>
            exists t, review = PDict [(key_review_text, PStr t)]
                      /\ t <> [] /\ strip t = t
                      /\ forallb (fun c => negb (is_linebreak c)) t = true
                      /\ incl t (_decode_text last_resort content))
         (parse_txt last_resort content).
Proof.
  unfold parse_txt. apply Forall_forall. intros r Hr.
  apply in_map_iff in Hr. destruct Hr as (t & <- & Ht).
  pose proof (review_lines_spec (_decode_text last_resort content)) as F.
  rewrite Forall_forall in F. exists t. split; [reflexivity|]. now apply F.
Qed.

(** X15.  Content that decodes to whitespace only, the empty file
    included, gives no review. *)
Theorem parse_txt_blank {RT : PyRuntime} (last_resort : bytes -> str)
        (content : bytes) :
  forallb isspace (_decode_text last_resort content) = true ->
  parse_txt last_resort content = [].
Proof.
  intros H. unfold parse_txt, review_lines.
  set (text := _decode_text last_resort content) in *.
  replace (filter _ (splitlines text)) with (@nil str); [reflexivity|].
  symmetry. pose proof (splitlines_lines _ text (le_n _)) as F.
  induction (splitlines text) as [|line lines IH]; [reflexivity|].
  inversion F as [|? ? [_ Hi] F']; subst. cbn [filter].
  rewrite (strip_all_space line (forallb_incl _ _ _ Hi H)). cbn [nonempty].
  now apply IH.
Qed.

Lemma parse_txt_blank_witness :
  @parse_txt reference_runtime (fun _ => [])
     [Byte.x20; Byte.x0d; Byte.x0a; Byte.x09; Byte.x0a] = [].
Proof.
  apply (@parse_txt_blank reference_runtime). reflexivity.
Defined.

(** ** The reviews as the prompt lists them *)

Lemma split_join (sep : char) (ls : list str) :
  ls <> [] -> Forall (fun l => count sep l = 0) ls ->
  split sep (join [sep] ls) = ls.
Proof.
  induction ls as [|l ls IH]; [congruence|]. intros _ F.
  inversion F as [|? ? Hl F']; subst. destruct ls as [|l2 ls].
  - cbn [join]. now apply split_no_sep.
  - change (join [sep] (l :: l2 :: ls)) with (l ++ [sep] ++ join [sep] (l2 :: ls)).
    cbn [app]. rewrite split_app, split_no_sep by exact Hl.
    cbn [app]. now rewrite IH.
Qed.

Lemma review_items_lines {RT : PyRuntime} {PO : PyObject} (lines : list str) :
  Forall (fun t => t <> []) lines ->
  review_items (map (fun ln => PDict [(key_review_text, PStr ln)]) lines)
  = Done (map (app (lit "- ")) lines).
Proof.
  induction 1 as [|t lines Ht F IH]; [reflexivity|].
  cbn [map review_items get_method dict_get]. rewrite str_eqb_refl.
  cbn [run_bind truthy]. destruct t as [|c t]; [congruence|].
  rewrite IH. reflexivity.
Qed.

(** X16.  For the reviews read from a text file, the text of the reviews
    sent to the model is the review texts, each after a dash and a space,
    joined by newlines; when there is a review, its lines are exactly those:
    one line for each review. *)
Theorem joined_reviews_of_txt {RT : PyRuntime} {PO : PyObject}
        (last_resort : bytes -> str) (content : bytes) :
  let lines := review_lines (_decode_text last_resort content) in
  joined_reviews (parse_txt last_resort content)
  = Done (join [NL] (map (app (lit "- ")) lines))
  /\ (lines <> [] ->
      split NL (join [NL] (map (app (lit "- ")) lines))
      = map (app (lit "- ")) lines).
Proof.
  cbv zeta. set (lines := review_lines (_decode_text last_resort content)).
  pose proof (review_lines_spec (_decode_text last_resort content)) as F.
  fold lines in F. split.
  - unfold joined_reviews, parse_txt. fold lines. rewrite review_items_lines.
    + reflexivity.
    + revert F. apply Forall_impl. tauto.
  - intros Hne. apply split_join.
    + destruct lines; [congruence|discriminate].
    + apply Forall_forall. intros l Hl. apply in_map_iff in Hl.
      destruct Hl as (t & <- & Ht). rewrite Forall_forall in F.
      destruct (F t Ht) as (_ & _ & Hb & _).
      rewrite count_app, (count_no_linebreak t Hb). reflexivity.
Qed.

Lemma joined_reviews_of_txt_witness :
  split NL (join [NL] (map (app (lit "- "))
                         (review_lines (_decode_text (fun _ => [])
                            (utf8_encode (lit " good " ++ [13; 10; 10]%N ++ lit "bad"))))))
  = [lit "- good"; lit "- bad"].
Proof.
  apply (proj2 (@joined_reviews_of_txt reference_runtime reference_object (fun _ => [])
                  (utf8_encode (lit " good " ++ [13; 10; 10]%N ++ lit "bad")))).
  discriminate.
Defined.

Lemma review_items_plain {RT : PyRuntime} {PO : PyObject} (reviews : list pyval) :
  Forall plain_review reviews -> exists items, review_items reviews = Done items.
Proof.
  induction 1 as [|r reviews Hr F [items IH]]; [now exists []|].
  cbn [review_items]. destruct r as [| | | | | |d]; try contradiction.
  cbn [plain_review] in Hr. cbn [get_method run_bind].
  destruct (dict_get key_review_text d) as [v|].
  - destruct (truthy v) eqn:T; [|eauto].
    destruct v; try congruence. rewrite IH. cbn [run_bind]. eauto.
  - cbn [truthy]. eauto.
Qed.

Lemma review_items_not_mapping {RT : PyRuntime} {PO : PyObject}
      (before after : list pyval) (r : pyval) :
  Forall plain_review before -> not_mapping r ->
  review_items (before ++ r :: after) = Fails AttributeError.
Proof.
  intros F Hr. induction F as [|x before Hx F IH]; cbn [app review_items].
  - destruct r; try reflexivity. contradiction.
  - destruct x as [| | | | | |d]; try contradiction.
    cbn [get_method run_bind]. destruct (truthy _); [|exact IH].
    now rewrite IH.
Qed.

(** X17.  Building the text of the reviews succeeds on every list of
    mappings whose [review_text] is missing, false or a string; when such
    reviews are followed by a review that is not a mapping, it fails with
    [AttributeError]. *)
Theorem joined_reviews_cases {RT : PyRuntime} {PO : PyObject} (reviews : list pyval) :
  (Forall plain_review reviews -> exists text, joined_reviews reviews = Done text)
  /\ (forall before r after,
        reviews = before ++ r :: after ->
        Forall plain_review before -> not_mapping r ->
        joined_reviews reviews = Fails AttributeError).
Proof.
  unfold joined_reviews. split.
  - intros F. destruct (review_items_plain reviews F) as [items ->].
    cbn [run_bind]. eauto.
  - intros before r after -> F Hr.
    now rewrite (review_items_not_mapping before after r F Hr).
Qed.

Lemma joined_reviews_cases_witness :
  @joined_reviews reference_runtime reference_object
     [PDict [(key_review_text, PStr (lit "good"))]; PStr (lit "bad")]
  = Fails AttributeError.
Proof.
  apply (proj2 (@joined_reviews_cases reference_runtime reference_object _)
           [PDict [(key_review_text, PStr (lit "good"))]] (PStr (lit "bad")) []).
  - reflexivity.
  - repeat constructor.
  - exact I.
Defined.

(** ** Line breaks and the byte order mark *)

Lemma splitlines_from_spec n : forall s, length s <= n -> forall line,
  splitlines_from line s
  = match splitlines s with
    | [] => match line with [] => [] | _ => [line] end
    | l :: ls => (line ++ l) :: ls
    end.
Proof.
  induction n as [|n IH]; intros s Hn line.
  { destruct s; [reflexivity|cbn in Hn; lia]. }
  destruct s as [|c s]; [reflexivity|]. cbn [length] in Hn.
  assert (Nil : forall t, length t <= n -> splitlines_from [] t = splitlines t).
  { intros t Ht. rewrite (IH t Ht []). now destruct (splitlines t). }
  cbn [splitlines_from splitlines]. destruct (is_linebreak c).
  - rewrite app_nil_r. f_equal. destruct s as [|c' s'']; [reflexivity|].
    cbn [length] in Hn.
    destruct ((c =? 13) && (c' =? 10))%N; apply Nil; cbn [length]; lia.
  - rewrite (IH s ltac:(lia)). destruct (splitlines s) as [|l ls].
    + now destruct line.
    + now rewrite <- app_assoc.
Qed.

Lemma splitlines_from_nil (s : str) : splitlines_from [] s = splitlines s.
Proof.
  rewrite (splitlines_from_spec _ s (le_n _) []). now destruct (splitlines s).
Qed.

(** A break at the head of the text only adds an empty line. *)
Lemma nonblank_after_break (c : char) (s : str) :
  is_linebreak c = true ->
  filter (fun ln => nonempty (strip ln)) (splitlines (c :: s))
  = filter (fun ln => nonempty (strip ln)) (splitlines s).
Proof.
  intros Hc. cbn [splitlines]. rewrite Hc. cbn [filter strip lstrip rstrip nonempty].
  destruct s as [|c' s'']; [reflexivity|].
  destruct ((c =? 13) && (c' =? 10))%N eqn:E; [|reflexivity].
  apply andb_true_iff in E. destruct E as [_ E]. apply N.eqb_eq in E. subst c'.
  cbn [splitlines]. change (is_linebreak 10%N) with true. cbv iota.
  cbn [filter strip lstrip rstrip nonempty].
  destruct s'' as [|x t]; [reflexivity|].
  now replace ((10 =? 13) && (x =? 10))%N with false by reflexivity.
Qed.

Lemma nonblank_lines_app (a : str) : forall (line : str) (c : char) (b : str),
  is_linebreak c = true ->
  filter (fun ln => nonempty (strip ln)) (splitlines_from line (a ++ c :: b))
  = filter (fun ln => nonempty (strip ln)) (splitlines_from line a)
    ++ filter (fun ln => nonempty (strip ln)) (splitlines b).
Proof.
  induction a as [|x a IH]; intros line c b Hc.
  - cbn [app splitlines_from]. rewrite Hc.
    assert (T : filter (fun ln => nonempty (strip ln))
                  match b with
                  | c' :: s'' => if ((c =? 13) && (c' =? 10))%N
                                 then splitlines_from [] s''
                                 else splitlines_from [] b
                  | [] => splitlines_from [] b
                  end
                = filter (fun ln => nonempty (strip ln)) (splitlines b)).
    { pose proof (nonblank_after_break c b Hc) as A.
      cbn [splitlines] in A. rewrite Hc in A.
      cbn [filter strip lstrip rstrip nonempty] in A. rewrite <- A.
      destruct b as [|c' s'']; [reflexivity|].
      destruct ((c =? 13) && (c' =? 10))%N; now rewrite ?splitlines_from_nil. }
    cbn [filter]. rewrite T. destruct line as [|y line]; [reflexivity|].
    cbn [filter]. now destruct (nonempty (strip (y :: line))).
  - cbn [app splitlines_from]. destruct (is_linebreak x) eqn:Ex; [|now apply IH].
    cbn [filter]. 
    assert (T : forall s,
              filter (fun ln => nonempty (strip ln))
                match s with
                | c' :: s'' => if ((x =? 13) && (c' =? 10))%N
                               then splitlines_from [] s''
                               else splitlines_from [] s
                | [] => splitlines_from [] s
                end
              = filter (fun ln => nonempty (strip ln)) (splitlines_from [] s)).
    { intros s. pose proof (nonblank_after_break x s Ex) as A.
      cbn [splitlines] in A. rewrite Ex in A.
      cbn [filter strip lstrip rstrip nonempty] in A.
      rewrite splitlines_from_nil, <- A.
      destruct s as [|c' s'']; [reflexivity|].
      destruct ((x =? 13) && (c' =? 10))%N; now rewrite ?splitlines_from_nil. }
    rewrite (T (a ++ c :: b)), (T a), (IH [] c b Hc).
    now destruct (nonempty (strip line)).
Qed.

(** X18.  Any line break between two pieces of text separates their
    reviews, whatever its kind ([\n], [\r], [\r\n] and the other breaks of
    [splitlines]): the reviews of the whole are those of the first piece
    followed by those of the second. *)
Theorem review_lines_break (a b : str) (c : char) :
  is_linebreak c = true ->
  review_lines (a ++ c :: b) = review_lines a ++ review_lines b.
Proof.
  intros Hc. unfold review_lines. rewrite <- map_app. f_equal.
  rewrite <- (splitlines_from_nil (a ++ c :: b)), <- (splitlines_from_nil a).
  exact (nonblank_lines_app a [] c b Hc).
Qed.

Lemma review_lines_break_witness :
  review_lines (lit "good " ++ 13%N :: (NL :: lit " bad"))
  = review_lines (lit "good ") ++ review_lines (NL :: lit " bad").
Proof.
  apply (review_lines_break (lit "good ") (NL :: lit " bad") 13%N). reflexivity.
Defined.

(** X19.  [_decode_text] keeps a UTF-8 byte order mark as the character
    U+FEFF, which [strip] does not remove: whatever text follows the mark,
    the file gives at least one review, and the first review begins with
    U+FEFF. *)
Theorem parse_txt_bom {RT : PyRuntime} (last_resort : bytes -> str) (text : str) :
  forallb is_scalar text = true ->
  exists t reviews,
    parse_txt last_resort (utf8_bom ++ utf8_encode text)
    = PDict [(key_review_text, PStr (65279%N :: t))] :: reviews.
Proof.
  intros H. unfold parse_txt.
  assert (E : utf8_bom ++ utf8_encode text = utf8_encode (65279%N :: text)).
  { unfold utf8_encode. cbn [flat_map]. now rewrite map_app. }
  rewrite E, decode_text_utf8 by (cbn [forallb]; now rewrite H).
  unfold review_lines. cbn [splitlines]. change (is_linebreak 65279%N) with false.
  cbv iota.
  assert (S : forall l, strip (65279%N :: l) = 65279%N :: rstrip l).
  { intros l. unfold strip. rewrite lstrip_nonspace by reflexivity.
    now rewrite rstrip_cons. }
  destruct (splitlines text) as [|l ls]; cbn [filter]; rewrite S;
    cbn [nonempty map]; rewrite S; eauto.
Qed.

Lemma parse_txt_bom_witness :
  exists t reviews,
    @parse_txt reference_runtime (fun _ => []) (utf8_bom ++ utf8_encode (lit "  "))
    = PDict [(key_review_text, PStr (65279%N :: t))] :: reviews.
Proof.
  apply (@parse_txt_bom reference_runtime (fun _ => []) (lit "  ")). reflexivity.
Defined.
